(** * Test-time adaptation engine: the [Ours] method and its RMT ancestor

    A shallow embedding of [src/methods/ours.py] and
    [src/classification/methods/rmt.py].

    Conventions of the embedding.
    - Tensor entries, entropies, losses and momenta are exact rationals
      ([Q]); floating-point rounding is not modelled.  Two numbers are
      compared with [Qeq] ([==]), two tensors entry by entry.
    - A tensor is the flat list of its entries; a model is the list of its
      parameters in the order of [parameters()].
    - Everything the engine treats as an external collaborator (network
      forward passes, [softmax], the loss kernels, automatic differentiation,
      the optimizer update rule, the augmentation) is a field of the class
      [Collaborators]; the engine is embedded over an arbitrary instance. *)

From Stdlib Require Import String.
From Stdlib Require Import QArith Qminmax Lqa.
From Stdlib Require Import List Arith Bool Lia Permutation.
Import ListNotations.

Local Open Scope Q_scope.

(** ** Tensors and parameters *)

Definition tensor := list Q.

(** A parameter as [torch.nn.Parameter] shows it to the engine: its values,
    the [requires_grad] flag and the gradient buffer ([None] until a backward
    pass reaches it, and again after [zero_grad]). *)
Record param := mkParam {
  data : tensor;
  requires_grad : bool;
  grad : option tensor
}.

(** The parameters of one network, in the order of [parameters()]. *)
Definition network := list param.

Definition set_data (p : param) (d : tensor) : param :=
  mkParam d (requires_grad p) (grad p).

Definition tensor_eq (a b : tensor) : Prop := Forall2 Qeq a b.

Definition same_shape (a b : network) : Prop :=
  Forall2 (fun p q => length (data p) = length (data q)) a b.

(** [model_data_eq a b]: the two models hold the same values. *)
Definition model_data_eq (a b : network) : Prop :=
  Forall2 (fun p q => tensor_eq (data p) (data q)) a b.

(** Entry [j] of parameter [i]. *)
Definition component (a : network) (i j : nat) : option Q :=
  match nth_error a i with
  | Some p => nth_error (data p) j
  | None => None
  end.

(** ** Exponential moving average (rmt.py, [update_ema_variables]) *)

(** [alpha * e + (1 - alpha) * s], entry by entry.  Both operands have the
    shape of the same network parameter; entries of [e] without a partner
    are kept. *)
Fixpoint ema_tensor (alpha : Q) (e s : tensor) : tensor :=
  match e, s with
  | x :: e', y :: s' => (alpha * x + (1 - alpha) * y) :: ema_tensor alpha e' s'
  | _, _ => e
  end.

(** [for ema_param, param in zip(ema_model.parameters(), model.parameters()):
       ema_param.data[:] = alpha_teacher * ema_param[:].data[:]
                           + (1 - alpha_teacher) * param[:].data[:]
     return ema_model]
    [zip] stops at the shorter list: parameters of [ema_model] beyond it are
    left as they are.  Only [data] is written. *)
Fixpoint update_ema_variables (ema_model mdl : network) (alpha_teacher : Q) : network :=
  match ema_model, mdl with
  | ema_param :: es, p :: ps =>
      set_data ema_param (ema_tensor alpha_teacher (data ema_param) (data p))
        :: update_ema_variables es ps alpha_teacher
  | _, _ => ema_model
  end.

(** Modelled from the spec: [utils.misc.ema_update_model] is imported by
    ours.py but is not among the source files.  Section 4.2:
    "merge(ema_model, source_model, momentum): for every parameter pair,
     ema_param <- momentum * ema_param + (1 - momentum) * source_param".
    The device argument only places tensors and [update_all=True] selects
    every pair. *)
Definition ema_update_model (model_to_update model_to_merge : network)
    (momentum : Q) : network :=
  map (fun pr : param * param =>
         set_data (fst pr) (ema_tensor momentum (data (fst pr)) (data (snd pr))))
      (combine model_to_update model_to_merge)
  ++ skipn (length model_to_merge) model_to_update.

(** The teacher after a history of student snapshots, oldest first. *)
Definition ema_fold (momentum : Q) (t0 : network) (history : list network) : network :=
  fold_left (fun t s => ema_update_model t s momentum) history t0.

(** The same average on one entry: the value after the history [vs] of
    source values, oldest first, started from [e0]. *)
Definition ema_scalar (momentum e0 : Q) (vs : list Q) : Q :=
  fold_left (fun e s => momentum * e + (1 - momentum) * s) vs e0.

Fixpoint Qpow (m : Q) (n : nat) : Q :=
  match n with
  | O => 1
  | S n' => m * Qpow m n'
  end.

(** The weighted sum of a history: the value [k] steps before the last one
    has the weight [(1 - m) * m ^ k]. *)
Fixpoint weighted_sum (m : Q) (vs : list Q) : Q :=
  match vs with
  | [] => 0
  | v :: r => (1 - m) * Qpow m (length r) * v + weighted_sum m r
  end.

(** ** Small list helpers *)

Fixpoint zip_with {A B C : Type} (f : A -> B -> C) (a : list A) (b : list B) : list C :=
  match a, b with
  | x :: a', y :: b' => f x y :: zip_with f a' b'
  | _, _ => []
  end.

(** [t[ids]]: the rows of [t] at the positions [ids], in that order.  The
    engine only indexes with positions produced from the same batch. *)
Definition gather {A : Type} (t : list A) (ids : list nat) : list A :=
  flat_map (fun i => match nth_error t i with Some a => [a] | None => [] end) ids.

Definition Qsum (l : list Q) : Q := fold_right Qplus 0 l.

(** [t.mean()] of a vector; the mean of no entry is taken as 0. *)
Definition Qmean (l : list Q) : Q := Qsum l / inject_Z (Z.of_nat (length l)).

(** Position of the first largest entry ([torch.argmax] of one row). *)
Fixpoint argmax_from (best : Q) (besti i : nat) (row : list Q) : nat :=
  match row with
  | [] => besti
  | v :: r => if Qle_bool v best then argmax_from best besti (S i) r
              else argmax_from v i (S i) r
  end.

Definition argmax (row : list Q) : nat :=
  match row with
  | [] => 0%nat
  | v :: r => argmax_from v 0%nat 1%nat r
  end.

(** ** PrototypeStore *)

(** A queue entry: the entropy of the sample (low entropy = high confidence)
    and its feature vector.  The class of an entry is the queue it sits in. *)
Record entry := mkEntry {
  entropy : Q;
  feature : tensor
}.

Definition queue := list entry.

(** The per-class queues ([queues], class [i] at position [i]) and their
    common capacity K. *)
Record pqs := mkPqs {
  queues : list queue;
  max_size : nat
}.

(** Modelled from the spec: [utils.misc.init_pqs] is not among the source
    files.  Section 3: "mapping class_id -> bounded ordered collection
    (capacity K, e.g. 10) of entries"; every queue starts empty. *)
Definition init_pqs (num_classes max_size : nat) : pqs :=
  mkPqs (repeat [] num_classes) max_size.

(** Modelled from the spec: the eviction of section 3 and section 8,
    "eviction always removes the entry with the numerically highest entropy
    (lowest confidence) in its queue".  Returns the evicted entry and the
    rest, [None] on an empty queue; among entries of equal entropy the
    earliest goes. *)
Fixpoint pop_worst (q : queue) : option (entry * queue) :=
  match q with
  | [] => None
  | e :: q' =>
      match pop_worst q' with
      | None => Some (e, [])
      | Some (w, rest) =>
          if Qle_bool (entropy w) (entropy e) then Some (e, q')
          else Some (w, e :: rest)
      end
  end.

(** Modelled from the spec: one sample of [update], section 4.1: "push
    (feature, confidence) into the queue for its label; if queue size
    exceeds K, evict the lowest-confidence entry". *)
Definition push_bounded (K : nat) (q : queue) (e : entry) : queue :=
  let q' := q ++ [e] in
  if (K <? length q')%nat then
    match pop_worst q' with
    | Some (_, rest) => rest
    | None => q'
    end
  else q'.

Fixpoint update_nth {A : Type} (f : A -> A) (i : nat) (l : list A) : list A :=
  match l, i with
  | [], _ => []
  | a :: l', O => f a :: l'
  | a :: l', S i' => a :: update_nth f i' l'
  end.

(** Modelled from the spec: [utils.misc.update_pqs] is not among the source
    files.  Section 4.1, [update(features, confidences, labels)]: "for each
    sample, push (feature, confidence) into the queue for its label; if
    queue size exceeds K, evict the lowest-confidence entry".  Labels are
    class positions; the spec gives no queue to a label outside the class
    range and the store is left as it is there. *)
Fixpoint update_pqs (s : pqs) (features : list tensor) (entropies : list Q)
    (labels : list nat) : pqs :=
  match features, entropies, labels with
  | f :: fs, h :: hs, l :: ls =>
      update_pqs
        (mkPqs (update_nth (fun q => push_bounded (max_size s) q (mkEntry h f)) l (queues s))
               (max_size s))
        fs hs ls
  | _, _, _ => s
  end.

(** Modelled from the spec: [utils.misc.pop_min_from_pqs] is not among the
    source files.  Section 4.1, [evict_round(num_classes)]: "pops the
    current minimum-confidence entry from every class queue".  The popped
    entries are returned; an empty queue has nothing to pop. *)
Fixpoint pop_round (n : nat) (qs : list queue) : list entry * list queue :=
  match n, qs with
  | S n', q :: qs' =>
      let '(popped, rest) := pop_round n' qs' in
      match pop_worst q with
      | Some (w, q') => (w :: popped, q' :: rest)
      | None => (popped, q :: rest)
      end
  | _, _ => ([], qs)
  end.

(** Modelled from the spec: see [pop_round]; the round over the first
    [num_classes] queues of the store, which is updated in place. *)
Definition pop_min_from_pqs (s : pqs) (num_classes : nat) : list entry * pqs :=
  let '(popped, qs) := pop_round num_classes (queues s) in
  (popped, mkPqs qs (max_size s)).

Definition vec_add (a b : tensor) : tensor := zip_with Qplus a b.

(** Modelled from the spec: [utils.misc.compute_prototypes] is not among
    the source files.  Section 4.1: "mean-pool each class queue; classes with
    an empty queue yield an all-zero ... vector"; the zero-fill policy is
    the one taken here. *)
Definition prototype_of (feature_dim : nat) (q : queue) : tensor :=
  match q with
  | [] => repeat 0 feature_dim
  | _ =>
      map (fun v => v / inject_Z (Z.of_nat (length q)))
          (fold_left (fun acc e => vec_add acc (feature e)) q (repeat 0 feature_dim))
  end.

(** Modelled from the spec: see [prototype_of]; one row per class, a
    [num_classes x feature_dim] matrix. *)
Definition compute_prototypes (s : pqs) (num_classes feature_dim : nat) : list tensor :=
  map (prototype_of feature_dim) (firstn num_classes (queues s)).

(** ** ConfidenceFilter *)

(** "confident": entropy strictly below the threshold. *)
Definition confident (tau h : Q) : bool := negb (Qle_bool tau h).

Fixpoint select_ids (i : nat) (flags : list bool) : list nat :=
  match flags with
  | [] => []
  | b :: r => if b then i :: select_ids (S i) r else select_ids (S i) r
  end.

(** Modelled from the spec: [utils.misc.confidence_condition] is not among
    the source files.  Section 4.3: "four index sets partitioning the batch
    by combinations of 'T1 confident' (entropy<tau) and 'T2 confident'
    (entropy<tau): {both confident, only-T2-confident, only-T1-confident,
    neither}", returned in that order. *)
Definition confidence_condition (entropy_t1 entropy_t2 : list Q)
    (entropy_threshold : Q) : list nat * list nat * list nat * list nat :=
  let c1 := map (confident entropy_threshold) entropy_t1 in
  let c2 := map (confident entropy_threshold) entropy_t2 in
  (select_ids 0 (zip_with andb c1 c2),
   select_ids 0 (zip_with (fun a b => negb a && b) c1 c2),
   select_ids 0 (zip_with (fun a b => a && negb b) c1 c2),
   select_ids 0 (zip_with (fun a b => negb a && negb b) c1 c2)).

Definition both_confident (r : list nat * list nat * list nat * list nat) : list nat :=
  fst (fst (fst r)).
Definition only_t2_confident (r : list nat * list nat * list nat * list nat) : list nat :=
  snd (fst (fst r)).
Definition only_t1_confident (r : list nat * list nat * list nat * list nat) : list nat :=
  snd (fst r).
Definition neither_confident (r : list nat * list nat * list nat * list nat) : list nat :=
  snd r.

(** The scenario of section 8: a batch of 8, threshold 0.4. *)
Definition scenario_entropy_t1 : list Q :=
  [1 # 10; 1 # 10; 1 # 10; 1 # 10; 9 # 10; 9 # 10; 9 # 10; 9 # 10].
Definition scenario_entropy_t2 : list Q := repeat (2 # 10) 8.
Definition scenario_filter : list nat * list nat * list nat * list nat :=
  confidence_condition scenario_entropy_t1 scenario_entropy_t2 (4 # 10).

(** ** Engine state *)

Inductive exn :=
| ValueError (msg : string)
| AttributeError (msg : string)
| UnboundLocalError (msg : string).

(** The networks the engine holds: [self.model] (the network handed to the
    constructor), the student [self.model_s], the teachers [self.model_t1]
    and [self.model_t2], and [self.projector]. *)
Inductive model_id := Model | ModelS | ModelT1 | ModelT2 | Projector.

(** An optimizer holds references to parameter tensors, not copies: a
    reference names the network and the position of the parameter. *)
Definition ref := (model_id * nat)%type.

Inductive opt_id :=
| Optimizer | OptimizerT2 | OptimizerBackboneT2 | OptimizerClassifierT2 | OptimizerBn.

Inductive loss_id := LossStu | LossT2.

(** The calls the engine makes into its collaborators, in program order. *)
Inductive event :=
| EvBackward (l : loss_id)
| EvScaledBackward (l : loss_id)
| EvStep (o : opt_id)
| EvScalerStep (o : opt_id)
| EvScalerUpdate
| EvZeroGrad (o : opt_id)
| EvEmaUpdate
| EvPlotTsne.

Record store := mkStore {
  model : network;
  model_s : network;
  model_t1 : network;
  model_t2 : network;
  projector : network
}.

Definition get_model (i : model_id) (s : store) : network :=
  match i with
  | Model => model s
  | ModelS => model_s s
  | ModelT1 => model_t1 s
  | ModelT2 => model_t2 s
  | Projector => projector s
  end.

Definition set_model (i : model_id) (n : network) (s : store) : store :=
  match i with
  | Model => mkStore n (model_s s) (model_t1 s) (model_t2 s) (projector s)
  | ModelS => mkStore (model s) n (model_t1 s) (model_t2 s) (projector s)
  | ModelT1 => mkStore (model s) (model_s s) n (model_t2 s) (projector s)
  | ModelT2 => mkStore (model s) (model_s s) (model_t1 s) n (projector s)
  | Projector => mkStore (model s) (model_s s) (model_t1 s) (model_t2 s) n
  end.

Definition update_ref (f : param -> param) (r : ref) (s : store) : store :=
  set_model (fst r) (update_nth f (snd r) (get_model (fst r) s)) s.

Definition map_store (f : ref -> param -> param) (s : store) : store :=
  let on i := map (fun ip : nat * param => f (i, fst ip) (snd ip))
                  (combine (seq 0 (length (get_model i s))) (get_model i s)) in
  mkStore (on Model) (on ModelS) (on ModelT1) (on ModelT2) (on Projector).

Definition datas (n : network) : list tensor := map data n.

(** The configuration read from [cfg] and the attributes the base class
    sets; none of them is written after construction. *)
Record config := mkConfig {
  contrast_mode : string;
  temperature : Q;
  m_teacher_momentum : Q;
  num_classes : nat;
  mixed_precision : bool;
  device : string
}.

Section State.

(** The internal state of an optimizer (momentum buffers, step counts). *)
Context {opt_state : Type}.

(** *** Optimizers *)

(** [param_groups]: each group is the parameters it references and its
    learning rate. *)
Record optim := mkOptim {
  param_groups : list (list ref * Q);
  ostate : opt_state
}.

(** [optimizer_t2] and [optimizer_bn] are attributes only when the
    constructor found parameters for them. *)
Record optimizers := mkOpts {
  optimizer : optim;
  optimizer_t2 : option optim;
  optimizer_backbone_t2 : optim;
  optimizer_classifier_t2 : optim;
  optimizer_bn : option optim
}.

Definition get_opt (o : opt_id) (os : optimizers) : option optim :=
  match o with
  | Optimizer => Some (optimizer os)
  | OptimizerT2 => optimizer_t2 os
  | OptimizerBackboneT2 => Some (optimizer_backbone_t2 os)
  | OptimizerClassifierT2 => Some (optimizer_classifier_t2 os)
  | OptimizerBn => optimizer_bn os
  end.

Definition set_opt (o : opt_id) (v : optim) (os : optimizers) : optimizers :=
  match o with
  | Optimizer =>
      mkOpts v (optimizer_t2 os) (optimizer_backbone_t2 os)
             (optimizer_classifier_t2 os) (optimizer_bn os)
  | OptimizerT2 =>
      mkOpts (optimizer os) (Some v) (optimizer_backbone_t2 os)
             (optimizer_classifier_t2 os) (optimizer_bn os)
  | OptimizerBackboneT2 =>
      mkOpts (optimizer os) (optimizer_t2 os) v
             (optimizer_classifier_t2 os) (optimizer_bn os)
  | OptimizerClassifierT2 =>
      mkOpts (optimizer os) (optimizer_t2 os) (optimizer_backbone_t2 os)
             v (optimizer_bn os)
  | OptimizerBn =>
      mkOpts (optimizer os) (optimizer_t2 os) (optimizer_backbone_t2 os)
             (optimizer_classifier_t2 os) (Some v)
  end.

Definition opt_name (o : opt_id) : string :=
  match o with
  | Optimizer => "optimizer"
  | OptimizerT2 => "optimizer_t2"
  | OptimizerBackboneT2 => "optimizer_backbone_t2"
  | OptimizerClassifierT2 => "optimizer_classifier_t2"
  | OptimizerBn => "optimizer_bn"
  end%string.

Definition refs_of (o : optim) : list ref := flat_map fst (param_groups o).

(** *** The engine object *)

Record Ours := mkOurs {
  cfg : config;
  c : nat;
  lambda_ce_trg : Q;
  nets : store;
  opts : optimizers;
  scaler : Q;
  priority_queues : pqs;
  trace : list event
}.

Definition set_c (n : nat) (st : Ours) : Ours :=
  mkOurs (cfg st) n (lambda_ce_trg st) (nets st) (opts st) (scaler st)
         (priority_queues st) (trace st).
Definition set_lambda_ce_trg (v : Q) (st : Ours) : Ours :=
  mkOurs (cfg st) (c st) v (nets st) (opts st) (scaler st)
         (priority_queues st) (trace st).
Definition set_nets (s : store) (st : Ours) : Ours :=
  mkOurs (cfg st) (c st) (lambda_ce_trg st) s (opts st) (scaler st)
         (priority_queues st) (trace st).
Definition set_opts (os : optimizers) (st : Ours) : Ours :=
  mkOurs (cfg st) (c st) (lambda_ce_trg st) (nets st) os (scaler st)
         (priority_queues st) (trace st).
Definition set_scaler (v : Q) (st : Ours) : Ours :=
  mkOurs (cfg st) (c st) (lambda_ce_trg st) (nets st) (opts st) v
         (priority_queues st) (trace st).
Definition set_priority_queues (s : pqs) (st : Ours) : Ours :=
  mkOurs (cfg st) (c st) (lambda_ce_trg st) (nets st) (opts st) (scaler st)
         s (trace st).
Definition log (e : event) (st : Ours) : Ours :=
  mkOurs (cfg st) (c st) (lambda_ce_trg st) (nets st) (opts st) (scaler st)
         (priority_queues st) (trace st ++ [e]).

End State.

Arguments optim : clear implicits.
Arguments optimizers : clear implicits.
Arguments Ours : clear implicits.

(** ** External collaborators *)

(** What the engine consumes and does not implement: the networks'
    forward passes, the numeric kernels, automatic differentiation, the
    optimizer update rule and the augmentation. *)
Class Collaborators := {
  (** An image batch. *)
  batch : Type;
  opt_state : Type;
  (** [model(x)]: the logits of a network with the given parameter values,
      one row per sample. *)
  forward : list tensor -> batch -> list tensor;
  (** The backbone half of [split_up_model]: the features, one row per
      sample. *)
  backbone : list tensor -> batch -> list tensor;
  softmax : list tensor -> list tensor;
  log_t : list tensor -> list tensor;
  normalize : list tensor -> list tensor;
  (** The augmentation drawn for this call. *)
  tta_transform : batch -> batch;
  (** [SymmetricCrossEntropy()] and [Entropy()], one value per sample. *)
  symmetric_cross_entropy : list tensor -> list tensor -> list Q;
  ent : list tensor -> list Q;
  mse_loss : list tensor -> list tensor -> Q;
  kl_div : list tensor -> list tensor -> Q;
  (** Nearest prototype of every feature row (cosine similarity, top-1). *)
  nearest_prototype : list tensor -> list tensor -> list nat;
  (** The supervised-contrastive kernel: mode, temperature, projector
      values, the [B x 3 x D] triplets and the mask. *)
  supcon : string -> Q -> list tensor -> list (list tensor) -> list tensor -> Q;
  (** The update rule of an optimizer for one parameter (state, learning
      rate, parameter, old values, gradient) and the successor of its
      state. *)
  opt_rule : opt_state -> Q -> ref -> tensor -> tensor -> tensor;
  opt_tick : opt_state -> store -> opt_state;
  (** The state of a freshly built optimizer. *)
  fresh_state : opt_state;
  (** [GradScaler.update]: the next loss scale. *)
  scaler_next : Q -> Q;
  (** The gradient of a loss with respect to one parameter, for the graph
      built by the forward passes of [loss_calculation] (the engine at that
      time and the batch); [None] when the parameter is not in the graph. *)
  dloss : loss_id -> Ours opt_state -> batch -> ref -> option tensor;
  (** The base class's [collect_params]: the positions of the parameters
      it selects. *)
  collect_params : network -> list nat
}.

Section Engine.

Context {E : Collaborators}.

Local Abbreviation engine := (Ours opt_state).

(** *** State and exceptions *)

(** A method of the engine: it reads and writes the object and either
    returns or raises; what it wrote before raising stays written. *)
Definition M (A : Type) : Type := engine -> (exn + A) * engine.

Definition ret {A : Type} (a : A) : M A := fun st => (inr a, st).
Definition bind {A B : Type} (m : M A) (k : A -> M B) : M B :=
  fun st => match m st with
            | (inl e, st') => (inl e, st')
            | (inr a, st') => k a st'
            end.
Definition raise {A : Type} (e : exn) : M A := fun st => (inl e, st).
Definition get : M engine := fun st => (inr st, st).
Definition modify (f : engine -> engine) : M unit := fun st => (inr tt, f st).

Local Notation "x <- m ;; k" := (bind m (fun x => k))
  (at level 61, m at next level, right associativity).
Local Notation "' pat <- m ;; k" := (bind m (fun x => match x with pat => k end))
  (at level 61, pat pattern, m at next level, right associativity).
Local Notation "m ;; k" := (bind m (fun _ => k))
  (at level 61, right associativity).

(** *** Autograd and optimizer primitives *)

(** [loss.backward()] adds the gradient to the buffer of every parameter of
    the graph that requires a gradient, and to no other. *)
Definition accumulate (scale : Q) (g : ref -> option tensor) (r : ref) (p : param) : param :=
  if requires_grad p then
    match g r with
    | Some d =>
        let d := map (Qmult scale) d in
        mkParam (data p) (requires_grad p)
                (Some (match grad p with None => d | Some old => vec_add old d end))
    | None => p
    end
  else p.

Definition backward (l : loss_id) (graph : engine) (x : batch) : M unit :=
  modify (fun st =>
    log (EvBackward l)
        (set_nets (map_store (accumulate 1 (dloss l graph x)) (nets st)) st)).

(** [self.<name>]: an optimizer attribute, [AttributeError] when the
    constructor did not set it. *)
Definition attr (o : opt_id) : M (optim opt_state) :=
  st <- get ;;
  match get_opt o (opts st) with
  | Some v => ret v
  | None => raise (AttributeError (opt_name o))
  end.

(** [optimizer.step()]: every referenced parameter that has a gradient is
    rewritten by the update rule. *)
Definition step_param (os : opt_state) (lr : Q) (r : ref) (p : param) : param :=
  match grad p with
  | Some g => set_data p (opt_rule os lr r (data p) g)
  | None => p
  end.

Definition apply_step (o : optim opt_state) (s : store) : store :=
  fold_left
    (fun s g => fold_left (fun s r => update_ref (step_param (ostate o) (snd g) r) r s)
                          (fst g) s)
    (param_groups o) s.

Definition step (o : opt_id) : M unit :=
  v <- attr o ;;
  modify (fun st =>
    log (EvStep o)
        (set_opts (set_opt o (mkOptim (param_groups v) (opt_tick (ostate v) (nets st))) (opts st))
                  (set_nets (apply_step v (nets st)) st))).

(** [optimizer.zero_grad()]: the buffers of the referenced parameters are
    dropped. *)
Definition clear_grad (p : param) : param := mkParam (data p) (requires_grad p) None.

Definition zero_grad (o : opt_id) : M unit :=
  v <- attr o ;;
  modify (fun st =>
    log (EvZeroGrad o)
        (set_nets (fold_left (fun s r => update_ref clear_grad r s) (refs_of v) (nets st)) st)).

(** [self.scaler.scale(loss).backward()]: the gradients are multiplied by
    the loss scale. *)
Definition scaled_backward (l : loss_id) (graph : engine) (x : batch) : M unit :=
  modify (fun st =>
    log (EvScaledBackward l)
        (set_nets (map_store (accumulate (scaler st) (dloss l graph x)) (nets st)) st)).

(** [self.scaler.step(optimizer)]: the gradients of the optimizer's
    parameters are divided by the loss scale, then the optimizer steps; with
    exact numbers no gradient is infinite and no step is skipped. *)
Definition unscale (s : Q) (p : param) : param :=
  mkParam (data p) (requires_grad p)
          (match grad p with Some g => Some (map (fun v => v / s) g) | None => None end).

Definition scaler_step (o : opt_id) : M unit :=
  v <- attr o ;;
  modify (fun st =>
    let s1 := fold_left (fun s r => update_ref (unscale (scaler st)) r s) (refs_of v) (nets st) in
    log (EvScalerStep o)
        (set_opts (set_opt o (mkOptim (param_groups v) (opt_tick (ostate v) s1)) (opts st))
                  (set_nets (apply_step v s1) st))).

Definition scaler_update : M unit :=
  modify (fun st => log EvScalerUpdate (set_scaler (scaler_next (scaler st)) st)).

(** *** Loss terms (ours.py) *)

Definition tensor_add (a b : list tensor) : list tensor := zip_with vec_add a b.

Definition dot (a b : tensor) : Q := Qsum (zip_with Qmult a b).

Definition relu (v : Q) : Q := Qmax 0 v.

Fixpoint drop_nth {A : Type} (i : nat) (l : list A) : list A :=
  match l, i with
  | [], _ => []
  | _ :: l', O => l'
  | a :: l', S i' => a :: drop_nth i' l'
  end.

(** [KL_Div_loss(features, prototypes, labels)]. *)
Definition KL_Div_loss (features prototypes : list tensor) (labels : list nat) : Q :=
  let prototypes := gather prototypes labels in
  let prob1 := softmax features in
  let prob2 := softmax prototypes in
  kl_div (log_t prob1) prob2.

(** [contrastive_loss_proto(feature, prototypes, labels, margin)]: the hinge
    of every sample against the prototypes of the other classes. *)
Definition contrastive_loss_proto (feature prototypes : list tensor)
    (labels : list nat) (margin : Q) : Q :=
  let feature := normalize feature in
  let prototypes := normalize prototypes in
  let cosine_sim := map (fun f => map (dot f) prototypes) feature in
  let row_loss (row : tensor) (l : nat) : Q :=
    let pos_sim := nth l row 0 in
    let neg_sim := drop_nth l row in
    Qmean (map (fun n => relu (margin - pos_sim + n)) neg_sim) in
  fold_left Qplus (zip_with row_loss cosine_sim labels) 0
  / inject_Z (Z.of_nat (length cosine_sim)).

Definition eye (n : nat) : list tensor :=
  map (fun i => map (fun j => if (i =? j)%nat then 1 else 0) (seq 0 n)) (seq 0 n).

Definition eq_mask (labels : list nat) : list tensor :=
  map (fun a => map (fun b => if (a =? b)%nat then 1 else 0) labels) labels.

Fixpoint zip3 (a b d : list tensor) : list (list tensor) :=
  match a, b, d with
  | x :: a', y :: b', z :: d' => [x; y; z] :: zip3 a' b' d'
  | _, _, _ => []
  end.

(** [contrastive_loss(features, prototypes, features_aug, labels, mask)].
    [labels] is the flattened label tensor, so its length is the
    [labels.shape[0]] the code compares after [view(-1, 1)]; [batch_size] is
    [features.shape[0]] of the concatenated triplets, one per feature
    row.  The tensor code of the method (the nearest prototypes and the
    triplets before the argument checks, the projector and the kernel after
    them) raises torch's [RuntimeError] on shapes that do not fit; the
    embedding gives the method where that code runs through, and statements
    about its errors say so by [tensor_code_fits]. *)
Definition contrastive_loss (features prototypes features_aug : list tensor)
    (labels : option (list nat)) (mask : option (list tensor)) : M Q :=
  st <- get ;;
  let indices := nearest_prototype prototypes features in
  let triplets := zip3 (gather prototypes indices) features features_aug in
  let batch_size := length features in
  mask <-
    match labels, mask with
    | Some _, Some _ => raise (ValueError "Cannot define both `labels` and `mask`")
    | None, None => ret (eye batch_size)
    | Some l, None =>
        if negb (length l =? batch_size)%nat
        then raise (ValueError "Num of labels does not match num of features")
        else ret (eq_mask l)
    | None, Some m => ret m
    end ;;
  if String.eqb (contrast_mode (cfg st)) "one"
     || String.eqb (contrast_mode (cfg st)) "all"
  then ret (supcon (contrast_mode (cfg st)) (temperature (cfg st))
                   (datas (projector (nets st))) triplets mask)
  else raise (ValueError ("Unknown mode: " ++ contrast_mode (cfg st))).

(** *** Prototype maintenance (ours.py, [prototype_updates]) *)

(** [feature_dim] is [features.shape[1]]; [self.priority_queues] is updated
    in place. *)
Definition prototype_updates (num_classes feature_dim : nat)
    (features : list tensor) (entropies : list Q) (labels : list nat)
    : M (list tensor) :=
  modify (fun st =>
    set_priority_queues (update_pqs (priority_queues st) features entropies labels) st) ;;
  st <- get ;;
  (if (c st mod 5 =? 0)%nat
   then modify (fun st =>
          set_priority_queues (snd (pop_min_from_pqs (priority_queues st) num_classes)) st)
   else ret tt) ;;
  st <- get ;;
  let prototypes := compute_prototypes (priority_queues st) num_classes feature_dim in
  (if (c st mod 20 =? 0)%nat && (0 <? c st)%nat
   then modify (log EvPlotTsne)
   else ret tt) ;;
  ret prototypes.

(** *** One adaptation step (ours.py) *)

(** The argument of the engine's methods: a sequence whose element 0 is the
    image batch. *)
Definition inputs : Type := (batch * list batch)%type.

Definition shape1 (t : list tensor) : nat :=
  match t with
  | r :: _ => length r
  | [] => 0%nat
  end.

Definition loss_calculation (x : inputs) : M (list tensor * Q * Q) :=
  let x := fst x in
  let x_aug := tta_transform x in
  st <- get ;;
  (* get the outputs from the models *)
  let outputs_s := forward (datas (model_s (nets st))) x in
  let outputs_t1 := forward (datas (model_t1 (nets st))) x in
  let outputs_t2 := forward (datas (model_t2 (nets st))) x in
  let outputs_stu_aug := forward (datas (model_s (nets st))) x_aug in
  (* final output *)
  let outputs := softmax (tensor_add outputs_t1 outputs_t2) in
  (* student model loss *)
  modify (set_lambda_ce_trg 1) ;;
  let loss_self_training :=
    map (Qmult (1 # 2)) (symmetric_cross_entropy outputs_s outputs_t1) in
  let loss_self_training :=
    vec_add loss_self_training
            (map (Qmult (1 # 2)) (symmetric_cross_entropy outputs_stu_aug outputs_t1)) in
  let loss_self_training :=
    vec_add loss_self_training
            (map (Qmult (1 # 2)) (symmetric_cross_entropy outputs_s outputs_t2)) in
  st1 <- get ;;
  let loss_stu := lambda_ce_trg st1 * Qmean loss_self_training in
  (* entropies and filtering *)
  let entropy_s := ent outputs_s in
  let entropy_t1 := ent outputs_t1 in
  let entropy_ema_t2 := ent outputs_t2 in
  let '(filter_ids_1, filter_ids_2, filter_ids_3, filter_ids_4) :=
    confidence_condition entropy_t1 entropy_ema_t2 (2 # 5) in
  let selected_filter_ids := filter_ids_2 in
  (* select prototypes from T1 model *)
  let features_t1 := backbone (datas (model_t1 (nets st))) x in
  let selected_features_t1 := gather features_t1 selected_filter_ids in
  let selected_entropy_t1 := gather entropy_t1 selected_filter_ids in
  let labels_t1 := map argmax outputs_t1 in
  let selected_labels_t1 := gather labels_t1 selected_filter_ids in
  prototypes <-
    prototype_updates (num_classes (cfg st)) (shape1 features_t1)
      selected_features_t1 selected_entropy_t1 selected_labels_t1 ;;
  (* loss of the T2 model *)
  let features_t2 := backbone (datas (model_t2 (nets st))) x in
  let features_aug_t2 := backbone (datas (model_t2 (nets st))) x_aug in
  let cntrs_t2_proto := contrastive_loss_proto features_t2 prototypes labels_t1 (1 # 2) in
  let mse_t2 := mse_loss features_t2 (gather prototypes labels_t1) in
  let kld_t2 := KL_Div_loss features_t2 prototypes labels_t1 in
  cntrs_t2 <- contrastive_loss features_t2 prototypes features_aug_t2 None None ;;
  let loss_t2 := cntrs_t2_proto + 10 * mse_t2 + 100 * kld_t2 + cntrs_t2 in
  ret (outputs, loss_stu, loss_t2).

(** The branch of [forward_and_adapt] under
    [self.mixed_precision and self.device == "cuda"]. *)
Definition mixed_precision_branch (x : inputs) : M (list tensor) :=
  ' (outputs, loss, _) <- loss_calculation x ;;
  graph <- get ;;
  scaled_backward LossStu graph (fst x) ;;
  scaler_step Optimizer ;;
  scaler_update ;;
  zero_grad Optimizer ;;
  ret outputs.

(** The [else] branch of [forward_and_adapt]. *)
Definition full_precision_branch (x : inputs) : M (list tensor) :=
  ' (outputs, loss, loss_t2) <- loss_calculation x ;;
  graph <- get ;;
  backward LossStu graph (fst x) ;;
  step OptimizerBn ;;
  zero_grad OptimizerBn ;;
  backward LossT2 graph (fst x) ;;
  step OptimizerBackboneT2 ;;
  zero_grad OptimizerBackboneT2 ;;
  ret outputs.

(** [self.model_t1 = ema_update_model(model_to_update=self.model_t1,
      model_to_merge=self.model_s, momentum=self.m_teacher_momentum, ...)]. *)
Definition ema_step (st : engine) : engine :=
  log EvEmaUpdate
      (set_nets (set_model ModelT1
                   (ema_update_model (model_t1 (nets st)) (model_s (nets st))
                                     (m_teacher_momentum (cfg st)))
                   (nets st)) st).

(** [forward_and_adapt(x)].  Both [backward] calls differentiate the graph
    that [loss_calculation] built, so they are given the engine as it was
    when [loss_calculation] returned. *)
Definition forward_and_adapt (x : inputs) : M (list tensor) :=
  st0 <- get ;;
  outputs <-
    (if mixed_precision (cfg st0) && String.eqb (device (cfg st0)) "cuda"
     then mixed_precision_branch x
     else full_precision_branch x) ;;
  modify ema_step ;;
  modify (fun st => set_c (c st + 1)%nat st) ;;
  ret outputs.

(** [forward_sliding_window(x)] of ours.py. *)
Definition forward_sliding_window (x : inputs) : M (list tensor) :=
  st <- get ;;
  let imgs_test := fst x in
  let outputs_test := forward (datas (model (nets st))) imgs_test in
  let outputs_ema := forward (datas (model_t1 (nets st))) imgs_test in
  ret (tensor_add outputs_test outputs_ema).

(** *** The RMT engine (rmt.py) *)

(** The attributes of [RMT] that the two embedded methods read.  In RMT the
    student is [self.model] itself. *)
Record RMT := mkRMT {
  rmt_model : network;
  rmt_model_ema : network;
  rmt_projector : network;
  rmt_contrast_mode : string;
  rmt_temperature : Q
}.

(** [RMT.contrastive_loss(features, labels, mask)]; [features] are the
    [B x 3 x D] triplets.  As for [contrastive_loss] of ours.py, the
    projector and the kernel are taken on shapes that fit
    ([triplets_fit]). *)
Definition RMT_contrastive_loss (self : RMT) (features : list (list tensor))
    (labels : option (list nat)) (mask : option (list tensor)) : exn + Q :=
  let batch_size := length features in
  match
    match labels, mask with
    | Some _, Some _ => inl (ValueError "Cannot define both `labels` and `mask`")
    | None, None => inr (eye batch_size)
    | Some l, None =>
        if negb (length l =? batch_size)%nat
        then inl (ValueError "Num of labels does not match num of features")
        else inr (eq_mask l)
    | None, Some m => inr m
    end
  with
  | inl e => inl e
  | inr mask =>
      if String.eqb (rmt_contrast_mode self) "one"
         || String.eqb (rmt_contrast_mode self) "all"
      then inr (supcon (rmt_contrast_mode self) (rmt_temperature self)
                       (datas (rmt_projector self)) features mask)
      else inl (ValueError ("Unknown mode: " ++ rmt_contrast_mode self))
  end.

(** [RMT.forward_sliding_window(x)]: the prediction and the engine after
    the call. *)
Definition RMT_forward_sliding_window (self : RMT) (x : inputs) : list tensor * RMT :=
  let imgs_test := fst x in
  let outputs_test := forward (datas (rmt_model self)) imgs_test in
  let outputs_ema := forward (datas (rmt_model_ema self)) imgs_test in
  (tensor_add outputs_test outputs_ema, self).

(** *** Construction (ours.py, [__init__] and [configure_model]) *)

Inductive module_kind := BatchNorm2d | BatchNorm1d | OtherModule.

(** What the constructor reads from the architecture: [modules()] in
    traversal order, every module with the positions of the parameters it
    contains, and the parameters of the two halves of [split_up_model]. *)
Record arch := mkArch {
  modules : list (module_kind * list nat);
  backbone_params : list nat;
  classifier_params : list nat
}.

Definition set_requires_grad (b : bool) (p : param) : param :=
  mkParam (data p) b (grad p).

(** [m.requires_grad_(b)] on the parameters at positions [ids]. *)
Definition requires_grad_ (b : bool) (ids : list nat) (n : network) : network :=
  fold_left (fun n i => update_nth (set_requires_grad b) i n) ids n.

(** [configure_model(model, bn)]; [bn] is [None], [True] or [False]. *)
Definition configure_model (a : arch) (n : network) (bn : option bool) : network :=
  let n := map (set_requires_grad false) n in
  let bn_or_none := match bn with None => true | Some b => b end in
  fold_left
    (fun n m =>
       match fst m with
       | BatchNorm2d => if bn_or_none then requires_grad_ true (snd m) n else n
       | BatchNorm1d => if bn_or_none then requires_grad_ true (snd m) n else n
       | OtherModule =>
           requires_grad_ (match bn with Some true => false | _ => true end) (snd m) n
       end)
    (modules a) n.

(** Modelled from the spec: the base class's [copy_model] is not among the
    source files.  Section 6: "clone() -> independent copy"; the copy has
    the values and flags of the original and no gradient buffer. *)
Definition copy_model (n : network) : network :=
  map (fun p => mkParam (data p) (requires_grad p) None) n.

(** [param.detach_()]. *)
Definition detach_ (p : param) : param := set_requires_grad false p.

(** Modelled from the spec: the base class's [setup_optimizer] is not among
    the source files; a new optimizer has one parameter group and a fresh
    state. *)
Definition setup_optimizer (refs : list ref) (lr : Q) : optim opt_state :=
  mkOptim [(refs, lr)] fresh_state.

(** [Ours.__init__], as far as it builds what the embedded methods use.
    [model0] is [self.model] as the base class leaves it, [base_params] the
    positions of the parameters of [self.model] that the base class gave to
    [self.optimizer], and [projector0] the freshly built projector
    layers. *)
Definition Ours_init (cf : config) (LAMBDA_CE_TRG LR : Q) (a : arch)
    (dataset_name : string) (model0 : network) (base_params : list nat)
    (scaler0 : Q) (projector0 : network) : exn + engine :=
  (* teacher T1 *)
  let model_t1 := map detach_ (copy_model model0) in
  (* teacher T2 *)
  let model_t2 := map detach_ (copy_model model0) in
  let model_t2 := configure_model a model_t2 (Some true) in
  let params_t2 := collect_params model_t2 in
  let optimizer_t2 :=
    if (0 <? length params_t2)%nat
    then Some (setup_optimizer (map (pair ModelT2) params_t2) (1 # 100))
    else None in
  let optimizer_backbone_t2 :=
    setup_optimizer (map (pair ModelT2) (backbone_params a)) (1 # 100) in
  let optimizer_classifier_t2 :=
    setup_optimizer (map (pair ModelT2) (classifier_params a)) (1 # 100) in
  (* student *)
  let model_s := map detach_ (copy_model model0) in
  let model_s := configure_model a model_s None in
  let params := collect_params model_s in
  let optimizer_bn :=
    if (0 <? length params)%nat
    then Some (setup_optimizer (map (pair ModelS) params) LR)
    else None in
  (* priority queues *)
  let priority_queues := init_pqs (num_classes cf) 10 in
  (* projector *)
  if String.eqb dataset_name "cifar10_c" || String.eqb dataset_name "cifar100_c" then
    match optimizer_t2 with
    | None => inl (AttributeError "optimizer_t2")
    | Some o =>
        let lr0 := match param_groups o with g :: _ => snd g | [] => 0 end in
        let o :=
          mkOptim (param_groups o
                   ++ [(map (pair Projector) (seq 0 (length projector0)), lr0)])
                  (ostate o) in
        inr (mkOurs cf 0 LAMBDA_CE_TRG
               (mkStore model0 model_s model_t1 model_t2 projector0)
               (mkOpts (setup_optimizer (map (pair Model) base_params) LR)
                       (Some o) optimizer_backbone_t2 optimizer_classifier_t2
                       optimizer_bn)
               scaler0 priority_queues [])
    end
  else inl (UnboundLocalError "num_channels").

(** *** Runs of the engine *)

Inductive call := Adapt (x : inputs) | SlidingWindow (x : inputs).

Definition do_call (k : call) : M (list tensor) :=
  match k with
  | Adapt x => forward_and_adapt x
  | SlidingWindow x => forward_sliding_window x
  end.

(** The engine after a sequence of calls; a call that raises leaves the
    engine as it was at the raise, and the caller goes on. *)
Definition run (calls : list call) (st : engine) : engine :=
  fold_left (fun st k => snd (do_call k st)) calls st.

(** The student snapshots merged into T1 along a run, oldest first: one per
    call of [forward_and_adapt] that returned. *)
Fixpoint merged_students (calls : list call) (st : engine) : list network :=
  match calls with
  | [] => []
  | k :: ks =>
      let r := do_call k st in
      match k, fst r with
      | Adapt _, inr _ => [model_s (nets (snd r))]
      | _, _ => []
      end ++ merged_students ks (snd r)
  end.

(** The events a method appended to the trace. *)
Definition events_of {A : Type} (m : M A) (st : engine) : list event :=
  skipn (length (trace st)) (trace (snd (m st))).

(** *** Properties the statements use *)

(** The contrast mode is one of the two the loss knows. *)
Definition valid_mode (cf : config) : bool :=
  String.eqb (contrast_mode cf) "one" || String.eqb (contrast_mode cf) "all".

(** The branch of [forward_and_adapt] taken under
    [self.mixed_precision and self.device == "cuda"]. *)
Definition mixed_path (cf : config) : bool :=
  mixed_precision cf && String.eqb (device cf) "cuda".

(** No parameter of the network asks for a gradient or holds one. *)
Definition detached (n : network) : Prop :=
  Forall (fun p => requires_grad p = false /\ grad p = None) n.

(** No optimizer of the engine references a parameter of network [i]. *)
Definition no_optimizer_on (i : model_id) (os : optimizers opt_state) : Prop :=
  forall o v, get_opt o os = Some v -> Forall (fun r => fst r <> i) (refs_of v).

(** Every queue is within the capacity. *)
Definition within_capacity (s : pqs) : Prop :=
  Forall (fun q => (length q <= max_size s)%nat) (queues s).

(** The ensemble of the two teachers on the clean batch. *)
Definition teacher_ensemble (st : engine) (x : inputs) : list tensor :=
  softmax (tensor_add (forward (datas (model_t1 (nets st))) (fst x))
                      (forward (datas (model_t2 (nets st))) (fst x))).

(** The unweighted self-training loss of the student. *)
Definition self_training_mean (st : engine) (x : inputs) : Q :=
  let outputs_s := forward (datas (model_s (nets st))) (fst x) in
  let outputs_t1 := forward (datas (model_t1 (nets st))) (fst x) in
  let outputs_t2 := forward (datas (model_t2 (nets st))) (fst x) in
  let outputs_stu_aug := forward (datas (model_s (nets st))) (tta_transform (fst x)) in
  Qmean (vec_add
           (vec_add (map (Qmult (1 # 2)) (symmetric_cross_entropy outputs_s outputs_t1))
                    (map (Qmult (1 # 2)) (symmetric_cross_entropy outputs_stu_aug outputs_t1)))
           (map (Qmult (1 # 2)) (symmetric_cross_entropy outputs_s outputs_t2))).

(** The protocol of one adaptation step as the specification words it:
    backward of the student loss, step of the student's optimizer, a
    [zero_grad], backward of T2's loss, in this order, and after it a step
    of both the backbone and the classifier optimizer of T2. *)
Fixpoint subseq (a l : list event) (eqb : event -> event -> bool) : bool :=
  match a, l with
  | [], _ => true
  | _ :: _, [] => false
  | x :: a', y :: l' => if eqb x y then subseq a' l' eqb else subseq a l' eqb
  end.

Definition opt_id_eqb (a b : opt_id) : bool :=
  match a, b with
  | Optimizer, Optimizer | OptimizerT2, OptimizerT2
  | OptimizerBackboneT2, OptimizerBackboneT2
  | OptimizerClassifierT2, OptimizerClassifierT2
  | OptimizerBn, OptimizerBn => true
  | _, _ => false
  end.

Definition loss_id_eqb (a b : loss_id) : bool :=
  match a, b with
  | LossStu, LossStu | LossT2, LossT2 => true
  | _, _ => false
  end.

Definition event_eqb (a b : event) : bool :=
  match a, b with
  | EvBackward l, EvBackward l' => loss_id_eqb l l'
  | EvScaledBackward l, EvScaledBackward l' => loss_id_eqb l l'
  | EvStep o, EvStep o' => opt_id_eqb o o'
  | EvScalerStep o, EvScalerStep o' => opt_id_eqb o o'
  | EvScalerUpdate, EvScalerUpdate => true
  | EvZeroGrad o, EvZeroGrad o' => opt_id_eqb o o'
  | EvEmaUpdate, EvEmaUpdate => true
  | EvPlotTsne, EvPlotTsne => true
  | _, _ => false
  end.

Definition stated_protocol (evs : list event) : bool :=
  subseq [EvBackward LossStu; EvStep OptimizerBn; EvZeroGrad OptimizerBn;
          EvBackward LossT2; EvStep OptimizerBackboneT2] evs event_eqb
  && subseq [EvBackward LossT2; EvStep OptimizerClassifierT2] evs event_eqb.

(** The protocol of the full-precision branch as the code runs it. *)
Definition full_precision_protocol : list event :=
  [EvBackward LossStu; EvStep OptimizerBn; EvZeroGrad OptimizerBn;
   EvBackward LossT2; EvStep OptimizerBackboneT2; EvZeroGrad OptimizerBackboneT2;
   EvEmaUpdate].

(** [plot_tsne] is called when [self.c % 20 == 0 and self.c > 0]. *)
Definition plot_events (n : nat) : list event :=
  if (n mod 20 =? 0)%nat && (0 <? n)%nat then [EvPlotTsne] else [].

(** A method keeps an invariant, whether it returns or raises. *)
Definition preserves {A : Type} (I : engine -> Prop) (m : M A) : Prop :=
  forall st, I st -> I (snd (m st)).

(** T1 is the network [t], it is detached, and no optimizer holds one of
    its parameters. *)
Definition t1_is (t : network) (st : engine) : Prop :=
  model_t1 (nets st) = t /\ detached t /\ no_optimizer_on ModelT1 (opts st).

End Engine.

(** ** Calls on the prototype store *)

Inductive store_op :=
| OpUpdate (features : list tensor) (entropies : list Q) (labels : list nat)
| OpEvictRound (num_classes : nat).

Definition apply_op (s : pqs) (o : store_op) : pqs :=
  match o with
  | OpUpdate f h l => update_pqs s f h l
  | OpEvictRound n => snd (pop_min_from_pqs s n)
  end.

Definition run_ops (ops : list store_op) (s : pqs) : pqs := fold_left apply_op ops s.

(** [w] is a worst entry of [q] and [rest] is [q] without it. *)
Definition evicts_worst (q : queue) (w : entry) (rest : queue) : Prop :=
  Permutation q (w :: rest) /\ Forall (fun e => entropy e <= entropy w) q.

(** ** A concrete engine *)

(** Collaborators small enough to evaluate: a batch is its own logits, a
    network adds the sum of the first entries of its parameters to every
    entry, the entropy of a row falls with its first logit, the optimizer is
    plain gradient descent and the gradients are constantly 1. *)
Definition first_weight (ps : list tensor) : Q :=
  Qsum (map (fun t => nth 0 t 0) ps).

Definition sample_collaborators : Collaborators := {|
  batch := list tensor;
  opt_state := unit;
  forward := fun ps x => map (map (Qplus (first_weight ps))) x;
  backbone := fun ps x => x;
  softmax := fun t => t;
  log_t := fun t => t;
  normalize := fun t => t;
  tta_transform := fun x => x;
  symmetric_cross_entropy := fun a b => map Qsum (tensor_add a b);
  ent := fun t => map (fun row => (12 # 10) - nth 0 row 0) t;
  mse_loss := fun a b => 0;
  kl_div := fun a b => 0;
  nearest_prototype := fun p f => map (fun _ => 0%nat) f;
  supcon := fun mode temp proj trip mask => 0;
  opt_rule := fun _ lr _ d g => zip_with (fun a b => a - lr * b) d g;
  opt_tick := fun s _ => s;
  fresh_state := tt;
  scaler_next := fun s => s;
  dloss := fun l _ _ r =>
             match l, fst r with
             | LossStu, ModelS => Some [1]
             | LossT2, ModelT2 => Some [1]
             | _, _ => None
             end;
  collect_params := fun n => seq 0 (length n)
|}.

Definition sample_config : config :=
  mkConfig "all" (1 # 10) (1 # 2) 2 false "cuda".

Definition sample_arch : arch :=
  mkArch [(OtherModule, [0; 1]%nat); (BatchNorm2d, [1]%nat)] [0; 1]%nat [].

Definition sample_model : network :=
  [mkParam [1] true None; mkParam [0] true None].

Definition sample_projector : network := [mkParam [1] true None].

(** The engine right after construction. *)
Definition sample_engine : exn + Ours (@opt_state sample_collaborators) :=
  Ours_init (E := sample_collaborators) sample_config (1 # 4) (1 # 2) sample_arch
            "cifar10_c" sample_model [0; 1]%nat 1 sample_projector.

Definition sample_x : @inputs sample_collaborators :=
  ([[1 # 10; 0]; [9 # 10; 0]; [1 # 10; 1]], []).

Definition or_default {A B : Type} (d : B) (r : A + B) : B :=
  match r with
  | inr b => b
  | inl _ => d
  end.

Definition empty_engine : Ours (@opt_state sample_collaborators) :=
  mkOurs sample_config 0 0 (mkStore [] [] [] [] [])
         (mkOpts (mkOptim [] tt) None (mkOptim [] tt) (mkOptim [] tt) None)
         1 (init_pqs 0 0) [].

Definition sample_state : Ours (@opt_state sample_collaborators) :=
  or_default empty_engine sample_engine.

(** ** What a step can write *)

(** The values of the parameter a reference names. *)
Definition data_at (r : ref) (s : store) : option tensor :=
  nth_error (datas (get_model (fst r) s)) (snd r).

(** The optimizers [forward_and_adapt] steps: [self.optimizer] on the
    mixed-precision branch, [optimizer_bn] and [optimizer_backbone_t2] on the
    other. *)
Definition stepping (cf : config) : list opt_id :=
  if mixed_path cf then [Optimizer] else [OptimizerBn; OptimizerBackboneT2].

(** None of the optimizers [ids] references the parameter [r]. *)
Definition unreferenced_by {S : Type} (ids : list opt_id) (r : ref)
    (os : optimizers S) : Prop :=
  forall o v, In o ids -> get_opt o os = Some v -> ~ In r (refs_of v).

(** The number of calls of [forward_and_adapt] in a run that returned. *)
Definition returned_steps {E : Collaborators} (calls : list call)
    (st : Ours opt_state) : nat :=
  length (merged_students calls st).

(** ** Configuration of a network (rmt.py, [configure_model]) *)

(** [RMT.configure_model(model)]: every module makes its parameters
    trainable. *)
Definition RMT_configure_model (a : arch) (n : network) : network :=
  let n := map (set_requires_grad false) n in
  fold_left
    (fun n m =>
       match fst m with
       | BatchNorm2d => requires_grad_ true (snd m) n
       | _ => requires_grad_ true (snd m) n
       end)
    (modules a) n.

(** Position [i] is a parameter of a module of one of the given kinds. *)
Definition listed_in (kinds : list module_kind) (a : arch) (i : nat) : Prop :=
  exists m, In m (modules a) /\ In (fst m) kinds /\ In i (snd m).

Definition flag_at (n : network) (i : nat) : option bool :=
  option_map requires_grad (nth_error n i).

(** ** The margin loss on a similarity matrix *)

(** The loop body and the loop of [contrastive_loss_proto], on the matrix
    of cosine similarities. *)
Definition margin_row_loss (margin : Q) (row : tensor) (l : nat) : Q :=
  Qmean (map (fun n => relu (margin - nth l row 0 + n)) (drop_nth l row)).

Definition proto_margin_loss (cosine_sim : list tensor) (labels : list nat)
    (margin : Q) : Q :=
  fold_left Qplus (zip_with (margin_row_loss margin) cosine_sim labels) 0
  / inject_Z (Z.of_nat (length cosine_sim)).

(** Sample [i] keeps the margin: its similarity to the prototype of its
    label exceeds that to every other prototype by at least [margin]. *)
Definition keeps_margin (margin : Q) (row : tensor) (l : nat) : Prop :=
  forall j v, j <> l -> nth_error row j = Some v -> v + margin <= nth l row 0.

(** What a module of [Ours.configure_model] does to the flag of its
    parameters: [Some b] sets it to [b], [None] leaves it. *)
Definition module_action (bn : option bool) (k : module_kind) : option bool :=
  match k, bn with
  | OtherModule, Some true => Some false
  | OtherModule, _ => Some true
  | _, Some false => None
  | _, _ => Some true
  end.

Definition traverse (act : module_kind -> option bool)
    (ms : list (module_kind * list nat)) (n : network) : network :=
  fold_left (fun n m => match act (fst m) with
                        | Some b => requires_grad_ b (snd m) n
                        | None => n
                        end) ms n.

(** ** The entropy losses of rmt.py *)

Section Entropies.

Context {E : Collaborators}.

(** [x.log_softmax(1)]. *)
Variable log_softmax : list tensor -> list tensor.

(** [(a * b).sum(1)]: the sum of the products along every row. *)
Definition rowsum_prod (a b : list tensor) : list Q :=
  map Qsum (zip_with (zip_with Qmult) a b).

(** [softmax_entropy(x, x_ema)]:
    [-0.5*(x_ema.softmax(1) * x.log_softmax(1)).sum(1)
     -0.5*(x.softmax(1) * x_ema.log_softmax(1)).sum(1)]. *)
Definition softmax_entropy (x x_ema : list tensor) : list Q :=
  zip_with Qminus
    (map (Qmult (- (1 # 2))) (rowsum_prod (softmax x_ema) (log_softmax x)))
    (map (Qmult (1 # 2)) (rowsum_prod (softmax x) (log_softmax x_ema))).

(** [symmetric_entropy(x, x_aug, x_ema)]. *)
Definition symmetric_entropy (x x_aug x_ema : list tensor) : list Q :=
  zip_with Qminus
    (zip_with Qminus
       (zip_with Qminus
          (map (Qmult (- (1 # 4))) (rowsum_prod (softmax x_ema) (log_softmax x)))
          (map (Qmult (1 # 4)) (rowsum_prod (softmax x) (log_softmax x_ema))))
       (map (Qmult (1 # 4)) (rowsum_prod (softmax x_ema) (log_softmax x_aug))))
    (map (Qmult (1 # 4)) (rowsum_prod (softmax x_aug) (log_softmax x_ema))).

End Entropies.

(** ** The RMT engine at run time (rmt.py, [warmup] and [forward_and_adapt]) *)

(** The networks of [RMT]: the student [self.model], the teacher
    [self.model_ema] and [self.projector]. *)
Inductive rmt_net := RmtModel | RmtModelEma | RmtProjector.

Definition rmt_ref := (rmt_net * nat)%type.

(** What a method of [RMT] raises: [StopIteration] from [next], or an
    exception of [contrastive_loss]. *)
Inductive rmt_exn := StopIteration | Raised (e : exn).

Definition rmt_get (k : rmt_net) (s : RMT) : network :=
  match k with
  | RmtModel => rmt_model s
  | RmtModelEma => rmt_model_ema s
  | RmtProjector => rmt_projector s
  end.

Definition rmt_set (k : rmt_net) (n : network) (s : RMT) : RMT :=
  match k with
  | RmtModel =>
      mkRMT n (rmt_model_ema s) (rmt_projector s) (rmt_contrast_mode s) (rmt_temperature s)
  | RmtModelEma =>
      mkRMT (rmt_model s) n (rmt_projector s) (rmt_contrast_mode s) (rmt_temperature s)
  | RmtProjector =>
      mkRMT (rmt_model s) (rmt_model_ema s) n (rmt_contrast_mode s) (rmt_temperature s)
  end.

Definition rmt_update_ref (f : param -> param) (r : rmt_ref) (s : RMT) : RMT :=
  rmt_set (fst r) (update_nth f (snd r) (rmt_get (fst r) s)) s.

Definition rmt_map (f : rmt_ref -> param -> param) (s : RMT) : RMT :=
  let on k := map (fun ip : nat * param => f (k, fst ip) (snd ip))
                  (combine (seq 0 (length (rmt_get k s))) (rmt_get k s)) in
  mkRMT (on RmtModel) (on RmtModelEma) (on RmtProjector)
        (rmt_contrast_mode s) (rmt_temperature s).

Section RMTState.

Context {E : Collaborators}.

(** A batch of the source loader: the images and their labels. *)
Definition src_batch : Type := (batch * list nat)%type.

(** The losses [backward] is called on, with the batch they were computed
    from. *)
Inductive rmt_loss :=
| LossWarmup (imgs_src : batch)
| LossTrg (imgs_test : batch)
| LossCeSrc (imgs_src : batch) (labels_src : list nat).

(** The calls of the two methods, in program order; a step is recorded with
    the learning rates of the parameter groups at that time. *)
Inductive rmt_event :=
| RmtSetLr (lr : Q)
| RmtIter
| RmtNext
| RmtBackward (l : rmt_loss)
| RmtStep (lrs : list Q)
| RmtZeroGrad
| RmtEma.

Record rmt_optim := mkRmtOptim {
  rmt_param_groups : list (list rmt_ref * Q);
  rmt_ostate : opt_state
}.

(** The attributes the two methods read and never write.  [src_loader n]
    is the batches of pass [n] over the source loader, in the order of that
    pass (a loader that shuffles gives every pass its own order). *)
Record rmt_config := mkRmtConfig {
  rmt_warmup_steps : nat;
  rmt_final_lr : Q;
  rmt_m_teacher_momentum : Q;
  rmt_lambda_ce_src : Q;
  rmt_lambda_ce_trg : Q;
  rmt_lambda_cont : Q;
  rmt_prototypes_src : list tensor;
  rmt_src_loader : nat -> list src_batch
}.

(** The object: [rmt_src_passes] counts the iterators made of the loader,
    [rmt_src_loader_iter] is what [self.src_loader_iter] has left. *)
Record RMTEngine := mkRMTEngine {
  rmt_cfg : rmt_config;
  rmt_self : RMT;
  rmt_optimizer : rmt_optim;
  rmt_src_passes : nat;
  rmt_src_loader_iter : list src_batch;
  rmt_trace : list rmt_event
}.

Definition set_rmt_self (s : RMT) (st : RMTEngine) : RMTEngine :=
  mkRMTEngine (rmt_cfg st) s (rmt_optimizer st) (rmt_src_passes st)
              (rmt_src_loader_iter st) (rmt_trace st).
Definition set_rmt_optimizer (o : rmt_optim) (st : RMTEngine) : RMTEngine :=
  mkRMTEngine (rmt_cfg st) (rmt_self st) o (rmt_src_passes st)
              (rmt_src_loader_iter st) (rmt_trace st).
Definition set_rmt_src_loader_iter (passes : nat) (it : list src_batch)
    (st : RMTEngine) : RMTEngine :=
  mkRMTEngine (rmt_cfg st) (rmt_self st) (rmt_optimizer st) passes it (rmt_trace st).
Definition rmt_log (e : rmt_event) (st : RMTEngine) : RMTEngine :=
  mkRMTEngine (rmt_cfg st) (rmt_self st) (rmt_optimizer st) (rmt_src_passes st)
              (rmt_src_loader_iter st) (rmt_trace st ++ [e]).

Definition rmt_refs_of (o : rmt_optim) : list rmt_ref :=
  flat_map fst (rmt_param_groups o).

(** The learning rates of the optimizer steps of a trace, and the number of
    its EMA updates. *)
Definition rmt_step_lrs (tr : list rmt_event) : list (list Q) :=
  flat_map (fun e => match e with RmtStep lrs => [lrs] | _ => [] end) tr.

Definition rmt_ema_updates (tr : list rmt_event) : nat :=
  length (filter (fun e => match e with RmtEma => true | _ => false end) tr).

End RMTState.

(** What [RMT] consumes beyond the collaborators of [Ours]: the kernels of
    its losses, automatic differentiation for its three losses (the graph is
    the object at the time of the forward passes) and the update rule of its
    optimizer. *)
Class RMTKernels {E : Collaborators} := {
  log_softmax : list tensor -> list tensor;
  cross_entropy : list tensor -> list nat -> Q;
  rmt_dloss : rmt_loss -> RMTEngine -> rmt_ref -> option tensor;
  rmt_rule : opt_state -> Q -> rmt_ref -> tensor -> tensor -> tensor;
  rmt_tick : opt_state -> RMT -> opt_state
}.

Section RMTMethods.

Context {E : Collaborators} {K : RMTKernels}.

(** A method of [RMT]: it reads and writes the object and returns or
    raises; what it wrote before raising stays written. *)
Definition R (A : Type) : Type := RMTEngine -> (rmt_exn + A) * RMTEngine.

Definition rret {A : Type} (a : A) : R A := fun st => (inr a, st).
Definition rbind {A B : Type} (m : R A) (k : A -> R B) : R B :=
  fun st => match m st with
            | (inl e, st') => (inl e, st')
            | (inr a, st') => k a st'
            end.
Definition rraise {A : Type} (e : rmt_exn) : R A := fun st => (inl e, st).
Definition rget : R RMTEngine := fun st => (inr st, st).
Definition rmodify (f : RMTEngine -> RMTEngine) : R unit := fun st => (inr tt, f st).

Local Notation "x <- m ;; k" := (rbind m (fun x => k))
  (at level 61, m at next level, right associativity).
Local Notation "' pat <- m ;; k" := (rbind m (fun x => match x with pat => k end))
  (at level 61, pat pattern, m at next level, right associativity).
Local Notation "m ;; k" := (rbind m (fun _ => k))
  (at level 61, right associativity).

(** [loss.backward()]. *)
Definition rmt_accumulate (g : rmt_ref -> option tensor) (r : rmt_ref) (p : param) : param :=
  if requires_grad p then
    match g r with
    | Some d =>
        mkParam (data p) (requires_grad p)
                (Some (match grad p with None => d | Some old => vec_add old d end))
    | None => p
    end
  else p.

Definition rmt_backward (l : rmt_loss) (graph : RMTEngine) : R unit :=
  rmodify (fun st =>
    rmt_log (RmtBackward l)
            (set_rmt_self (rmt_map (rmt_accumulate (rmt_dloss l graph)) (rmt_self st)) st)).

(** [self.optimizer.step()]. *)
Definition rmt_step_param (os : opt_state) (lr : Q) (r : rmt_ref) (p : param) : param :=
  match grad p with
  | Some g => set_data p (rmt_rule os lr r (data p) g)
  | None => p
  end.

Definition rmt_apply_step (o : rmt_optim) (s : RMT) : RMT :=
  fold_left
    (fun s g => fold_left (fun s r => rmt_update_ref (rmt_step_param (rmt_ostate o) (snd g) r) r s)
                          (fst g) s)
    (rmt_param_groups o) s.

Definition rmt_step : R unit :=
  rmodify (fun st =>
    let o := rmt_optimizer st in
    rmt_log (RmtStep (map snd (rmt_param_groups o)))
            (set_rmt_optimizer
               (mkRmtOptim (rmt_param_groups o) (rmt_tick (rmt_ostate o) (rmt_self st)))
               (set_rmt_self (rmt_apply_step o (rmt_self st)) st))).

(** [self.optimizer.zero_grad()]. *)
Definition rmt_zero_grad : R unit :=
  rmodify (fun st =>
    rmt_log RmtZeroGrad
            (set_rmt_self
               (fold_left (fun s r => rmt_update_ref clear_grad r s)
                          (rmt_refs_of (rmt_optimizer st)) (rmt_self st)) st)).

(** [for par in self.optimizer.param_groups: par["lr"] = lr]. *)
Definition rmt_set_lr (lr : Q) : R unit :=
  rmodify (fun st =>
    let o := rmt_optimizer st in
    rmt_log (RmtSetLr lr)
            (set_rmt_optimizer
               (mkRmtOptim (map (fun par => (fst par, lr)) (rmt_param_groups o))
                           (rmt_ostate o)) st)).

(** [self.model_ema = update_ema_variables(ema_model=self.model_ema,
      model=self.model, alpha_teacher=self.m_teacher_momentum)]. *)
Definition rmt_ema (st : RMTEngine) : RMTEngine :=
  rmt_log RmtEma
    (set_rmt_self
       (rmt_set RmtModelEma
          (update_ema_variables (rmt_model_ema (rmt_self st)) (rmt_model (rmt_self st))
                                (rmt_m_teacher_momentum (rmt_cfg st)))
          (rmt_self st)) st).

(** [next(self.src_loader_iter)]. *)
Definition rmt_next : R src_batch :=
  st <- rget ;;
  match rmt_src_loader_iter st with
  | b :: rest =>
      rmodify (fun st => rmt_log RmtNext
                           (set_rmt_src_loader_iter (rmt_src_passes st) rest st)) ;;
      rret b
  | [] => rraise StopIteration
  end.

(** [try: next(self.src_loader_iter)
     except StopIteration:
         self.src_loader_iter = iter(self.src_loader); next(self.src_loader_iter)]. *)
Definition rmt_sample_source_batch : R src_batch :=
  st <- rget ;;
  match rmt_src_loader_iter st with
  | _ :: _ => rmt_next
  | [] =>
      rmodify (fun st =>
        rmt_log RmtIter
                (set_rmt_src_loader_iter (S (rmt_src_passes st))
                   (rmt_src_loader (rmt_cfg st) (rmt_src_passes st)) st)) ;;
      rmt_next
  end.

(** The learning rate of step [i] of the warm-up:
    [self.final_lr * (i+1) / self.warmup_steps].  Python evaluates the
    expression in floats and rounds the product and the quotient; the
    rational here is the value of the expression without the rounding, so
    an identity of exact arithmetic (the last ramp value being [final_lr])
    is not one of the code. *)
Definition rmt_warmup_lr (cf : rmt_config) (i : nat) : Q :=
  rmt_final_lr cf * inject_Z (Z.of_nat (i + 1))
  / inject_Z (Z.of_nat (rmt_warmup_steps cf)).

(** The body of the loop of [warmup], for the values [i] of the range. *)
Fixpoint rmt_warmup_loop (range : list nat) : R unit :=
  match range with
  | [] => rret tt
  | i :: range' =>
      st <- rget ;;
      rmt_set_lr (rmt_warmup_lr (rmt_cfg st) i) ;;
      ' (imgs_src, labels_src) <- rmt_sample_source_batch ;;
      graph <- rget ;;
      let outputs := forward (datas (rmt_model (rmt_self graph))) imgs_src in
      let outputs_ema := forward (datas (rmt_model_ema (rmt_self graph))) imgs_src in
      let loss := Qmean (softmax_entropy log_softmax outputs outputs_ema) in
      rmt_backward (LossWarmup imgs_src) graph ;;
      rmt_step ;;
      rmt_zero_grad ;;
      rmodify rmt_ema ;;
      rmt_warmup_loop range'
  end.

(** [RMT.warmup()]. *)
Definition rmt_warmup : R unit :=
  st <- rget ;;
  rmt_warmup_loop (seq 0 (rmt_warmup_steps (rmt_cfg st))) ;;
  st <- rget ;;
  rmt_set_lr (rmt_final_lr (rmt_cfg st)).

Definition rmt_lift {A : Type} (r : exn + A) : R A :=
  match r with
  | inl e => rraise (Raised e)
  | inr a => rret a
  end.

(** [RMT.forward_and_adapt(x)]. *)
Definition rmt_forward_and_adapt (x : inputs) : R (list tensor) :=
  let imgs_test := fst x in
  rmt_zero_grad ;;
  graph <- rget ;;
  let cf := rmt_cfg graph in
  (* forward original test data *)
  let features_test := backbone (datas (rmt_model (rmt_self graph))) imgs_test in
  let outputs_test := forward (datas (rmt_model (rmt_self graph))) imgs_test in
  (* forward augmented test data *)
  let imgs_aug := tta_transform imgs_test in
  let features_aug_test := backbone (datas (rmt_model (rmt_self graph))) imgs_aug in
  let outputs_aug_test := forward (datas (rmt_model (rmt_self graph))) imgs_aug in
  (* forward original test data through the ema model *)
  let outputs_ema := forward (datas (rmt_model_ema (rmt_self graph))) imgs_test in
  let indices := nearest_prototype (rmt_prototypes_src cf) features_test in
  let features :=
    zip3 (gather (rmt_prototypes_src cf) indices) features_test features_aug_test in
  loss_contrastive <- rmt_lift (RMT_contrastive_loss (rmt_self graph) features None None) ;;
  let loss_entropy :=
    Qmean (symmetric_entropy log_softmax outputs_test outputs_aug_test outputs_ema) in
  let loss_trg := rmt_lambda_ce_trg cf * loss_entropy + rmt_lambda_cont cf * loss_contrastive in
  rmt_backward (LossTrg imgs_test) graph ;;
  (if negb (Qle_bool (rmt_lambda_ce_src cf) 0)
   then
     ' (imgs_src, labels_src) <- rmt_sample_source_batch ;;
     graph_src <- rget ;;
     let outputs_src := forward (datas (rmt_model (rmt_self graph_src))) imgs_src in
     let loss_ce_src := rmt_lambda_ce_src cf * cross_entropy outputs_src labels_src in
     rmt_backward (LossCeSrc imgs_src labels_src) graph_src
   else rret tt) ;;
  rmt_step ;;
  rmodify rmt_ema ;;
  (* create and return the ensemble prediction *)
  rret (tensor_add outputs_test outputs_ema).

End RMTMethods.

(** ** Concrete engines for the further properties *)

(** The engine built with mixed precision on "cuda". *)
Definition sample_mixed_config : config :=
  mkConfig "all" (1 # 10) (1 # 2) 2 true "cuda".

Definition sample_mixed_state : Ours (@opt_state sample_collaborators) :=
  or_default empty_engine
    (Ours_init (E := sample_collaborators) sample_mixed_config (1 # 4) (1 # 2)
               sample_arch "cifar10_c" sample_model [0; 1]%nat 1 sample_projector).

(** The engine of a constructor that found no parameter for the student. *)
Definition sample_state_without_bn : Ours (@opt_state sample_collaborators) :=
  set_opts (mkOpts (optimizer (opts sample_state)) (optimizer_t2 (opts sample_state))
                   (optimizer_backbone_t2 (opts sample_state))
                   (optimizer_classifier_t2 (opts sample_state)) None)
           sample_state.

(** Kernels for RMT small enough to evaluate: every loss has gradient 1 in
    the student's parameters, the optimizer is plain gradient descent. *)
Definition sample_rmt_kernels : @RMTKernels sample_collaborators := {|
  log_softmax := fun t => t;
  cross_entropy := fun _ _ => 0;
  rmt_dloss := fun _ _ r =>
                 match fst r with
                 | RmtModel => Some [1]
                 | _ => None
                 end;
  rmt_rule := fun _ lr _ d g => zip_with (fun a b => a - lr * b) d g;
  rmt_tick := fun s _ => s
|}.

(** An RMT object before its warm-up of two steps: final learning rate
    0.1, momentum 0.5, a source loader of one batch per pass. *)
Definition sample_rmt_on (loader : nat -> list (@src_batch sample_collaborators))
    : @RMTEngine sample_collaborators :=
  mkRMTEngine (E := sample_collaborators)
    (mkRmtConfig 2 (1 # 10) (1 # 2) 1 1 1 [[1; 0]] loader)
    (mkRMT sample_model (map detach_ (copy_model sample_model)) sample_projector
           "all" (1 # 10))
    (mkRmtOptim (E := sample_collaborators)
                [([(RmtModel, 0%nat); (RmtModel, 1%nat)], 1 # 10);
                 ([(RmtProjector, 0%nat)], 1 # 10)] tt)
    0 [] [].

Definition sample_rmt : @RMTEngine sample_collaborators :=
  sample_rmt_on (fun _ => [([[1 # 10; 0]], [0%nat])]).

(** The same object on a source loader without a batch. *)
Definition sample_rmt_without_source : @RMTEngine sample_collaborators :=
  sample_rmt_on (fun _ => []).

(** ** Shapes the tensor code accepts *)




Section StepTensors.

Context {E : Collaborators}.




(** The [else] branch of [forward_and_adapt] up to and including
    [self.optimizer_bn.zero_grad()]: it leaves the engine as
    [loss_t2.backward()] finds it. *)
Definition until_t2_backward (x : inputs) : M unit :=
  bind (loss_calculation x) (fun _ =>
  bind get (fun graph =>
  bind (backward LossStu graph (fst x)) (fun _ =>
  bind (step OptimizerBn) (fun _ =>
  zero_grad OptimizerBn)))).

End StepTensors.

(** ** Concrete engines for the divergences *)

(** The collaborators of the concrete engine, with the graph of the student
    loss as ours.py builds it: [loss_self_training] has the term
    [symmetric_cross_entropy(outputs_s, outputs_t2)] on T2's attached
    outputs, so its gradient reaches T2's parameters too; T2's loss is
    computed from the backbone's features, so its gradient reaches the
    backbone's parameters (positions 0 and 1) only. *)
Definition shared_graph_collaborators : Collaborators := {|
  batch := list tensor;
  opt_state := unit;
  forward := fun ps x => map (map (Qplus (first_weight ps))) x;
  backbone := fun ps x => x;
  softmax := fun t => t;
  log_t := fun t => t;
  normalize := fun t => t;
  tta_transform := fun x => x;
  symmetric_cross_entropy := fun a b => map Qsum (tensor_add a b);
  ent := fun t => map (fun row => (12 # 10) - nth 0 row 0) t;
  mse_loss := fun a b => 0;
  kl_div := fun a b => 0;
  nearest_prototype := fun p f => map (fun _ => 0%nat) f;
  supcon := fun mode temp proj trip mask => 0;
  opt_rule := fun _ lr _ d g => zip_with (fun a b => a - lr * b) d g;
  opt_tick := fun s _ => s;
  fresh_state := tt;
  scaler_next := fun s => s;
  dloss := fun l _ _ r =>
             match l, fst r with
             | LossStu, ModelS => Some [1]
             | LossStu, ModelT2 => Some [1]
             | LossT2, ModelT2 => if (snd r <? 2)%nat then Some [1] else None
             | _, _ => None
             end;
  collect_params := fun n => seq 0 (length n)
|}.

(** A network of a backbone with a convolution (parameter 0) and a
    batch-norm layer (parameter 1) and of a linear classifier (parameter
    2). *)
Definition shared_graph_arch : arch :=
  mkArch [(OtherModule, [0; 1; 2]%nat); (BatchNorm2d, [1]%nat)] [0; 1]%nat [2]%nat.

Definition shared_graph_model : network :=
  [mkParam [1] true None; mkParam [0] true None; mkParam [0] true None].

(** The engine right after construction, on these collaborators. *)
Definition shared_graph_state : Ours (@opt_state shared_graph_collaborators) :=
  or_default (mkOurs sample_config 0 0 (mkStore [] [] [] [] [])
                (mkOpts (mkOptim [] tt) None (mkOptim [] tt) (mkOptim [] tt) None)
                1 (init_pqs 0 0) [])
    (Ours_init (E := shared_graph_collaborators) sample_config (1 # 4) (1 # 2)
               shared_graph_arch "cifar10_c" shared_graph_model [0; 1; 2]%nat 1
               sample_projector).

Definition shared_graph_x : @inputs shared_graph_collaborators :=
  ([[1 # 10; 0]; [9 # 10; 0]; [1 # 10; 1]], []).


(** * Properties *)

(** ** EMA merge *)

Lemma ema_tensor_length (a : Q) (e s : tensor) :
  length (ema_tensor a e s) = length e.
Proof.
  revert s; induction e as [|x e IH]; intros [|y s]; simpl; auto.
Qed.

Lemma ema_tensor_nth (a : Q) (e s : tensor) (j : nat) (x y : Q) :
  nth_error e j = Some x -> nth_error s j = Some y ->
  nth_error (ema_tensor a e s) j = Some (a * x + (1 - a) * y).
Proof.
  revert s j; induction e as [|x0 e IH]; intros [|y0 s] [|j]; simpl;
    try discriminate.
  - intros [= ->] [= ->]; reflexivity.
  - apply IH.
Qed.

Lemma ema_tensor_one (e s : tensor) : tensor_eq (ema_tensor 1 e s) e.
Proof.
  revert s; induction e as [|x e IH]; intros [|y s]; simpl.
  - constructor.
  - constructor.
  - apply Forall2_flip, Forall2_flip.
    clear; induction (x :: e); constructor; [reflexivity | assumption].
  - constructor; [ring | apply IH].
Qed.

Lemma ema_tensor_zero (e s : tensor) :
  length e = length s -> tensor_eq (ema_tensor 0 e s) s.
Proof.
  revert s; induction e as [|x e IH]; intros [|y s]; simpl; try discriminate.
  - constructor.
  - intros [= H]; constructor; [ring | apply IH, H].
Qed.

(** The loop of rmt.py and the merge of the engine are the same function. *)
Lemma update_ema_variables_ema_update_model (t s : network) (m : Q) :
  update_ema_variables t s m = ema_update_model t s m.
Proof.
  unfold ema_update_model.
  revert s; induction t as [|p t IH]; intros [|q s]; simpl; try reflexivity.
  now rewrite IH.
Qed.

Lemma ema_update_model_cons (p q : param) (t s : network) (m : Q) :
  ema_update_model (p :: t) (q :: s) m
  = set_data p (ema_tensor m (data p) (data q)) :: ema_update_model t s m.
Proof. reflexivity. Qed.

Lemma ema_update_model_nil_r (t : network) (m : Q) : ema_update_model t [] m = t.
Proof. destruct t; reflexivity. Qed.

Lemma ema_update_model_component (m : Q) (t s : network) (i j : nat) (e v : Q) :
  component t i j = Some e -> component s i j = Some v ->
  component (ema_update_model t s m) i j = Some (m * e + (1 - m) * v).
Proof.
  unfold component.
  revert s i; induction t as [|p t IH]; intros [|q s] [|i];
    try rewrite ema_update_model_cons; cbn [nth_error data set_data];
    try discriminate.
  - apply ema_tensor_nth.
  - apply IH.
Qed.

Lemma ema_update_model_one (t s : network) :
  model_data_eq (ema_update_model t s 1) t.
Proof.
  revert s; induction t as [|p t IH]; intros [|q s].
  - constructor.
  - constructor.
  - rewrite ema_update_model_nil_r.
    clear; induction (p :: t) as [|a l IHl]; constructor; [|assumption].
    clear; induction (data a); constructor; [reflexivity | assumption].
  - rewrite ema_update_model_cons; constructor; [apply ema_tensor_one | apply IH].
Qed.

Lemma ema_update_model_zero (t s : network) :
  same_shape t s -> model_data_eq (ema_update_model t s 0) s.
Proof.
  induction 1 as [|p q t s Hpq _ IH].
  - constructor.
  - rewrite ema_update_model_cons; constructor;
      [apply ema_tensor_zero, Hpq | apply IH].
Qed.

Lemma convex_between (m e s : Q) :
  0 <= m <= 1 ->
  Qmin e s <= m * e + (1 - m) * s <= Qmax e s.
Proof.
  intros [H0 H1].
  destruct (Q.min_spec e s) as [[Hlt Hmin] | [Hle Hmin]];
  destruct (Q.max_spec e s) as [[Hlt' Hmax] | [Hle' Hmax]];
    rewrite Hmin, Hmax; split; nra.
Qed.

Lemma ema_scalar_closed_form (m e0 : Q) (vs : list Q) :
  ema_scalar m e0 vs == Qpow m (length vs) * e0 + weighted_sum m vs.
Proof.
  unfold ema_scalar. revert e0; induction vs as [|v r IH]; intros e0; simpl.
  - ring.
  - rewrite IH. ring.
Qed.

(** The weights of the closed form add up to 1. *)
Lemma ema_weights_sum (m : Q) (n : nat) :
  Qpow m n + weighted_sum m (repeat 1 n) == 1.
Proof.
  induction n as [|n IH]; simpl.
  - ring.
  - rewrite repeat_length.
    setoid_replace (m * Qpow m n + ((1 - m) * Qpow m n * 1 + weighted_sum m (repeat 1 n)))
      with (Qpow m n + weighted_sum m (repeat 1 n)) by ring.
    exact IH.
Qed.

Lemma ema_fold_component (m : Q) (t0 : network) (history : list network)
    (i j : nat) (e0 : Q) (vs : list Q) :
  component t0 i j = Some e0 ->
  Forall2 (fun s v => component s i j = Some v) history vs ->
  component (ema_fold m t0 history) i j = Some (ema_scalar m e0 vs).
Proof.
  intros H0 H; revert t0 e0 H0.
  induction H as [|s v history vs Hs _ IH]; intros t0 e0 H0; simpl.
  - exact H0.
  - apply IH. now apply ema_update_model_component.
Qed.

(** C1.  Both merges, the loop [update_ema_variables] of rmt.py and the
    [ema_update_model] the engine applies to T1 and S, replace every entry
    [e] of every EMA parameter by [m * e + (1 - m) * s], where [s] is the
    entry of the source parameter at the same place.  For a momentum in
    [0, 1] the new entry lies between [e] and [s]; momentum 1 leaves the EMA
    parameters as they were and momentum 0 makes them the source's. *)
Theorem ema_merge_convex (m : Q) (T1 S : network) :
  same_shape T1 S -> 0 <= m <= 1 ->
  update_ema_variables T1 S m = ema_update_model T1 S m /\
  (forall i j e s,
      component T1 i j = Some e -> component S i j = Some s ->
      component (ema_update_model T1 S m) i j = Some (m * e + (1 - m) * s) /\
      Qmin e s <= m * e + (1 - m) * s <= Qmax e s) /\
  model_data_eq (ema_update_model T1 S 1) T1 /\
  model_data_eq (ema_update_model T1 S 0) S.
Proof.
  intros Hshape Hm. split; [|split; [|split]].
  - apply update_ema_variables_ema_update_model.
  - intros i j e s He Hs; split.
    + now apply ema_update_model_component.
    + now apply convex_between.
  - apply ema_update_model_one.
  - now apply ema_update_model_zero.
Qed.

Lemma ema_merge_convex_witness :
  let T1 := [mkParam [1; 0] false None] in
  let S := [mkParam [0; 1] true None] in
  model_data_eq (ema_update_model T1 S 1) T1 /\
  model_data_eq (ema_update_model T1 S 0) S.
Proof.
  intros T1 S.
  apply (ema_merge_convex (1 # 2) T1 S).
  - repeat constructor.
  - split; discriminate.
Defined.

(** ** PrototypeStore *)

Lemma pop_worst_none (q : queue) : pop_worst q = None <-> q = [].
Proof.
  destruct q as [|e q]; simpl; [tauto|].
  split; [|discriminate].
  destruct (pop_worst q) as [[w r]|]; [|discriminate].
  destruct (Qle_bool (entropy w) (entropy e)); discriminate.
Qed.

Lemma pop_worst_perm (q : queue) (w : entry) (rest : queue) :
  pop_worst q = Some (w, rest) -> Permutation q (w :: rest).
Proof.
  revert w rest; induction q as [|e q IH]; simpl; intros w rest; [discriminate|].
  destruct (pop_worst q) as [[w' r]|] eqn:Hq.
  - destruct (Qle_bool (entropy w') (entropy e)); intros [= <- <-].
    + reflexivity.
    + rewrite (IH _ _ eq_refl). apply perm_swap.
  - intros [= <- <-]. apply pop_worst_none in Hq; subst; reflexivity.
Qed.

Lemma pop_worst_max (q : queue) (w : entry) (rest : queue) :
  pop_worst q = Some (w, rest) -> Forall (fun e => entropy e <= entropy w) q.
Proof.
  revert w rest; induction q as [|e q IH]; simpl; intros w rest; [discriminate|].
  destruct (pop_worst q) as [[w' r]|] eqn:Hq.
  - specialize (IH _ _ eq_refl).
    destruct (Qle_bool (entropy w') (entropy e)) eqn:Hle; intros [= <- <-].
    + apply Qle_bool_iff in Hle. constructor; [apply Qle_refl|].
      eapply Forall_impl; [|exact IH]. intros a Ha; simpl in Ha.
      eapply Qle_trans; eassumption.
    + constructor; [|exact IH].
      apply Qlt_le_weak, Qnot_le_lt. intros H.
      apply Qle_bool_iff in H. congruence.
  - intros [= <- <-]. apply pop_worst_none in Hq; subst.
    constructor; [apply Qle_refl | constructor].
Qed.

Lemma pop_worst_length (q : queue) (w : entry) (rest : queue) :
  pop_worst q = Some (w, rest) -> length q = S (length rest).
Proof.
  intros H. apply pop_worst_perm, Permutation_length in H. exact H.
Qed.

Lemma push_bounded_length (K : nat) (q : queue) (e : entry) :
  (length q <= K)%nat -> (length (push_bounded K q e) <= K)%nat.
Proof.
  intros Hq. unfold push_bounded.
  assert (Hlen : length (q ++ [e]) = S (length q))
    by (rewrite length_app; simpl; lia).
  destruct (K <? length (q ++ [e]))%nat eqn:Hk.
  - destruct (pop_worst (q ++ [e])) as [[w r]|] eqn:Hp.
    + apply pop_worst_length in Hp. lia.
    + apply pop_worst_none in Hp. destruct q; discriminate.
  - apply Nat.ltb_ge in Hk. exact Hk.
Qed.

Lemma update_nth_Forall {A : Type} (P : A -> Prop) (f : A -> A) (i : nat) (l : list A) :
  (forall a, P a -> P (f a)) -> Forall P l -> Forall P (update_nth f i l).
Proof.
  intros Hf H; revert i; induction H as [|a l Ha Hl IH]; intros [|i]; simpl;
    constructor; auto.
Qed.

Lemma update_nth_length {A : Type} (f : A -> A) (i : nat) (l : list A) :
  length (update_nth f i l) = length l.
Proof.
  revert i; induction l as [|a l IH]; intros [|i]; simpl; auto.
Qed.

Lemma update_pqs_max_size (s : pqs) (fs : list tensor) (hs : list Q) (ls : list nat) :
  max_size (update_pqs s fs hs ls) = max_size s.
Proof.
  revert s hs ls; induction fs as [|f fs IH]; intros s [|h hs] [|l ls];
    simpl; try reflexivity.
  rewrite IH; reflexivity.
Qed.

Lemma update_pqs_within_capacity (s : pqs) (fs : list tensor) (hs : list Q)
    (ls : list nat) :
  within_capacity s -> within_capacity (update_pqs s fs hs ls).
Proof.
  revert s hs ls; induction fs as [|f fs IH]; intros s [|h hs] [|l ls] Hs;
    simpl; try exact Hs.
  apply IH. unfold within_capacity in *; simpl.
  apply update_nth_Forall; [|exact Hs].
  intros q Hq. now apply push_bounded_length.
Qed.

Lemma pop_round_bounded (K n : nat) (qs : list queue) :
  Forall (fun q => (length q <= K)%nat) qs ->
  Forall (fun q => (length q <= K)%nat) (snd (pop_round n qs)).
Proof.
  revert qs; induction n as [|n IH]; intros qs H; simpl; [destruct qs; exact H|].
  destruct H as [|q qs Hq Hqs]; simpl; [constructor|].
  specialize (IH _ Hqs).
  destruct (pop_round n qs) as [popped rest]; simpl in IH.
  destruct (pop_worst q) as [[w q']|] eqn:Hp; simpl; constructor; auto.
  apply pop_worst_length in Hp. lia.
Qed.

Lemma pop_min_from_pqs_max_size (s : pqs) (n : nat) :
  max_size (snd (pop_min_from_pqs s n)) = max_size s.
Proof.
  unfold pop_min_from_pqs. destruct (pop_round n (queues s)); reflexivity.
Qed.

Lemma pop_min_from_pqs_within_capacity (s : pqs) (n : nat) :
  within_capacity s -> within_capacity (snd (pop_min_from_pqs s n)).
Proof.
  unfold within_capacity. intros H.
  rewrite pop_min_from_pqs_max_size.
  unfold pop_min_from_pqs.
  pose proof (pop_round_bounded (max_size s) n (queues s) H) as Hb.
  destruct (pop_round n (queues s)); exact Hb.
Qed.

Lemma init_pqs_within_capacity (n K : nat) : within_capacity (init_pqs n K).
Proof.
  unfold within_capacity, init_pqs; simpl.
  apply Forall_forall. intros q Hq. apply repeat_spec in Hq; subst; simpl; lia.
Qed.

Lemma apply_op_invariant (s : pqs) (o : store_op) :
  within_capacity s ->
  within_capacity (apply_op s o) /\ max_size (apply_op s o) = max_size s.
Proof.
  intros H; destruct o as [f h l | n]; simpl; split.
  - now apply update_pqs_within_capacity.
  - apply update_pqs_max_size.
  - now apply pop_min_from_pqs_within_capacity.
  - apply pop_min_from_pqs_max_size.
Qed.

Lemma run_ops_invariant (ops : list store_op) (s : pqs) :
  within_capacity s ->
  within_capacity (run_ops ops s) /\ max_size (run_ops ops s) = max_size s.
Proof.
  revert s; induction ops as [|o ops IH]; intros s H; simpl; [auto|].
  destruct (apply_op_invariant s o H) as [H1 H2].
  destruct (IH _ H1) as [H3 H4]. split; [exact H3 | congruence].
Qed.

Lemma pop_round_nth (n : nat) (qs : list queue) (i : nat) (q : queue)
    (w : entry) (rest : queue) :
  (i < n)%nat -> nth_error qs i = Some q -> pop_worst q = Some (w, rest) ->
  nth_error (snd (pop_round n qs)) i = Some rest /\ In w (fst (pop_round n qs)).
Proof.
  revert qs i; induction n as [|n IH]; intros qs i Hi Hq Hp; [lia|].
  destruct qs as [|q0 qs]; [destruct i; discriminate|].
  simpl. destruct i as [|i]; simpl in Hq.
  - injection Hq as ->. rewrite Hp.
    destruct (pop_round n qs) as [popped r]; simpl. split; auto.
  - assert (Hi' : (i < n)%nat) by lia.
    specialize (IH qs i Hi' Hq Hp).
    destruct (pop_round n qs) as [popped r]; simpl in IH.
    destruct (pop_worst q0) as [[w0 q0']|]; simpl; split; tauto.
Qed.

Lemma nth_error_update_nth {A : Type} (f : A -> A) (i : nat) (l : list A) :
  nth_error (update_nth f i l) i = option_map f (nth_error l i).
Proof.
  revert i; induction l as [|a l IH]; intros [|i]; simpl; auto.
Qed.

(** C4.  Whatever [pop_worst] takes out of a queue is an entry of the
    highest entropy in it, the rest is the queue without that entry, and no
    entry that stays has a higher entropy.  Both evictions are this one: an
    [update] with a sample whose class queue overflows the capacity leaves
    [rest] in that queue, and the periodic eviction round leaves [rest] in
    the class's queue and returns [w]. *)
Theorem eviction_removes_worst (q : queue) (w : entry) (rest : queue) :
  pop_worst q = Some (w, rest) ->
  evicts_worst q w rest /\
  Forall (fun e => entropy e <= entropy w) rest /\
  (forall s f h l q0,
      nth_error (queues s) l = Some q0 -> q = q0 ++ [mkEntry h f] ->
      (max_size s < length q)%nat ->
      nth_error (queues (update_pqs s [f] [h] [l])) l = Some rest) /\
  (forall s n i,
      (i < n)%nat -> nth_error (queues s) i = Some q ->
      nth_error (queues (snd (pop_min_from_pqs s n))) i = Some rest /\
      In w (fst (pop_min_from_pqs s n))).
Proof.
  intros Hp.
  pose proof (pop_worst_perm _ _ _ Hp) as Hperm.
  pose proof (pop_worst_max _ _ _ Hp) as Hmax.
  split; [split; assumption|]. split; [|split].
  - assert (H : Forall (fun e => entropy e <= entropy w) (w :: rest)).
    { rewrite Forall_forall in *. intros e He. apply Hmax.
      eapply Permutation_in; [symmetry; exact Hperm | exact He]. }
    now inversion H.
  - intros s f h l q0 Hq0 -> HK. cbn [update_pqs queues].
    rewrite nth_error_update_nth, Hq0. cbn [option_map].
    unfold push_bounded. apply Nat.ltb_lt in HK. rewrite HK, Hp. reflexivity.
  - intros s n i Hi Hq. unfold pop_min_from_pqs.
    pose proof (pop_round_nth n (queues s) i q w rest Hi Hq Hp) as H.
    destruct (pop_round n (queues s)) as [popped qs]. exact H.
Qed.

Lemma eviction_removes_worst_witness :
  let a := mkEntry (1 # 10) [1] in
  let b := mkEntry (3 # 10) [2] in
  let d := mkEntry (2 # 10) [3] in
  evicts_worst [a; b; d] b [a; d] /\
  nth_error (queues (update_pqs (mkPqs [[a; b]] 2) [[3]] [2 # 10] [0%nat])) 0
  = Some [a; d].
Proof.
  intros a b d.
  destruct (eviction_removes_worst [a; b; d] b [a; d] eq_refl) as (H1 & _ & H3 & _).
  split; [exact H1|].
  apply (H3 (mkPqs [[a; b]] 2) [3] (2 # 10) 0%nat [a; b] eq_refl eq_refl).
  simpl; lia.
Defined.

(** ** ConfidenceFilter *)

(** C7 (as amended).  In the scenario of section 8 the filter puts the
    first four samples in "both confident" and the last four, on which only
    T2 is below the threshold, in "only-T2-confident"; the two other sets
    are empty. *)
Theorem scenario_filter_sets :
  both_confident scenario_filter = [0; 1; 2; 3]%nat /\
  only_t2_confident scenario_filter = [4; 5; 6; 7]%nat /\
  only_t1_confident scenario_filter = [] /\
  neither_confident scenario_filter = [].
Proof. repeat split; vm_compute; reflexivity. Qed.

(** C7 (as stated) fails: the "only-T2-confident" set of the scenario is
    not empty. *)
Lemma scenario_only_t2_not_empty :
  ~ (only_t2_confident scenario_filter = [] /\
     both_confident scenario_filter = [0; 1; 2; 3]%nat).
Proof. intros [H _]. vm_compute in H. discriminate H. Qed.

(** ** The engine *)

Section EngineProperties.

Context {E : Collaborators}.

Local Abbreviation engine := (Ours opt_state).

(** *** What the methods return and write *)

Lemma prototype_updates_run (n d : nat) (f : list tensor) (h : list Q)
    (l : list nat) (st : engine) :
  exists q,
    prototype_updates n d f h l st
    = (inr (compute_prototypes q n d),
       mkOurs (cfg st) (c st) (lambda_ce_trg st) (nets st) (opts st) (scaler st)
              q (trace st ++ plot_events (c st)))
    /\ max_size q = max_size (priority_queues st)
    /\ (within_capacity (priority_queues st) -> within_capacity q).
Proof.
  unfold prototype_updates, bind, get, modify, ret, plot_events.
  cbn [fst snd c set_priority_queues priority_queues cfg].
  destruct (c st mod 5 =? 0)%nat;
    cbn [fst snd c set_priority_queues priority_queues cfg];
    destruct ((c st mod 20 =? 0)%nat && (0 <? c st)%nat);
    eexists;
    (split;
     [unfold log;
      cbn [cfg c lambda_ce_trg nets opts scaler priority_queues trace];
      try rewrite app_nil_r; reflexivity|]);
    cbn [priority_queues set_priority_queues];
    rewrite ?pop_min_from_pqs_max_size, ?update_pqs_max_size;
    (split; [reflexivity|]); intros Hw;
    try apply pop_min_from_pqs_within_capacity;
    now apply update_pqs_within_capacity.
Qed.

Lemma loss_calculation_run (x : inputs) (st : engine) :
  exists q l2,
    loss_calculation x st
    = (if valid_mode (cfg st)
       then inr (teacher_ensemble st x, 1 * self_training_mean st x, l2)
       else inl (ValueError ("Unknown mode: " ++ contrast_mode (cfg st))),
       mkOurs (cfg st) (c st) 1 (nets st) (opts st) (scaler st)
              q (trace st ++ plot_events (c st)))
    /\ max_size q = max_size (priority_queues st)
    /\ (within_capacity (priority_queues st) -> within_capacity q).
Proof.
  unfold loss_calculation.
  unfold bind at 1. unfold get at 1. cbv beta iota.
  unfold bind at 1. unfold modify at 1. cbv beta iota.
  unfold bind at 1. unfold get at 1. cbv beta iota.
  destruct (confidence_condition _ _ _) as [[[f1 f2] f3] f4].
  unfold bind at 1.
  match goal with
  | |- context [prototype_updates ?n ?d ?f ?h ?l ?s] =>
      destruct (prototype_updates_run n d f h l s) as (q & Hq & Hm & Hw);
      rewrite Hq
  end.
  cbv beta iota.
  unfold contrastive_loss, bind, get, ret, raise, valid_mode.
  cbn [cfg nets c lambda_ce_trg set_lambda_ce_trg opts scaler trace priority_queues]
    in *.
  destruct (String.eqb (contrast_mode (cfg st)) "one"
            || String.eqb (contrast_mode (cfg st)) "all").
  - exists q. eexists. split; [reflexivity|]. split; assumption.
  - exists q, 0. split; [reflexivity|]. split; assumption.
Qed.

(** *** Invariants through [bind] *)

Lemma preserves_bind {A B : Type} (I : engine -> Prop) (m : M A) (k : A -> M B) :
  preserves I m -> (forall a, preserves I (k a)) -> preserves I (bind m k).
Proof.
  intros Hm Hk st HI. unfold bind.
  specialize (Hm st HI).
  destruct (m st) as [[e|a] st']; simpl in *; [exact Hm|].
  now apply Hk.
Qed.

Lemma bind_state_eq {A B : Type} (m : M A) (k : A -> M B) (s s' : engine) :
  m s = m s' -> bind m k s = bind m k s'.
Proof. unfold bind; intros ->; reflexivity. Qed.

Lemma preserves_ret {A : Type} (I : engine -> Prop) (a : A) : preserves I (ret a).
Proof. intros st HI; exact HI. Qed.

Lemma preserves_raise {A : Type} (I : engine -> Prop) (e : exn) :
  preserves I (@raise _ A e).
Proof. intros st HI; exact HI. Qed.

Lemma preserves_get (I : engine -> Prop) : preserves I get.
Proof. intros st HI; exact HI. Qed.

Lemma preserves_modify (I : engine -> Prop) (f : engine -> engine) :
  (forall st, I st -> I (f st)) -> preserves I (modify f).
Proof. intros Hf st HI; now apply Hf. Qed.

(** An invariant that only reads the networks and the optimizers is kept
    by [loss_calculation]. *)
Lemma preserves_loss_calculation (I : engine -> Prop) (x : inputs) :
  (forall st l q t,
      I st ->
      I (mkOurs (cfg st) (c st) l (nets st) (opts st) (scaler st) q t)) ->
  preserves I (loss_calculation x).
Proof.
  intros HI st Hst.
  destruct (loss_calculation_run x st) as (q & l2 & Hrun & _).
  rewrite Hrun; simpl. now apply HI.
Qed.

(** *** T1 is out of reach of autograd and of the optimizers *)

Lemma map_indexed_id {A : Type} (f : nat -> A -> A) (l : list A) (k : nat) :
  Forall (fun a => forall i, f i a = a) l ->
  map (fun ia : nat * A => f (fst ia) (snd ia)) (combine (seq k (length l)) l) = l.
Proof.
  intros H; revert k; induction H as [|a l Ha _ IH]; intros k; simpl;
    [reflexivity|].
  now rewrite Ha, IH.
Qed.

Lemma accumulate_detached (sc : Q) (g : ref -> option tensor) (r : ref) (p : param) :
  requires_grad p = false -> accumulate sc g r p = p.
Proof. unfold accumulate; now intros ->. Qed.

Lemma map_store_accumulate_t1 (sc : Q) (g : ref -> option tensor) (s : store) :
  detached (model_t1 s) ->
  model_t1 (map_store (accumulate sc g) s) = model_t1 s.
Proof.
  intros Hd. unfold map_store; cbn [model_t1 get_model].
  apply (map_indexed_id (fun i p => accumulate sc g (ModelT1, i) p)).
  eapply Forall_impl; [|exact Hd].
  intros p [Hp _] i. now apply accumulate_detached.
Qed.

Lemma update_ref_other (i : model_id) (f : param -> param) (r : ref) (s : store) :
  fst r <> i -> get_model i (update_ref f r s) = get_model i s.
Proof.
  unfold update_ref. destruct r as [j k]; simpl.
  destruct i, j; simpl; congruence.
Qed.

Lemma fold_update_ref_other (i : model_id) (f : ref -> param -> param)
    (rs : list ref) (s : store) :
  Forall (fun r => fst r <> i) rs ->
  get_model i (fold_left (fun s r => update_ref (f r) r s) rs s) = get_model i s.
Proof.
  intros H; revert s; induction H as [|r rs Hr _ IH]; intros s; simpl;
    [reflexivity|].
  rewrite IH. now apply update_ref_other.
Qed.

Lemma apply_step_other (i : model_id) (o : optim opt_state) (s : store) :
  Forall (fun r => fst r <> i) (refs_of o) ->
  get_model i (apply_step o s) = get_model i s.
Proof.
  unfold apply_step, refs_of.
  generalize (ostate o) as os. intros os.
  induction (param_groups o) as [|g gs IH] in s |- *; simpl; intros H;
    [reflexivity|].
  apply Forall_app in H as [Hg Hgs].
  rewrite IH by exact Hgs.
  now apply (fold_update_ref_other i (fun r => step_param os (snd g) r)).
Qed.

Lemma get_opt_set_opt (o o' : opt_id) (w : optim opt_state)
    (os : optimizers opt_state) :
  get_opt o' (set_opt o w os)
  = if opt_id_eqb o' o then Some w else get_opt o' os.
Proof. destruct o, o'; reflexivity. Qed.

Lemma no_optimizer_on_set_opt (i : model_id) (o : opt_id) (v w : optim opt_state)
    (os : optimizers opt_state) :
  get_opt o os = Some v -> param_groups w = param_groups v ->
  no_optimizer_on i os -> no_optimizer_on i (set_opt o w os).
Proof.
  intros Ho Hw H o' v' Ho'.
  assert (Hrefs : refs_of w = refs_of v) by (unfold refs_of; now rewrite Hw).
  rewrite get_opt_set_opt in Ho'.
  destruct (opt_id_eqb o' o).
  - injection Ho' as <-. rewrite Hrefs. eapply H; eassumption.
  - eapply H; eassumption.
Qed.

Lemma preserves_t1_backward (t : network) (l : loss_id) (g : engine) (x : batch) :
  preserves (t1_is t) (backward l g x).
Proof.
  apply preserves_modify. intros st (H1 & H2 & H3).
  split; [|split; assumption].
  cbn [log set_nets nets]. rewrite map_store_accumulate_t1; congruence.
Qed.

Lemma preserves_t1_scaled_backward (t : network) (l : loss_id) (g : engine)
    (x : batch) :
  preserves (t1_is t) (scaled_backward l g x).
Proof.
  apply preserves_modify. intros st (H1 & H2 & H3).
  split; [|split; assumption].
  cbn [log set_nets nets]. rewrite map_store_accumulate_t1; congruence.
Qed.

Lemma preserves_t1_step (t : network) (o : opt_id) : preserves (t1_is t) (step o).
Proof.
  intros st (H1 & H2 & H3).
  unfold step, attr, bind, get, modify, ret, raise.
  destruct (get_opt o (opts st)) as [v|] eqn:Ho; cbn [fst snd];
    [|split; [|split]; assumption].
  split; [|split; [assumption|]]; cbn [log set_nets set_opts nets opts].
  - rewrite <- H1. apply (apply_step_other ModelT1). eapply H3; eassumption.
  - eapply no_optimizer_on_set_opt; try eassumption. reflexivity.
Qed.

Lemma preserves_t1_zero_grad (t : network) (o : opt_id) :
  preserves (t1_is t) (zero_grad o).
Proof.
  intros st (H1 & H2 & H3).
  unfold zero_grad, attr, bind, get, modify, ret, raise.
  destruct (get_opt o (opts st)) as [v|] eqn:Ho; cbn [fst snd];
    [|split; [|split]; assumption].
  split; [|split; assumption]; cbn [log set_nets nets].
  rewrite <- H1.
  apply (fold_update_ref_other ModelT1 (fun _ => clear_grad)).
  eapply H3; eassumption.
Qed.

Lemma preserves_t1_scaler_step (t : network) (o : opt_id) :
  preserves (t1_is t) (scaler_step o).
Proof.
  intros st (H1 & H2 & H3).
  unfold scaler_step, attr, bind, get, modify, ret, raise.
  destruct (get_opt o (opts st)) as [v|] eqn:Ho; cbn [fst snd];
    [|split; [|split]; assumption].
  pose proof (H3 _ _ Ho) as Hrefs.
  split; [|split; [assumption|]]; cbn [log set_nets set_opts nets opts].
  - rewrite <- H1.
    rewrite (apply_step_other ModelT1) by exact Hrefs.
    now apply (fold_update_ref_other ModelT1 (fun _ => unscale (scaler st))).
  - eapply no_optimizer_on_set_opt; try eassumption. reflexivity.
Qed.

Lemma preserves_t1_scaler_update (t : network) : preserves (t1_is t) scaler_update.
Proof. apply preserves_modify. intros st H; exact H. Qed.

Lemma preserves_t1_loss_calculation (t : network) (x : inputs) :
  preserves (t1_is t) (loss_calculation x).
Proof. apply preserves_loss_calculation. intros st l q tr H; exact H. Qed.

Lemma preserves_t1_full_precision (t : network) (x : inputs) :
  preserves (t1_is t) (full_precision_branch x).
Proof.
  unfold full_precision_branch.
  apply preserves_bind; [apply preserves_t1_loss_calculation|].
  intros [[outputs loss] loss_t2].
  apply preserves_bind; [apply preserves_get|]. intros graph.
  repeat (apply preserves_bind;
          [first [apply preserves_t1_backward | apply preserves_t1_step
                 | apply preserves_t1_zero_grad]|]; intros _).
  apply preserves_ret.
Qed.

Lemma preserves_t1_mixed_precision (t : network) (x : inputs) :
  preserves (t1_is t) (mixed_precision_branch x).
Proof.
  unfold mixed_precision_branch.
  apply preserves_bind; [apply preserves_t1_loss_calculation|].
  intros [[outputs loss] loss_t2].
  apply preserves_bind; [apply preserves_get|]. intros graph.
  repeat (apply preserves_bind;
          [first [apply preserves_t1_scaled_backward | apply preserves_t1_scaler_step
                 | apply preserves_t1_scaler_update | apply preserves_t1_zero_grad]|];
          intros _).
  apply preserves_ret.
Qed.

(** *** The configuration is never written *)

Ltac run_primitive :=
  unfold step, zero_grad, scaler_step, scaler_update, backward, scaled_backward,
         attr, bind, get, modify, ret, raise;
  intros st Hst;
  try match goal with
      | |- context [get_opt ?o (opts st)] => destruct (get_opt o (opts st))
      end;
  exact Hst.

Lemma preserves_cfg_loss_calculation (cf : config) (x : inputs) :
  preserves (fun st => cfg st = cf) (loss_calculation x).
Proof. apply preserves_loss_calculation. intros st l q t H; exact H. Qed.

Lemma preserves_cfg_full_precision (cf : config) (x : inputs) :
  preserves (fun st => cfg st = cf) (full_precision_branch x).
Proof.
  unfold full_precision_branch.
  apply preserves_bind; [apply preserves_cfg_loss_calculation|].
  intros [[outputs loss] loss_t2].
  apply preserves_bind; [apply preserves_get|]. intros graph.
  repeat (apply preserves_bind; [run_primitive|]; intros _).
  apply preserves_ret.
Qed.

Lemma preserves_cfg_mixed_precision (cf : config) (x : inputs) :
  preserves (fun st => cfg st = cf) (mixed_precision_branch x).
Proof.
  unfold mixed_precision_branch.
  apply preserves_bind; [apply preserves_cfg_loss_calculation|].
  intros [[outputs loss] loss_t2].
  apply preserves_bind; [apply preserves_get|]. intros graph.
  repeat (apply preserves_bind; [run_primitive|]; intros _).
  apply preserves_ret.
Qed.

(** *** One call of [forward_and_adapt] *)

Lemma forward_and_adapt_unfold (x : inputs) (st : engine) :
  forward_and_adapt x st
  = match (if mixed_path (cfg st) then mixed_precision_branch x
           else full_precision_branch x) st with
    | (inl e, s1) => (inl e, s1)
    | (inr outputs, s1) =>
        (inr outputs, set_c (c (ema_step s1) + 1)%nat (ema_step s1))
    end.
Proof.
  unfold forward_and_adapt, mixed_path, bind, get, modify, ret; cbv beta iota.
  destruct ((if mixed_precision (cfg st) && String.eqb (device (cfg st)) "cuda"
             then mixed_precision_branch x else full_precision_branch x) st)
    as [[e|o] s1]; reflexivity.
Qed.

Lemma detached_ema_update_model (t s : network) (m : Q) :
  detached t -> detached (ema_update_model t s m).
Proof.
  intros H; revert s; induction H as [|p t Hp Ht IH]; intros [|q s].
  - constructor.
  - constructor.
  - rewrite ema_update_model_nil_r. now constructor.
  - rewrite ema_update_model_cons. constructor; [exact Hp | apply IH].
Qed.

(** A call that raises leaves T1 as it was; a call that returns has merged
    the student the call produced into T1, and done nothing else to it. *)
Lemma forward_and_adapt_t1 (t : network) (x : inputs) (st : engine) :
  t1_is t st ->
  let r := forward_and_adapt x st in
  cfg (snd r) = cfg st /\
  match fst r with
  | inl _ => t1_is t (snd r)
  | inr _ =>
      t1_is (ema_update_model t (model_s (nets (snd r))) (m_teacher_momentum (cfg st)))
            (snd r)
  end.
Proof.
  intros Ht. cbv zeta. rewrite forward_and_adapt_unfold.
  assert (H : cfg (snd ((if mixed_path (cfg st) then mixed_precision_branch x
                         else full_precision_branch x) st)) = cfg st
              /\ t1_is t (snd ((if mixed_path (cfg st) then mixed_precision_branch x
                                else full_precision_branch x) st))).
  { destruct (mixed_path (cfg st)); split;
      first [ now apply preserves_cfg_mixed_precision
            | now apply preserves_cfg_full_precision
            | now apply preserves_t1_mixed_precision
            | now apply preserves_t1_full_precision ]. }
  destruct ((if mixed_path (cfg st) then mixed_precision_branch x
             else full_precision_branch x) st) as [[e|o] s1];
    cbn [fst snd] in *; destruct H as (Hc & H1 & H2 & H3).
  - split; [exact Hc|]. split; [|split]; assumption.
  - split; [exact Hc|].
    unfold ema_step; cbn [set_c log set_nets set_model nets cfg opts model_t1 model_s].
    rewrite H1, Hc.
    split; [reflexivity|]. split; [|exact H3].
    now apply detached_ema_update_model.
Qed.

Lemma forward_sliding_window_state (x : inputs) (st : engine) :
  snd (forward_sliding_window x st) = st.
Proof. reflexivity. Qed.

(** *** Runs *)

Lemma run_t1 (calls : list call) (st : engine) :
  t1_is (model_t1 (nets st)) st ->
  cfg (run calls st) = cfg st /\
  t1_is (ema_fold (m_teacher_momentum (cfg st)) (model_t1 (nets st))
                  (merged_students calls st))
        (run calls st).
Proof.
  revert st; induction calls as [|k calls IH]; intros st Ht.
  - split; [reflexivity | exact Ht].
  - cbn [run fold_left merged_students]. fold (run calls (snd (do_call k st))).
    destruct k as [x | x]; cbn [do_call].
    + pose proof (forward_and_adapt_t1 _ x st Ht) as H; cbv zeta in H.
      destruct H as [Hc H].
      destruct (fst (forward_and_adapt x st)) as [e|o].
      * assert (Ht' : t1_is (model_t1 (nets (snd (forward_and_adapt x st))))
                            (snd (forward_and_adapt x st)))
          by (destruct H as (H1 & H2 & H3); rewrite H1; repeat split; assumption).
        destruct (IH _ Ht') as [IHc IHt].
        destruct H as (H1 & _). rewrite H1, Hc in IHt. rewrite Hc in IHc.
        split; [exact IHc | exact IHt].
      * assert (Ht' : t1_is (model_t1 (nets (snd (forward_and_adapt x st))))
                            (snd (forward_and_adapt x st)))
          by (destruct H as (H1 & H2 & H3); rewrite H1; repeat split; assumption).
        destruct (IH _ Ht') as [IHc IHt].
        destruct H as (H1 & _). rewrite H1, Hc in IHt. rewrite Hc in IHc.
        split; [exact IHc | exact IHt].
    + rewrite forward_sliding_window_state. cbn [app]. now apply IH.
Qed.

Lemma full_precision_branch_ok (x : inputs) (st : engine) (v : optim opt_state) :
  valid_mode (cfg st) = true ->
  get_opt OptimizerBn (opts st) = Some v ->
  exists s1,
    full_precision_branch x st = (inr (teacher_ensemble st x), s1) /\
    c s1 = c st /\
    trace s1 = trace st ++ plot_events (c st)
                 ++ [EvBackward LossStu; EvStep OptimizerBn; EvZeroGrad OptimizerBn;
                     EvBackward LossT2; EvStep OptimizerBackboneT2;
                     EvZeroGrad OptimizerBackboneT2].
Proof.
  intros Hmode Hbn.
  destruct (loss_calculation_run x st) as (q & l2 & Hrun & _).
  unfold full_precision_branch. unfold bind at 1. rewrite Hrun, Hmode.
  cbv [bind get backward step zero_grad attr modify ret raise].
  cbn [opts nets cfg c trace log set_nets set_opts fst snd].
  rewrite Hbn.
  cbn [opts nets cfg c trace log set_nets set_opts fst snd get_opt set_opt
       optimizer_bn optimizer_backbone_t2].
  eexists. split; [reflexivity|]. split; [reflexivity|].
  cbn [trace log set_nets set_opts]. rewrite <- !app_assoc. reflexivity.
Qed.

Lemma mixed_precision_branch_ok (x : inputs) (st : engine) :
  valid_mode (cfg st) = true ->
  exists s1,
    mixed_precision_branch x st = (inr (teacher_ensemble st x), s1) /\
    c s1 = c st /\
    trace s1 = trace st ++ plot_events (c st)
                 ++ [EvScaledBackward LossStu; EvScalerStep Optimizer;
                     EvScalerUpdate; EvZeroGrad Optimizer].
Proof.
  intros Hmode.
  destruct (loss_calculation_run x st) as (q & l2 & Hrun & _).
  unfold mixed_precision_branch. unfold bind at 1. rewrite Hrun, Hmode.
  cbv [bind get scaled_backward scaler_step scaler_update zero_grad attr modify
       ret raise].
  cbn [opts nets cfg c trace log set_nets set_opts set_scaler fst snd get_opt
       set_opt optimizer].
  eexists. split; [reflexivity|]. split; [reflexivity|].
  cbn [trace log set_nets set_opts set_scaler]. rewrite <- !app_assoc. reflexivity.
Qed.

Lemma branch_invalid_mode (x : inputs) (st : engine) :
  valid_mode (cfg st) = false ->
  exists s1,
    nets s1 = nets st /\ opts s1 = opts st /\
    full_precision_branch x st
    = (inl (ValueError ("Unknown mode: " ++ contrast_mode (cfg st))), s1) /\
    mixed_precision_branch x st
    = (inl (ValueError ("Unknown mode: " ++ contrast_mode (cfg st))), s1).
Proof.
  intros Hmode.
  destruct (loss_calculation_run x st) as (q & l2 & Hrun & _).
  eexists. split; [|split; [|split]].
  3: unfold full_precision_branch; unfold bind at 1; rewrite Hrun, Hmode;
       reflexivity.
  3: unfold mixed_precision_branch; unfold bind at 1; rewrite Hrun, Hmode;
       reflexivity.
  all: reflexivity.
Qed.

Lemma forward_and_adapt_ok (x : inputs) (st : engine) :
  valid_mode (cfg st) = true ->
  mixed_path (cfg st) = true \/ optimizer_bn (opts st) <> None ->
  exists s1,
    forward_and_adapt x st = (inr (teacher_ensemble st x), s1) /\
    c s1 = (c st + 1)%nat /\
    trace s1 = trace st ++ plot_events (c st)
                 ++ (if mixed_path (cfg st)
                     then [EvScaledBackward LossStu; EvScalerStep Optimizer;
                           EvScalerUpdate; EvZeroGrad Optimizer; EvEmaUpdate]
                     else full_precision_protocol).
Proof.
  intros Hmode Hpath. rewrite forward_and_adapt_unfold.
  destruct (mixed_path (cfg st)) eqn:Hmixed.
  - destruct (mixed_precision_branch_ok x st Hmode) as (s1 & -> & Hc & Ht).
    eexists. split; [reflexivity|].
    unfold ema_step; cbn [c trace set_c log set_nets]. rewrite Hc, Ht.
    split; [reflexivity|]. rewrite <- !app_assoc. reflexivity.
  - destruct Hpath as [Hpath | Hbn]; [discriminate|].
    destruct (optimizer_bn (opts st)) as [v|] eqn:Hv; [|congruence].
    destruct (full_precision_branch_ok x st v Hmode Hv) as (s1 & -> & Hc & Ht).
    eexists. split; [reflexivity|].
    unfold ema_step; cbn [c trace set_c log set_nets]. rewrite Hc, Ht.
    split; [reflexivity|]. rewrite <- !app_assoc. reflexivity.
Qed.

Lemma skipn_length_app {A : Type} (a b : list A) : skipn (length a) (a ++ b) = b.
Proof. induction a; simpl; auto. Qed.

(** C2.  With a contrast mode the loss knows, and with [optimizer_bn] set
    when the full-precision branch runs, [loss_calculation] and
    [forward_and_adapt] return the softmax of the sum of T1's and T2's logits
    on the clean batch; whatever the student's parameters are, the prediction
    is the same. *)
Theorem adapt_returns_teacher_ensemble (x : inputs) (st : engine) :
  valid_mode (cfg st) = true ->
  mixed_path (cfg st) = true \/ optimizer_bn (opts st) <> None ->
  fst (forward_and_adapt x st)
  = inr (softmax (tensor_add (forward (datas (model_t1 (nets st))) (fst x))
                             (forward (datas (model_t2 (nets st))) (fst x)))) /\
  (exists loss_stu loss_t2,
      fst (loss_calculation x st) = inr (teacher_ensemble st x, loss_stu, loss_t2)) /\
  (forall s : network,
      fst (forward_and_adapt x (set_nets (set_model ModelS s (nets st)) st))
      = fst (forward_and_adapt x st)).
Proof.
  intros Hmode Hpath.
  destruct (forward_and_adapt_ok x st Hmode Hpath) as (s1 & Hrun & _).
  split; [rewrite Hrun; reflexivity|]. split.
  - destruct (loss_calculation_run x st) as (q & l2 & Hl & _).
    rewrite Hl, Hmode. do 2 eexists; reflexivity.
  - intros s.
    destruct (forward_and_adapt_ok x (set_nets (set_model ModelS s (nets st)) st)
                Hmode Hpath) as (s2 & Hrun2 & _).
    rewrite Hrun, Hrun2. reflexivity.
Qed.

(** The calls of the full-precision branch.  With a contrast mode
    the loss knows and [optimizer_bn] set, one adaptation step calls, in this
    order: backward of the student loss, [optimizer_bn.step()],
    [optimizer_bn.zero_grad()], backward of T2's loss,
    [optimizer_backbone_t2.step()], [optimizer_backbone_t2.zero_grad()] and
    the EMA merge, after the diagnostic plot when it is due.  Neither
    [optimizer_classifier_t2] nor [optimizer_t2] steps. *)
Theorem full_precision_step_protocol (x : inputs) (st : engine) :
  mixed_path (cfg st) = false ->
  valid_mode (cfg st) = true ->
  optimizer_bn (opts st) <> None ->
  let evs := events_of (forward_and_adapt x) st in
  evs = plot_events (c st)
          ++ [EvBackward LossStu; EvStep OptimizerBn; EvZeroGrad OptimizerBn;
              EvBackward LossT2; EvStep OptimizerBackboneT2;
              EvZeroGrad OptimizerBackboneT2; EvEmaUpdate] /\
  ~ In (EvStep OptimizerClassifierT2) evs /\
  ~ In (EvStep OptimizerT2) evs.
Proof.
  intros Hmixed Hmode Hbn evs.
  destruct (forward_and_adapt_ok x st Hmode (or_intror Hbn)) as (s1 & Hrun & _ & Ht).
  rewrite Hmixed in Ht.
  assert (Hevs : evs = plot_events (c st) ++ full_precision_protocol).
  { unfold evs, events_of. rewrite Hrun; cbn [snd]. rewrite Ht.
    apply skipn_length_app. }
  split; [exact Hevs|].
  rewrite Hevs. unfold plot_events, full_precision_protocol.
  destruct ((c st mod 20 =? 0)%nat && (0 <? c st)%nat); simpl;
    split; intros H; repeat (destruct H as [H|H]; [discriminate H|]); exact H.
Qed.

(** *** [forward_sliding_window] *)

Lemma forward_sliding_window_run (x : inputs) (st : engine) :
  forward_sliding_window x st
  = (inr (tensor_add (forward (datas (model (nets st))) (fst x))
                     (forward (datas (model_t1 (nets st))) (fst x))),
     st).
Proof. reflexivity. Qed.

Lemma RMT_forward_sliding_window_run (x : inputs) (self : RMT) :
  RMT_forward_sliding_window self x
  = (tensor_add (forward (datas (rmt_model self)) (fst x))
                (forward (datas (rmt_model_ema self)) (fst x)),
     self).
Proof. reflexivity. Qed.

(** *** Argument errors of the contrastive loss *)







(** *** The weight of the student loss *)

(** C10.  [loss_calculation] sets [lambda_ce_trg] to 1 before it scales
    the student loss: whatever value the field held, the results and the
    engine after [loss_calculation] and after [forward_and_adapt] are the
    same, the field is 1 afterwards, and the student loss is exactly 1 times
    the mean of the self-training loss. *)
Theorem lambda_ce_trg_overwritten (configured : Q) (x : inputs) (st : engine) :
  loss_calculation x (set_lambda_ce_trg configured st) = loss_calculation x st /\
  forward_and_adapt x (set_lambda_ce_trg configured st) = forward_and_adapt x st /\
  lambda_ce_trg (snd (loss_calculation x st)) = 1 /\
  (forall outputs loss_stu loss_t2,
      fst (loss_calculation x st) = inr (outputs, loss_stu, loss_t2) ->
      loss_stu = 1 * self_training_mean st x).
Proof.
  assert (H : loss_calculation x (set_lambda_ce_trg configured st)
              = loss_calculation x st) by reflexivity.
  split; [exact H|]. split.
  - rewrite !forward_and_adapt_unfold. cbn [cfg set_lambda_ce_trg].
    unfold mixed_precision_branch, full_precision_branch.
    destruct (mixed_path (cfg st));
      rewrite (bind_state_eq _ _ _ _ H); reflexivity.
  - destruct (loss_calculation_run x st) as (q & l2 & Hrun & _).
    rewrite Hrun; cbn [fst snd lambda_ce_trg]. split; [reflexivity|].
    intros outputs loss_stu loss_t2.
    destruct (valid_mode (cfg st)); [|discriminate].
    intros [= _ <- _]. reflexivity.
Qed.

(** *** The queues of the engine stay within the capacity *)

Lemma preserves_queues_loss_calculation (K : nat) (x : inputs) :
  preserves (fun st => within_capacity (priority_queues st)
                       /\ max_size (priority_queues st) = K)
            (loss_calculation x).
Proof.
  intros st [Hw Hm].
  destruct (loss_calculation_run x st) as (q & l2 & Hrun & Hmax & Hcap).
  rewrite Hrun; cbn [snd priority_queues]. split; [auto | congruence].
Qed.

Lemma preserves_queues_full_precision (K : nat) (x : inputs) :
  preserves (fun st => within_capacity (priority_queues st)
                       /\ max_size (priority_queues st) = K)
            (full_precision_branch x).
Proof.
  unfold full_precision_branch.
  apply preserves_bind; [apply preserves_queues_loss_calculation|].
  intros [[outputs loss] loss_t2].
  apply preserves_bind; [apply preserves_get|]. intros graph.
  repeat (apply preserves_bind; [run_primitive|]; intros _).
  apply preserves_ret.
Qed.

Lemma preserves_queues_mixed_precision (K : nat) (x : inputs) :
  preserves (fun st => within_capacity (priority_queues st)
                       /\ max_size (priority_queues st) = K)
            (mixed_precision_branch x).
Proof.
  unfold mixed_precision_branch.
  apply preserves_bind; [apply preserves_queues_loss_calculation|].
  intros [[outputs loss] loss_t2].
  apply preserves_bind; [apply preserves_get|]. intros graph.
  repeat (apply preserves_bind; [run_primitive|]; intros _).
  apply preserves_ret.
Qed.

Lemma preserves_queues_do_call (K : nat) (k : call) :
  preserves (fun st => within_capacity (priority_queues st)
                       /\ max_size (priority_queues st) = K)
            (do_call k).
Proof.
  destruct k as [x | x]; cbn [do_call]; intros st Hst.
  - rewrite forward_and_adapt_unfold.
    assert (H : within_capacity
                  (priority_queues
                     (snd ((if mixed_path (cfg st) then mixed_precision_branch x
                            else full_precision_branch x) st)))
                /\ max_size
                     (priority_queues
                        (snd ((if mixed_path (cfg st) then mixed_precision_branch x
                               else full_precision_branch x) st))) = K).
    { destruct (mixed_path (cfg st));
        [now apply preserves_queues_mixed_precision
        | now apply preserves_queues_full_precision]. }
    destruct ((if mixed_path (cfg st) then mixed_precision_branch x
               else full_precision_branch x) st) as [[e|o] s1];
      cbn [fst snd] in *; exact H.
  - exact Hst.
Qed.

(** Whatever the engine is called with after construction, every class
    queue holds at most 10 entries. *)
Lemma run_queues_within_capacity (K : nat) (calls : list call) (st : engine) :
  within_capacity (priority_queues st) -> max_size (priority_queues st) = K ->
  within_capacity (priority_queues (run calls st))
  /\ max_size (priority_queues (run calls st)) = K.
Proof.
  revert st; induction calls as [|k calls IH]; intros st Hw Hm; [now split|].
  cbn [run fold_left]. fold (run calls (snd (do_call k st))).
  destruct (preserves_queues_do_call K k st (conj Hw Hm)) as [Hw' Hm'].
  now apply IH.
Qed.

(** *** Construction *)

Lemma datas_update_nth_flag (b : bool) (i : nat) (n : network) :
  datas (update_nth (set_requires_grad b) i n) = datas n.
Proof.
  revert i; induction n as [|p n IH]; intros [|i]; simpl; try reflexivity.
  f_equal. apply IH.
Qed.

Lemma datas_requires_grad_ (b : bool) (ids : list nat) (n : network) :
  datas (requires_grad_ b ids n) = datas n.
Proof.
  unfold requires_grad_. revert n; induction ids as [|i ids IH]; intros n; simpl;
    [reflexivity|].
  rewrite IH. apply datas_update_nth_flag.
Qed.

Lemma datas_configure_model (a : arch) (n : network) (bn : option bool) :
  datas (configure_model a n bn) = datas n.
Proof.
  unfold configure_model.
  assert (H0 : datas (map (set_requires_grad false) n) = datas n).
  { unfold datas. rewrite map_map. apply map_ext. reflexivity. }
  rewrite <- H0. generalize (map (set_requires_grad false) n) as n0.
  induction (modules a) as [|m ms IH]; intros n0; simpl; [reflexivity|].
  rewrite IH.
  destruct (fst m), bn as [[|]|]; rewrite ?datas_requires_grad_; reflexivity.
Qed.

Lemma datas_detach_copy (n : network) : datas (map detach_ (copy_model n)) = datas n.
Proof.
  unfold datas, copy_model. rewrite !map_map. apply map_ext. reflexivity.
Qed.

Lemma detached_detach_copy (n : network) : detached (map detach_ (copy_model n)).
Proof.
  unfold detached, copy_model. rewrite map_map.
  apply Forall_forall. intros p Hp. apply in_map_iff in Hp as (q & <- & _).
  split; reflexivity.
Qed.

Lemma refs_pair_other (i j : model_id) (ids : list nat) :
  j <> i -> Forall (fun r : ref => fst r <> i) (map (pair j) ids).
Proof.
  intros H. apply Forall_forall. intros r Hr.
  apply in_map_iff in Hr as (k & <- & _). exact H.
Qed.

Lemma Ours_init_spec (cf : config) (LAMBDA LR : Q) (a : arch) (ds : string)
    (model0 : network) (base_params : list nat) (scaler0 : Q)
    (projector0 : network) (st0 : engine) :
  Ours_init cf LAMBDA LR a ds model0 base_params scaler0 projector0 = inr st0 ->
  cfg st0 = cf /\ c st0 = 0%nat /\ lambda_ce_trg st0 = LAMBDA /\
  model_t1 (nets st0) = map detach_ (copy_model model0) /\
  model_s (nets st0) = configure_model a (map detach_ (copy_model model0)) None /\
  priority_queues st0 = init_pqs (num_classes cf) 10 /\
  no_optimizer_on ModelT1 (opts st0).
Proof.
  unfold Ours_init.
  destruct (String.eqb ds "cifar10_c" || String.eqb ds "cifar100_c");
    [|discriminate].
  destruct (0 <? length (collect_params
                           (configure_model a (map detach_ (copy_model model0))
                                            (Some true))))%nat;
    [|discriminate].
  intros [= <-].
  cbn [cfg c lambda_ce_trg nets opts priority_queues model_t1 model_s].
  repeat (split; [reflexivity|]).
  intros o v Ho.
  destruct o;
    cbn [get_opt optimizer optimizer_t2 optimizer_backbone_t2
         optimizer_classifier_t2 optimizer_bn] in Ho.
  5: destruct (0 <? length
                      (collect_params
                         (configure_model a (map detach_ (copy_model model0)) None)))%nat;
       [|discriminate Ho].
  all: injection Ho as <-; unfold refs_of, setup_optimizer;
    cbn [param_groups app flat_map fst];
    repeat (apply Forall_app; split); try apply Forall_nil;
    apply refs_pair_other; discriminate.
Qed.

(** C5.  After construction and any sequence of calls of
    [forward_and_adapt] and [forward_sliding_window], returning or raising:
    T1 is the EMA fold, with the configured momentum, of the students that
    the returning adaptation steps produced, started from the constructor's
    copy, whose values are those of the student's copy; no parameter of T1
    requires a gradient or has a gradient buffer; and no optimizer of the
    engine references a parameter of T1.  Entry by entry, T1 is the weighted
    sum of its first value, with weight [m ^ n], and of the [n] student
    values, the one [k] steps before the last with weight
    [(1 - m) * m ^ k]. *)
Theorem t1_changes_only_by_ema (cf : config) (LAMBDA LR : Q) (a : arch)
    (ds : string) (model0 : network) (base_params : list nat) (scaler0 : Q)
    (projector0 : network) (st0 : engine) (calls : list call) :
  Ours_init cf LAMBDA LR a ds model0 base_params scaler0 projector0 = inr st0 ->
  let st := run calls st0 in
  datas (model_t1 (nets st0)) = datas (model_s (nets st0)) /\
  model_t1 (nets st)
  = ema_fold (m_teacher_momentum cf) (model_t1 (nets st0))
             (merged_students calls st0) /\
  detached (model_t1 (nets st)) /\
  no_optimizer_on ModelT1 (opts st) /\
  (forall i j e0 vs,
      component (model_t1 (nets st0)) i j = Some e0 ->
      Forall2 (fun s v => component s i j = Some v) (merged_students calls st0) vs ->
      exists e,
        component (model_t1 (nets st)) i j = Some e /\
        e == Qpow (m_teacher_momentum cf) (length vs) * e0
             + weighted_sum (m_teacher_momentum cf) vs).
Proof.
  intros Hinit st.
  destruct (Ours_init_spec _ _ _ _ _ _ _ _ _ _ Hinit)
    as (Hcf & _ & _ & Ht1 & Hs & _ & Hopt).
  split.
  - rewrite Ht1, Hs, datas_configure_model. reflexivity.
  - assert (H0 : t1_is (model_t1 (nets st0)) st0).
    { split; [reflexivity|]. split; [|exact Hopt].
      rewrite Ht1. apply detached_detach_copy. }
    destruct (run_t1 calls st0 H0) as [_ (H1 & H2 & H3)].
    rewrite Hcf in H1, H2. fold st in H1, H3.
    split; [exact H1|]. split; [rewrite H1; exact H2|]. split; [exact H3|].
    intros i j e0 vs He0 Hvs. eexists. split.
    + rewrite H1. apply ema_fold_component; eassumption.
    + apply ema_scalar_closed_form.
Qed.

(** C3.  Starting from the store of the constructor, [init_pqs num_classes
    K], and after any sequence of [update] and eviction-round calls, the
    capacity is still [K] and every class queue holds at most [K] entries.
    The engine builds its store with [K = 10]: after construction and any
    sequence of its calls, every class queue holds at most 10 entries. *)
Theorem queues_within_capacity (num_classes K : nat) (ops : list store_op)
    (cf : config) (LAMBDA LR : Q) (a : arch) (ds : string) (model0 : network)
    (base_params : list nat) (scaler0 : Q) (projector0 : network)
    (st0 : engine) (calls : list call) :
  (let s := run_ops ops (init_pqs num_classes K) in
   max_size s = K /\ Forall (fun q => (length q <= K)%nat) (queues s)) /\
  (Ours_init cf LAMBDA LR a ds model0 base_params scaler0 projector0 = inr st0 ->
   let s := priority_queues (run calls st0) in
   max_size s = 10%nat /\ Forall (fun q => (length q <= 10)%nat) (queues s)).
Proof.
  split.
  - intros s.
    destruct (run_ops_invariant ops (init_pqs num_classes K)
                (init_pqs_within_capacity _ _)) as [H1 H2].
    fold s in H1, H2. simpl in H2. split; [exact H2|].
    unfold within_capacity in H1. rewrite H2 in H1. exact H1.
  - intros Hinit s.
    destruct (Ours_init_spec _ _ _ _ _ _ _ _ _ _ Hinit)
      as (_ & _ & _ & _ & _ & Hq & _).
    destruct (run_queues_within_capacity 10 calls st0) as [Hw Hm].
    + rewrite Hq. apply init_pqs_within_capacity.
    + rewrite Hq. reflexivity.
    + fold s in Hw, Hm. split; [exact Hm|].
      unfold within_capacity in Hw. rewrite Hm in Hw. exact Hw.
Qed.

End EngineProperties.

(** ** Further properties of the engine *)

Section StepFrame.

Context {E : Collaborators}.

Local Abbreviation engine := (Ours opt_state).

(** *** Which parameter values a step can write *)

Lemma nth_error_update_nth_other {A : Type} (f : A -> A) (i j : nat) (l : list A) :
  i <> j -> nth_error (update_nth f i l) j = nth_error l j.
Proof.
  revert i j; induction l as [|a l IH]; intros [|i] [|j] H; simpl; auto.
  congruence.
Qed.

Lemma datas_update_nth_keep (f : param -> param) (i : nat) (n : network) :
  (forall p, data (f p) = data p) -> datas (update_nth f i n) = datas n.
Proof.
  intros Hf; revert i; induction n as [|p n IH]; intros [|i]; simpl;
    try reflexivity.
  - now rewrite Hf.
  - now rewrite IH.
Qed.

Lemma data_at_update_ref_keep (f : param -> param) (r r' : ref) (s : store) :
  (forall p, data (f p) = data p) ->
  data_at r (update_ref f r' s) = data_at r s.
Proof.
  intros Hf. unfold data_at, update_ref. destruct r as [i k], r' as [j k'].
  destruct i, j; simpl; rewrite ?datas_update_nth_keep by exact Hf; reflexivity.
Qed.

Lemma data_at_update_ref_other (f : param -> param) (r r' : ref) (s : store) :
  r <> r' -> data_at r (update_ref f r' s) = data_at r s.
Proof.
  intros Hr. unfold data_at, update_ref. destruct r as [i k], r' as [j k'].
  assert (Hk : i = j -> k' <> k) by (intros -> ->; now apply Hr).
  unfold datas.
  destruct i, j; simpl; try reflexivity;
    rewrite !nth_error_map, nth_error_update_nth_other by (now apply Hk);
    reflexivity.
Qed.

Lemma data_at_fold_other (f : ref -> param -> param) (rs : list ref) (r : ref)
    (s : store) :
  ~ In r rs ->
  data_at r (fold_left (fun s r' => update_ref (f r') r' s) rs s) = data_at r s.
Proof.
  revert s; induction rs as [|r' rs IH]; intros s H; simpl; [reflexivity|].
  rewrite IH by (intros Hin; apply H; now right).
  apply data_at_update_ref_other. intros ->. apply H. now left.
Qed.

Lemma data_at_fold_keep (f : param -> param) (rs : list ref) (r : ref) (s : store) :
  (forall p, data (f p) = data p) ->
  data_at r (fold_left (fun s r' => update_ref f r' s) rs s) = data_at r s.
Proof.
  intros Hf; revert s; induction rs as [|r' rs IH]; intros s; simpl;
    [reflexivity|].
  rewrite IH. now apply data_at_update_ref_keep.
Qed.

Lemma data_at_apply_step (o : optim opt_state) (r : ref) (s : store) :
  ~ In r (refs_of o) -> data_at r (apply_step o s) = data_at r s.
Proof.
  unfold apply_step, refs_of. generalize (ostate o) as os. intros os.
  induction (param_groups o) as [|g gs IH] in s |- *; simpl; intros H;
    [reflexivity|].
  rewrite IH by (intros Hin; apply H, in_or_app; now right).
  apply (data_at_fold_other (fun r' => step_param os (snd g) r')).
  intros Hin; apply H, in_or_app; now left.
Qed.

Lemma datas_map_indexed (f : nat -> param -> param) (n : network) (k : nat) :
  (forall i p, data (f i p) = data p) ->
  datas (map (fun ip : nat * param => f (fst ip) (snd ip))
             (combine (seq k (length n)) n)) = datas n.
Proof.
  intros Hf; revert k; induction n as [|p n IH]; intros k; simpl;
    [reflexivity|].
  now rewrite Hf, IH.
Qed.

Lemma accumulate_data (sc : Q) (g : ref -> option tensor) (r : ref) (p : param) :
  data (accumulate sc g r p) = data p.
Proof.
  unfold accumulate. destruct (requires_grad p); [|reflexivity].
  destruct (g r); reflexivity.
Qed.

Lemma datas_map_store_accumulate (sc : Q) (g : ref -> option tensor)
    (i : model_id) (s : store) :
  datas (get_model i (map_store (accumulate sc g) s)) = datas (get_model i s).
Proof.
  unfold map_store.
  destruct i; cbn [get_model model model_s model_t1 model_t2 projector];
    match goal with
    | |- datas (map _ (combine (seq 0 (length ?n)) ?n)) = _ =>
        apply (datas_map_indexed
                 (fun k p => accumulate sc g (_, k) p) n 0%nat)
    end; intros k p; apply accumulate_data.
Qed.

Lemma data_at_map_store_accumulate (sc : Q) (g : ref -> option tensor) (r : ref)
    (s : store) :
  data_at r (map_store (accumulate sc g) s) = data_at r s.
Proof. unfold data_at. now rewrite datas_map_store_accumulate. Qed.

Lemma unreferenced_by_set_opt (ids : list opt_id) (r : ref) (o : opt_id)
    (v w : optim opt_state) (os : optimizers opt_state) :
  get_opt o os = Some v -> param_groups w = param_groups v ->
  unreferenced_by ids r os -> unreferenced_by ids r (set_opt o w os).
Proof.
  intros Ho Hw H o' v' Hin Ho'.
  assert (Hrefs : refs_of w = refs_of v) by (unfold refs_of; now rewrite Hw).
  rewrite get_opt_set_opt in Ho'.
  destruct (opt_id_eqb o' o) eqn:Heq.
  - injection Ho' as <-. rewrite Hrefs.
    assert (o' = o) by (destruct o', o; discriminate || reflexivity).
    subst o'. now apply (H o v).
  - now apply (H o' v').
Qed.

(** The values at [r] are [d] and no optimizer of [ids] references [r]. *)
Local Abbreviation kept r d ids :=
  (fun st : engine => data_at r (nets st) = d /\ unreferenced_by ids r (opts st)).

Lemma kept_backward (r : ref) (d : option tensor) (ids : list opt_id)
    (l : loss_id) (g : engine) (x : batch) :
  preserves (kept r d ids) (backward l g x).
Proof.
  apply preserves_modify. intros st [H1 H2]. split; [|exact H2].
  cbn [log set_nets nets]. now rewrite data_at_map_store_accumulate.
Qed.

Lemma kept_scaled_backward (r : ref) (d : option tensor) (ids : list opt_id)
    (l : loss_id) (g : engine) (x : batch) :
  preserves (kept r d ids) (scaled_backward l g x).
Proof.
  apply preserves_modify. intros st [H1 H2]. split; [|exact H2].
  cbn [log set_nets nets]. now rewrite data_at_map_store_accumulate.
Qed.

Lemma kept_scaler_update (r : ref) (d : option tensor) (ids : list opt_id) :
  preserves (kept r d ids) scaler_update.
Proof. apply preserves_modify. intros st H; exact H. Qed.

Lemma clear_grad_data (p : param) : data (clear_grad p) = data p.
Proof. reflexivity. Qed.

Lemma unscale_data (s : Q) (p : param) : data (unscale s p) = data p.
Proof. reflexivity. Qed.

Lemma kept_zero_grad (r : ref) (d : option tensor) (ids : list opt_id) (o : opt_id) :
  preserves (kept r d ids) (zero_grad o).
Proof.
  intros st [H1 H2].
  unfold zero_grad, attr, bind, get, modify, ret, raise.
  destruct (get_opt o (opts st)) as [v|] eqn:Ho; cbn [fst snd];
    [|split; assumption].
  split; [|exact H2]. cbn [log set_nets nets].
  rewrite (data_at_fold_keep clear_grad) by apply clear_grad_data. exact H1.
Qed.

Lemma kept_step (r : ref) (d : option tensor) (ids : list opt_id) (o : opt_id) :
  In o ids -> preserves (kept r d ids) (step o).
Proof.
  intros Hin st [H1 H2].
  unfold step, attr, bind, get, modify, ret, raise.
  destruct (get_opt o (opts st)) as [v|] eqn:Ho; cbn [fst snd];
    [|split; assumption].
  split; cbn [log set_nets set_opts nets opts].
  - rewrite data_at_apply_step by (now apply (H2 o v)). exact H1.
  - eapply unreferenced_by_set_opt; try eassumption. reflexivity.
Qed.

Lemma kept_scaler_step (r : ref) (d : option tensor) (ids : list opt_id)
    (o : opt_id) :
  In o ids -> preserves (kept r d ids) (scaler_step o).
Proof.
  intros Hin st [H1 H2].
  unfold scaler_step, attr, bind, get, modify, ret, raise.
  destruct (get_opt o (opts st)) as [v|] eqn:Ho; cbn [fst snd];
    [|split; assumption].
  split; cbn [log set_nets set_opts nets opts].
  - rewrite data_at_apply_step.
    + rewrite (data_at_fold_keep (unscale (scaler st))).
      * exact H1.
      * apply unscale_data.
    + apply (H2 o v); assumption.
  - eapply unreferenced_by_set_opt; try eassumption. reflexivity.
Qed.

Lemma kept_loss_calculation (r : ref) (d : option tensor) (ids : list opt_id)
    (x : inputs) :
  preserves (kept r d ids) (loss_calculation x).
Proof. apply preserves_loss_calculation. intros st l q t H; exact H. Qed.

Lemma kept_full_precision (r : ref) (d : option tensor) (x : inputs) :
  preserves (kept r d [OptimizerBn; OptimizerBackboneT2]) (full_precision_branch x).
Proof.
  unfold full_precision_branch.
  apply preserves_bind; [apply kept_loss_calculation|].
  intros [[outputs loss] loss_t2].
  apply preserves_bind; [apply preserves_get|]. intros graph.
  repeat (apply preserves_bind;
          [first [apply kept_backward | apply kept_zero_grad
                 | apply kept_step; simpl; tauto]|]; intros _).
  apply preserves_ret.
Qed.

Lemma kept_mixed_precision (r : ref) (d : option tensor) (x : inputs) :
  preserves (kept r d [Optimizer]) (mixed_precision_branch x).
Proof.
  unfold mixed_precision_branch.
  apply preserves_bind; [apply kept_loss_calculation|].
  intros [[outputs loss] loss_t2].
  apply preserves_bind; [apply preserves_get|]. intros graph.
  repeat (apply preserves_bind;
          [first [apply kept_scaled_backward | apply kept_zero_grad
                 | apply kept_scaler_update
                 | apply kept_scaler_step; simpl; tauto]|]; intros _).
  apply preserves_ret.
Qed.

Lemma data_at_ema_step (r : ref) (st : engine) :
  fst r <> ModelT1 -> data_at r (nets (ema_step st)) = data_at r (nets st).
Proof.
  intros H. unfold data_at, ema_step; cbn [log set_nets nets].
  destruct r as [i k]; destruct i; simpl in *; congruence.
Qed.

Lemma kept_do_call (r : ref) (d : option tensor) (k : call) (st : engine) :
  fst r <> ModelT1 ->
  kept r d (stepping (cfg st)) st ->
  cfg (snd (do_call k st)) = cfg st /\
  kept r d (stepping (cfg st)) (snd (do_call k st)).
Proof.
  intros Hr Hst. destruct k as [x | x]; cbn [do_call]; [|now split].
  rewrite forward_and_adapt_unfold. unfold stepping in *.
  assert (H : cfg (snd ((if mixed_path (cfg st) then mixed_precision_branch x
                         else full_precision_branch x) st)) = cfg st
              /\ kept r d (if mixed_path (cfg st) then [Optimizer]
                           else [OptimizerBn; OptimizerBackboneT2])
                      (snd ((if mixed_path (cfg st) then mixed_precision_branch x
                             else full_precision_branch x) st))).
  { destruct (mixed_path (cfg st)); split.
    - now apply preserves_cfg_mixed_precision.
    - apply kept_mixed_precision. exact Hst.
    - now apply preserves_cfg_full_precision.
    - apply kept_full_precision. exact Hst. }
  clear Hst.
  destruct ((if mixed_path (cfg st) then mixed_precision_branch x
             else full_precision_branch x) st) as [[e|o] s1];
    cbn [fst snd] in H |- *; destruct H as (Hc & H1 & H2).
  - split; [exact Hc|]. split; assumption.
  - split; [exact Hc|]. cbn [set_c nets opts]. split.
    + rewrite data_at_ema_step by exact Hr. exact H1.
    + exact H2.
Qed.

Lemma kept_run (r : ref) (d : option tensor) (calls : list call) (st : engine) :
  fst r <> ModelT1 ->
  kept r d (stepping (cfg st)) st ->
  cfg (run calls st) = cfg st /\ kept r d (stepping (cfg st)) (run calls st).
Proof.
  intros Hr. revert st; induction calls as [|k calls IH]; intros st Hst;
    [now split|].
  cbn [run fold_left]. fold (run calls (snd (do_call k st))).
  destruct (kept_do_call r d k st Hr Hst) as [Hc Hk].
  rewrite <- Hc in Hk. destruct (IH _ Hk) as [Hc' Hk'].
  rewrite Hc in Hc', Hk'. now split.
Qed.

(** X1.  Whatever sequence of calls the engine receives, the values of a
    parameter that is not one of T1's and that the stepping optimizers do
    not reference ([self.optimizer] on the mixed-precision branch,
    [optimizer_bn] and [optimizer_backbone_t2] on the other) are never
    written: backward passes only touch gradient buffers, [zero_grad] only
    clears them, and the EMA merge only writes T1. *)
Theorem unreferenced_parameter_never_written (r : ref) (calls : list call)
    (st : engine) :
  fst r <> ModelT1 ->
  unreferenced_by (stepping (cfg st)) r (opts st) ->
  data_at r (nets (run calls st)) = data_at r (nets st) /\
  unreferenced_by (stepping (cfg st)) r (opts (run calls st)).
Proof.
  intros Hr Hu.
  destruct (kept_run r (data_at r (nets st)) calls st Hr (conj eq_refl Hu))
    as [_ H].
  exact H.
Qed.

End StepFrame.

Section ConstructedEngine.

Context {E : Collaborators}.

Local Abbreviation engine := (Ours opt_state).

(** *** Networks that no stepping optimizer references *)

Lemma network_never_written (i : model_id) (calls : list call) (st : engine) :
  i <> ModelT1 ->
  (forall o v, In o (stepping (cfg st)) -> get_opt o (opts st) = Some v ->
               Forall (fun r => fst r <> i) (refs_of v)) ->
  datas (get_model i (nets (run calls st))) = datas (get_model i (nets st)).
Proof.
  intros Hi Hrefs. apply nth_error_ext. intros k.
  apply (unreferenced_parameter_never_written (i, k) calls st Hi).
  intros o v Hin Ho Hr.
  specialize (Hrefs o v Hin Ho). rewrite Forall_forall in Hrefs.
  now apply (Hrefs _ Hr).
Qed.

Lemma Ours_init_networks (cf : config) (LAMBDA LR : Q) (a : arch) (ds : string)
    (model0 : network) (base_params : list nat) (scaler0 : Q)
    (projector0 : network) (st0 : engine) :
  Ours_init cf LAMBDA LR a ds model0 base_params scaler0 projector0 = inr st0 ->
  model (nets st0) = model0 /\
  projector (nets st0) = projector0 /\
  model_t2 (nets st0) = configure_model a (map detach_ (copy_model model0)) (Some true) /\
  refs_of (optimizer (opts st0)) = map (pair Model) base_params /\
  refs_of (optimizer_backbone_t2 (opts st0)) = map (pair ModelT2) (backbone_params a) /\
  (forall v, optimizer_bn (opts st0) = Some v ->
             exists ids, refs_of v = map (pair ModelS) ids).
Proof.
  unfold Ours_init.
  destruct (String.eqb ds "cifar10_c" || String.eqb ds "cifar100_c");
    [|discriminate].
  destruct (0 <? length (collect_params
                           (configure_model a (map detach_ (copy_model model0))
                                            (Some true))))%nat;
    [|discriminate].
  intros [= <-].
  cbn [nets opts model projector model_t2 optimizer optimizer_backbone_t2
       optimizer_bn].
  repeat (split; [first [reflexivity
                        | unfold refs_of, setup_optimizer;
                          cbn [param_groups flat_map fst]; apply app_nil_r]|]).
  intros v.
  destruct (0 <? length
                   (collect_params
                      (configure_model a (map detach_ (copy_model model0)) None)))%nat;
    [|discriminate].
  intros [= <-]. eexists. unfold refs_of, setup_optimizer.
  cbn [param_groups flat_map fst]. apply app_nil_r.
Qed.

Lemma Forall_pair_other (i j : model_id) (ids : list nat) :
  j <> i -> Forall (fun r : ref => fst r <> i) (map (pair j) ids).
Proof.
  intros H. apply Forall_forall. intros r Hr.
  apply in_map_iff in Hr as (k & <- & _). exact H.
Qed.

(** X2.  In an engine built by the constructor the projector is never
    trained: whatever calls follow, its values are those it was built with
    (its parameters are only given to [optimizer_t2], which never steps).  On
    the full-precision branch the network handed to the constructor keeps
    its values too, and so does every parameter of T2 outside the backbone
    half of [split_up_model]. *)
Theorem projector_never_trained (cf : config) (LAMBDA LR : Q) (a : arch)
    (ds : string) (model0 : network) (base_params : list nat) (scaler0 : Q)
    (projector0 : network) (st0 : engine) (calls : list call) :
  Ours_init cf LAMBDA LR a ds model0 base_params scaler0 projector0 = inr st0 ->
  let st := run calls st0 in
  datas (projector (nets st)) = datas projector0 /\
  (mixed_path cf = false ->
   datas (model (nets st)) = datas model0 /\
   forall k, ~ In k (backbone_params a) ->
             nth_error (datas (model_t2 (nets st))) k = nth_error (datas model0) k).
Proof.
  intros Hinit st.
  destruct (Ours_init_spec _ _ _ _ _ _ _ _ _ _ Hinit) as (Hcf & _).
  destruct (Ours_init_networks _ _ _ _ _ _ _ _ _ _ Hinit)
    as (Hm & Hp & Ht2 & Ho & Hb & Hbn).
  assert (Hstep : forall i, i <> Model -> i <> ModelS -> i <> ModelT2 ->
            forall o v, In o (stepping (cfg st0)) -> get_opt o (opts st0) = Some v ->
                        Forall (fun r => fst r <> i) (refs_of v)).
  { intros i H1 H2 H3 o v Hin Hv. unfold stepping in Hin.
    destruct (mixed_path (cfg st0)); simpl in Hin;
      repeat (destruct Hin as [<- | Hin]; [|]); try contradiction;
      cbn [get_opt] in Hv.
    - injection Hv as <-. rewrite Ho. now apply Forall_pair_other.
    - destruct (Hbn _ Hv) as [ids ->]. now apply Forall_pair_other.
    - injection Hv as <-. rewrite Hb. now apply Forall_pair_other. }
  split.
  - rewrite <- Hp.
    apply (network_never_written Projector calls st0); [discriminate|].
    apply Hstep; discriminate.
  - intros Hmixed. rewrite <- Hcf in Hmixed. split.
    + rewrite <- Hm.
      apply (network_never_written Model calls st0); [discriminate|].
      intros o v Hin Hv. unfold stepping in Hin. rewrite Hmixed in Hin.
      simpl in Hin. destruct Hin as [<- | [<- | []]]; cbn [get_opt] in Hv.
      * destruct (Hbn _ Hv) as [ids ->]. now apply Forall_pair_other.
      * injection Hv as <-. rewrite Hb. now apply Forall_pair_other.
    + intros k Hk.
      assert (H0 : nth_error (datas (model_t2 (nets st0))) k
                   = nth_error (datas model0) k).
      { rewrite Ht2, datas_configure_model, datas_detach_copy. reflexivity. }
      rewrite <- H0.
      apply (unreferenced_parameter_never_written (ModelT2, k) calls st0);
        [discriminate|].
      intros o v Hin Hv Hr. unfold stepping in Hin. rewrite Hmixed in Hin.
      simpl in Hin. destruct Hin as [<- | [<- | []]]; cbn [get_opt] in Hv.
      * destruct (Hbn _ Hv) as [ids Hids]. rewrite Hids in Hr.
        apply in_map_iff in Hr as (k' & Hk' & _). discriminate Hk'.
      * injection Hv as <-. rewrite Hb in Hr.
        apply in_map_iff in Hr as (k' & Hk' & Hin'). injection Hk' as <-.
        contradiction.
Qed.

(** *** The mixed-precision branch trains none of the three networks *)

Lemma tensor_eq_refl (t : tensor) : tensor_eq t t.
Proof. induction t; constructor; [reflexivity | assumption]. Qed.

Lemma model_data_eq_of_datas (s x : network) :
  datas s = datas x -> model_data_eq s x.
Proof.
  revert x; induction s as [|p s IH]; intros [|q x]; simpl; try discriminate.
  - constructor.
  - intros [= H1 H2]. constructor; [rewrite H1; apply tensor_eq_refl | now apply IH].
Qed.

Lemma ema_tensor_fixed (m : Q) (e s x : tensor) :
  tensor_eq e x -> tensor_eq s x -> tensor_eq (ema_tensor m e s) x.
Proof.
  intros He; revert s; induction He as [|a b e x Hab _ IH]; intros s Hs.
  - constructor.
  - inversion Hs as [|a' b' s' x' Hab' Hs' Heq1 Heq2]; subst. simpl.
    constructor; [rewrite Hab, Hab'; ring | now apply IH].
Qed.

Lemma ema_update_model_fixed (m : Q) (t s x : network) :
  model_data_eq t x -> model_data_eq s x ->
  model_data_eq (ema_update_model t s m) x.
Proof.
  intros Ht; revert s; induction Ht as [|p q t x Hpq _ IH]; intros s Hs.
  - inversion Hs; subst. exact (Forall2_nil _).
  - inversion Hs as [|p' q' s' x' Hpq' Hs' Heq1 Heq2]; subst.
    rewrite ema_update_model_cons. constructor.
    + cbn [data set_data]. now apply ema_tensor_fixed.
    + now apply IH.
Qed.

Lemma ema_fold_fixed (m : Q) (t x : network) (history : list network) :
  model_data_eq t x -> Forall (fun s => model_data_eq s x) history ->
  model_data_eq (ema_fold m t history) x.
Proof.
  intros Ht H; revert t Ht. unfold ema_fold.
  induction H as [|s history Hs _ IH]; intros t Ht; simpl; [exact Ht|].
  apply IH. now apply ema_update_model_fixed.
Qed.

Lemma merged_students_frozen (calls : list call) (st : engine) :
  (forall o v, In o (stepping (cfg st)) -> get_opt o (opts st) = Some v ->
               Forall (fun r => fst r <> ModelS) (refs_of v)) ->
  Forall (fun s => datas s = datas (model_s (nets st))) (merged_students calls st).
Proof.
  revert st; induction calls as [|k calls IH]; intros st Hrefs;
    [constructor|].
  assert (Hone : datas (model_s (nets (snd (do_call k st))))
                 = datas (model_s (nets st))).
  { apply (network_never_written ModelS [k] st); [discriminate | exact Hrefs]. }
  assert (Hrefs' : forall o v,
             In o (stepping (cfg (snd (do_call k st)))) ->
             get_opt o (opts (snd (do_call k st))) = Some v ->
             Forall (fun r => fst r <> ModelS) (refs_of v)).
  { intros o v Hin Hv. apply Forall_forall. intros r Hr Hfst.
    destruct r as [i n]; simpl in Hfst; subst i.
    assert (Hu : unreferenced_by (stepping (cfg st)) (ModelS, n) (opts st)).
    { intros o' v' Hin' Hv' Hr'. specialize (Hrefs o' v' Hin' Hv').
      rewrite Forall_forall in Hrefs. now apply (Hrefs _ Hr'). }
    destruct (kept_do_call (ModelS, n) (data_at (ModelS, n) (nets st)) k st)
      as [Hc [_ Hk]]; [discriminate | now split |].
    rewrite Hc in Hin. exact (Hk o v Hin Hv Hr). }
  cbn [merged_students]. apply Forall_app. split.
  - destruct k as [x | x]; [|constructor].
    destruct (fst (do_call (Adapt x) st)); constructor; [exact Hone | constructor].
  - specialize (IH _ Hrefs'). rewrite Hone in IH. exact IH.
Qed.

(** X3.  In an engine built by the constructor with mixed precision on
    "cuda", no call ever trains the student or T2: the only optimizer that
    steps is the base class's [self.optimizer], which holds parameters of
    [self.model].  The student and T2 keep the values of the network handed
    to the constructor, and T1, an average of equal students, keeps them as
    well. *)
Theorem mixed_precision_trains_nothing (cf : config) (LAMBDA LR : Q) (a : arch)
    (ds : string) (model0 : network) (base_params : list nat) (scaler0 : Q)
    (projector0 : network) (st0 : engine) (calls : list call) :
  Ours_init cf LAMBDA LR a ds model0 base_params scaler0 projector0 = inr st0 ->
  mixed_path cf = true ->
  let st := run calls st0 in
  datas (model_s (nets st)) = datas model0 /\
  datas (model_t2 (nets st)) = datas model0 /\
  model_data_eq (model_t1 (nets st)) model0.
Proof.
  intros Hinit Hmixed st.
  destruct (Ours_init_spec _ _ _ _ _ _ _ _ _ _ Hinit)
    as (Hcf & _ & _ & Ht1 & Hs & _ & Hopt).
  destruct (Ours_init_networks _ _ _ _ _ _ _ _ _ _ Hinit)
    as (Hm & Hp & Ht2 & Ho & Hb & Hbn).
  assert (Hstep : forall i, i <> Model ->
            forall o v, In o (stepping (cfg st0)) -> get_opt o (opts st0) = Some v ->
                        Forall (fun r => fst r <> i) (refs_of v)).
  { intros i Hi o v Hin Hv. unfold stepping in Hin.
    rewrite Hcf, Hmixed in Hin. simpl in Hin. destruct Hin as [<- | []].
    cbn [get_opt] in Hv. injection Hv as <-. rewrite Ho.
    now apply Forall_pair_other. }
  assert (Hs0 : datas (model_s (nets st0)) = datas model0)
    by (rewrite Hs, datas_configure_model; apply datas_detach_copy).
  split; [|split].
  - rewrite <- Hs0.
    apply (network_never_written ModelS calls st0); [discriminate|].
    apply Hstep; discriminate.
  - assert (H0 : datas (model_t2 (nets st0)) = datas model0)
      by (rewrite Ht2, datas_configure_model; apply datas_detach_copy).
    rewrite <- H0.
    apply (network_never_written ModelT2 calls st0); [discriminate|].
    apply Hstep; discriminate.
  - assert (H0 : t1_is (model_t1 (nets st0)) st0).
    { split; [reflexivity|]. split; [|exact Hopt].
      rewrite Ht1. apply detached_detach_copy. }
    destruct (run_t1 calls st0 H0) as [_ (H1 & _)]. fold st in H1. rewrite H1.
    apply ema_fold_fixed.
    + apply model_data_eq_of_datas. rewrite Ht1. apply datas_detach_copy.
    + pose proof (merged_students_frozen calls st0
                    (Hstep ModelS ltac:(discriminate))) as Hfro.
      eapply Forall_impl; [|exact Hfro].
      intros s Hsd. apply model_data_eq_of_datas. now rewrite Hsd.
Qed.

(** *** The step counter *)

Ltac keeps_counter :=
  unfold step, zero_grad, scaler_step, scaler_update, backward, scaled_backward,
         attr, bind, get, modify, ret, raise;
  intros st Hst;
  try match goal with
      | |- context [get_opt ?o (opts st)] => destruct (get_opt o (opts st))
      end;
  exact Hst.

Lemma preserves_c_branches (n : nat) (x : inputs) :
  preserves (fun st => c st = n) (full_precision_branch x) /\
  preserves (fun st => c st = n) (mixed_precision_branch x).
Proof.
  split; [unfold full_precision_branch | unfold mixed_precision_branch];
    (apply preserves_bind;
     [apply preserves_loss_calculation; intros st l q t H; exact H|]);
    intros [[outputs loss] loss_t2];
    (apply preserves_bind; [apply preserves_get|]); intros graph;
    repeat (apply preserves_bind; [keeps_counter|]; intros _);
    apply preserves_ret.
Qed.

Lemma forward_and_adapt_counter (x : inputs) (st : engine) :
  c (snd (forward_and_adapt x st))
  = match fst (forward_and_adapt x st) with
    | inl _ => c st
    | inr _ => S (c st)
    end.
Proof.
  rewrite forward_and_adapt_unfold.
  destruct (preserves_c_branches (c st) x) as [Hf Hm].
  specialize (Hf st eq_refl). specialize (Hm st eq_refl).
  destruct (mixed_path (cfg st)).
  - destruct (mixed_precision_branch x st) as [[e|o] s1]; cbn [fst snd] in *;
      [exact Hm|].
    unfold ema_step; cbn [set_c c log set_nets]. lia.
  - destruct (full_precision_branch x st) as [[e|o] s1]; cbn [fst snd] in *;
      [exact Hf|].
    unfold ema_step; cbn [set_c c log set_nets]. lia.
Qed.

(** X4.  [self.c] counts the adaptation steps that returned: a call of
    [forward_and_adapt] that returns adds one, a call that raises and a call
    of [forward_sliding_window] leave it, so after any run it is the start
    value plus the number of returned steps. *)
Theorem step_counter_counts_returned_steps (calls : list call) (x : inputs)
    (st : engine) :
  c (snd (forward_and_adapt x st))
  = match fst (forward_and_adapt x st) with
    | inl _ => c st
    | inr _ => S (c st)
    end /\
  c (snd (forward_sliding_window x st)) = c st /\
  c (run calls st) = (c st + returned_steps calls st)%nat.
Proof.
  split; [|split].
  - apply forward_and_adapt_counter.
  - reflexivity.
  - unfold returned_steps. clear x.
    revert st; induction calls as [|k calls IH]; intros st.
    + simpl. lia.
    + cbn [run fold_left merged_students]. fold (run calls (snd (do_call k st))).
      rewrite IH, length_app.
      destruct k as [x | x]; cbn [do_call].
      * rewrite forward_and_adapt_counter.
        destruct (fst (forward_and_adapt x st)); simpl; lia.
      * simpl. lia.
Qed.

(** *** A student without trainable parameters *)

(** X5.  When the constructor found no parameter for the student,
    [optimizer_bn] does not exist, and every adaptation step of the
    full-precision branch, with a contrast mode the loss knows, raises
    [AttributeError] right after the backward pass of the student loss: the
    step counter, the optimizers and all parameter values are as before the
    call, the loss weight has been set to 1, and T1 has not been merged. *)
Theorem missing_optimizer_bn_raises (x : inputs) (st : engine) :
  mixed_path (cfg st) = false ->
  valid_mode (cfg st) = true ->
  optimizer_bn (opts st) = None ->
  let r := forward_and_adapt x st in
  fst r = inl (AttributeError "optimizer_bn") /\
  c (snd r) = c st /\
  opts (snd r) = opts st /\
  lambda_ce_trg (snd r) = 1 /\
  (forall i, datas (get_model i (nets (snd r))) = datas (get_model i (nets st))) /\
  trace (snd r) = trace st ++ plot_events (c st) ++ [EvBackward LossStu].
Proof.
  intros Hmixed Hmode Hbn r.
  assert (H : exists s1,
             r = (inl (AttributeError "optimizer_bn"), s1) /\
             c s1 = c st /\ opts s1 = opts st /\ lambda_ce_trg s1 = 1 /\
             (forall i, datas (get_model i (nets s1)) = datas (get_model i (nets st))) /\
             trace s1 = trace st ++ plot_events (c st) ++ [EvBackward LossStu]).
  { subst r. rewrite forward_and_adapt_unfold, Hmixed.
    destruct (loss_calculation_run x st) as (q & l2 & Hrun & _).
    unfold full_precision_branch. unfold bind at 1. rewrite Hrun, Hmode.
    cbv [bind get backward step zero_grad attr modify ret raise].
    cbn [opts nets cfg c trace log set_nets set_opts fst snd get_opt].
    rewrite Hbn. cbn [opt_name].
    eexists. split; [reflexivity|].
    cbn [c opts lambda_ce_trg nets trace].
    repeat (split; [reflexivity|]). split.
    - intros i. apply datas_map_store_accumulate.
    - cbn [trace log set_nets]. rewrite <- app_assoc. reflexivity. }
  destruct H as (s1 & -> & H1 & H2 & H3 & H4 & H5). cbn [fst snd].
  repeat (split; [assumption || reflexivity|]). exact H5.
Qed.

(** *** What the constructor returns *)

(** X6.  The constructor raises [UnboundLocalError] for every dataset
    other than "cifar10_c" and "cifar100_c" ([num_channels] is assigned for
    these two only), and [AttributeError] when no parameter was collected for
    T2 ([optimizer_t2] is then missing when the projector is added to it).
    Otherwise it returns an engine with step counter 0, [num_classes] empty
    queues of capacity 10, an [optimizer_t2] of two parameter groups, the
    projector's with the learning rate 0.01 of the first, and an
    [optimizer_bn] exactly when a parameter was collected for the student. *)
Theorem constructor_outcome (cf : config) (LAMBDA LR : Q) (a : arch)
    (ds : string) (model0 : network) (base_params : list nat) (scaler0 : Q)
    (projector0 : network) :
  let r := Ours_init cf LAMBDA LR a ds model0 base_params scaler0 projector0 in
  let t2 := configure_model a (map detach_ (copy_model model0)) (Some true) in
  let s := configure_model a (map detach_ (copy_model model0)) None in
  (ds <> "cifar10_c"%string -> ds <> "cifar100_c"%string ->
   r = inl (UnboundLocalError "num_channels")) /\
  (ds = "cifar10_c"%string \/ ds = "cifar100_c"%string ->
   (collect_params t2 = [] -> r = inl (AttributeError "optimizer_t2")) /\
   (collect_params t2 <> [] ->
    exists st0,
      r = inr st0 /\ c st0 = 0%nat /\ trace st0 = [] /\
      priority_queues st0 = mkPqs (repeat [] (num_classes cf)) 10 /\
      (optimizer_bn (opts st0) = None <-> collect_params s = []) /\
      exists o,
        optimizer_t2 (opts st0) = Some o /\
        param_groups o
        = [(map (pair ModelT2) (collect_params t2), 1 # 100);
           (map (pair Projector) (seq 0 (length projector0)), 1 # 100)])).
Proof.
  intros r t2 s. subst r. unfold Ours_init. fold t2. fold s. split.
  - intros H1 H2.
    apply String.eqb_neq in H1, H2. rewrite H1, H2. reflexivity.
  - intros Hds.
    assert (Hd : String.eqb ds "cifar10_c" || String.eqb ds "cifar100_c" = true).
    { destruct Hds as [-> | ->]; reflexivity. }
    rewrite Hd. split.
    + intros ->. reflexivity.
    + intros Hne.
      destruct (collect_params t2) as [|k ks] eqn:Hk; [congruence|].
      cbn [length Nat.ltb Nat.leb]. eexists. split; [reflexivity|].
      cbn [c trace priority_queues opts optimizer_bn optimizer_t2].
      repeat (split; [reflexivity|]). split.
      * destruct (collect_params s) as [|k' ks']; simpl; split;
          congruence || discriminate.
      * eexists. split; reflexivity.
Qed.

End ConstructedEngine.

Section Configuration.

Context {E : Collaborators}.

(** ** Configuration of a network *)

Lemma flag_at_update_nth (b : bool) (j i : nat) (n : network) :
  flag_at (update_nth (set_requires_grad b) j n) i
  = if (i =? j)%nat then option_map (fun _ => b) (nth_error n i) else flag_at n i.
Proof.
  unfold flag_at.
  destruct (Nat.eqb_spec i j) as [-> | Hij].
  - rewrite nth_error_update_nth. destruct (nth_error n j); reflexivity.
  - rewrite nth_error_update_nth_other by congruence. reflexivity.
Qed.

Lemma requires_grad__length (b : bool) (ids : list nat) (n : network) :
  length (requires_grad_ b ids n) = length n.
Proof.
  unfold requires_grad_. revert n; induction ids as [|j ids IH]; intros n; simpl;
    [reflexivity|].
  rewrite IH. apply update_nth_length.
Qed.

Lemma flag_at_defined (n : network) (i : nat) (b : bool) :
  (i < length n)%nat -> option_map (fun _ : param => b) (nth_error n i) = Some b.
Proof.
  intros H. destruct (nth_error n i) eqn:Hn; [reflexivity|].
  apply nth_error_None in Hn. lia.
Qed.

Lemma flag_requires_grad_out (b : bool) (ids : list nat) (n : network) (i : nat) :
  ~ In i ids -> flag_at (requires_grad_ b ids n) i = flag_at n i.
Proof.
  unfold requires_grad_. revert n; induction ids as [|j ids IH]; intros n H; simpl;
    [reflexivity|].
  rewrite IH by (intros Hin; apply H; now right).
  rewrite flag_at_update_nth.
  destruct (Nat.eqb_spec i j) as [-> | _]; [|reflexivity].
  exfalso. apply H. now left.
Qed.

Lemma flag_requires_grad_in (b : bool) (ids : list nat) (n : network) (i : nat) :
  (i < length n)%nat -> In i ids -> flag_at (requires_grad_ b ids n) i = Some b.
Proof.
  unfold requires_grad_. revert n; induction ids as [|j ids IH]; intros n Hi H;
    [contradiction|]. simpl.
  destruct (in_dec Nat.eq_dec i ids) as [Hin | Hout].
  - apply IH; [now rewrite update_nth_length | exact Hin].
  - destruct H as [-> | H]; [|contradiction].
    fold (requires_grad_ b ids (update_nth (set_requires_grad b) i n)).
    rewrite flag_requires_grad_out by exact Hout.
    rewrite flag_at_update_nth, Nat.eqb_refl. now apply flag_at_defined.
Qed.

(** A traversal in which every module either sets the flag of its
    parameters or leaves them: the flag of a parameter is that of the last
    module that lists it and acts, or the one it had. *)
Lemma traverse_length (act : module_kind -> option bool)
    (ms : list (module_kind * list nat)) (n : network) :
  length (traverse act ms n) = length n.
Proof.
  unfold traverse. revert n; induction ms as [|m ms IH]; intros n; simpl;
    [reflexivity|].
  rewrite IH. destruct (act (fst m)); [apply requires_grad__length | reflexivity].
Qed.

Lemma flag_traversal (act : module_kind -> option bool)
    (ms : list (module_kind * list nat)) (n : network) (i : nat) (b : bool) :
  (i < length n)%nat ->
  (forall m b', In m ms -> In i (snd m) -> act (fst m) = Some b' -> b' = b) ->
  flag_at n i = Some b
  \/ (exists m, In m ms /\ In i (snd m) /\ act (fst m) <> None) ->
  flag_at (traverse act ms n) i = Some b.
Proof.
  unfold traverse.
  revert n; induction ms as [|m ms IH]; intros n Hi Hall Hsome; simpl.
  - destruct Hsome as [H | (m & [] & _)]. exact H.
  - apply IH.
    + destruct (act (fst m)); [now rewrite requires_grad__length | exact Hi].
    + intros m' b' Hin. apply Hall. now right.
    + destruct (act (fst m)) as [b'|] eqn:Hact.
      * destruct (in_dec Nat.eq_dec i (snd m)) as [Hin | Hout].
        -- left. rewrite (Hall m b' (or_introl eq_refl) Hin Hact).
           now apply flag_requires_grad_in.
        -- rewrite flag_requires_grad_out by exact Hout.
           destruct Hsome as [H | (m' & [<- | Hin'] & Hi' & Ha')];
             [now left | contradiction | right; eauto].
      * destruct Hsome as [H | (m' & [<- | Hin'] & Hi' & Ha')];
          [now left | congruence | right; eauto].
Qed.

Lemma fold_left_ext_in {A B : Type} (f g : A -> B -> A) (l : list B) (a : A) :
  (forall x y, In y l -> f x y = g x y) -> fold_left f l a = fold_left g l a.
Proof.
  revert a; induction l as [|y l IH]; intros a H; simpl; [reflexivity|].
  rewrite H by now left. apply IH. intros x y' Hin. apply H. now right.
Qed.

Lemma configure_model_traversal (a : arch) (n : network) (bn : option bool) :
  configure_model a n bn
  = traverse (module_action bn) (modules a) (map (set_requires_grad false) n).
Proof.
  unfold configure_model, traverse. apply fold_left_ext_in. intros x m _.
  destruct (fst m), bn as [[|]|]; reflexivity.
Qed.

Lemma map_set_requires_grad_flag (n : network) (i : nat) :
  (i < length n)%nat -> flag_at (map (set_requires_grad false) n) i = Some false.
Proof.
  intros H. unfold flag_at. rewrite nth_error_map.
  destruct (nth_error n i) eqn:Hn; [reflexivity|].
  apply nth_error_None in Hn. lia.
Qed.

Lemma grads_update_nth_flag (b : bool) (i : nat) (n : network) :
  map grad (update_nth (set_requires_grad b) i n) = map grad n.
Proof.
  revert i; induction n as [|p n IH]; intros [|i]; simpl; try reflexivity.
  f_equal. apply IH.
Qed.

Lemma grads_requires_grad_ (b : bool) (ids : list nat) (n : network) :
  map grad (requires_grad_ b ids n) = map grad n.
Proof.
  unfold requires_grad_. revert n; induction ids as [|i ids IH]; intros n; simpl;
    [reflexivity|].
  rewrite IH. apply grads_update_nth_flag.
Qed.

Lemma grads_configure_model (a : arch) (n : network) (bn : option bool) :
  map grad (configure_model a n bn) = map grad n.
Proof.
  unfold configure_model.
  assert (H0 : map grad (map (set_requires_grad false) n) = map grad n).
  { rewrite map_map. apply map_ext. reflexivity. }
  rewrite <- H0. generalize (map (set_requires_grad false) n) as n0.
  induction (modules a) as [|m ms IH]; intros n0; simpl; [reflexivity|].
  rewrite IH.
  destruct (fst m), bn as [[|]|]; rewrite ?grads_requires_grad_; reflexivity.
Qed.

(** X7.  [Ours.configure_model] writes nothing but [requires_grad]: the
    values and the gradient buffers stay.  For a parameter [i] of the
    network: with [bn=None] it is trainable when some module lists it and
    frozen otherwise; with [bn=True] it is frozen when no batch-norm module
    lists it, and trainable when the last module listing it is a batch-norm
    one; with [bn=False] it is trainable as soon as a module that is not a
    batch-norm one lists it, a batch-norm parameter included. *)
Theorem configure_model_flags (a : arch) (n : network) (i : nat) :
  (i < length n)%nat ->
  (forall bn, datas (configure_model a n bn) = datas n
              /\ map grad (configure_model a n bn) = map grad n) /\
  (listed_in [BatchNorm2d; BatchNorm1d; OtherModule] a i ->
   flag_at (configure_model a n None) i = Some true) /\
  (~ listed_in [BatchNorm2d; BatchNorm1d; OtherModule] a i ->
   forall bn, flag_at (configure_model a n bn) i = Some false) /\
  (~ listed_in [BatchNorm2d; BatchNorm1d] a i ->
   flag_at (configure_model a n (Some true)) i = Some false) /\
  (forall pre m post,
      modules a = pre ++ m :: post ->
      In (fst m) [BatchNorm2d; BatchNorm1d] -> In i (snd m) ->
      (forall m', In m' post -> ~ In i (snd m')) ->
      flag_at (configure_model a n (Some true)) i = Some true) /\
  (listed_in [OtherModule] a i ->
   flag_at (configure_model a n (Some false)) i = Some true).
Proof.
  intros Hi.
  assert (Hlen : (i < length (map (set_requires_grad false) n))%nat)
    by now rewrite length_map.
  split; [intros bn; split;
          [apply datas_configure_model | apply grads_configure_model]|].
  split; [|split; [|split; [|split]]].
  - intros (m & Hm & Hk & Him). rewrite configure_model_traversal.
    apply flag_traversal; [exact Hlen | |]; cbn [module_action].
    + intros m' b' _ _. destruct (fst m'); intros [= <-]; reflexivity.
    + right. exists m. repeat split; try assumption.
      destruct (fst m); discriminate.
  - intros Hno bn. rewrite configure_model_traversal.
    apply flag_traversal; [exact Hlen | |]; cbn [module_action].
    + intros m' b' Hin Him _. exfalso. apply Hno. exists m'.
      repeat split; try assumption. destruct (fst m'); simpl; tauto.
    + left. now apply map_set_requires_grad_flag.
  - intros Hno. rewrite configure_model_traversal.
    apply flag_traversal; [exact Hlen | |]; cbn [module_action].
    + intros m' b' Hin Him.
      destruct (fst m') eqn:Hk; intros [= <-]; try reflexivity;
        exfalso; apply Hno; exists m'; rewrite Hk; simpl; tauto.
    + left. now apply map_set_requires_grad_flag.
  - intros pre m post Hms Hk Him Hpost.
    rewrite configure_model_traversal, Hms. unfold traverse.
    rewrite fold_left_app. cbn [fold_left].
    fold (traverse (module_action (Some true)) pre
                   (map (set_requires_grad false) n)).
    assert (Hact : module_action (Some true) (fst m) = Some true)
      by (destruct Hk as [<- | [<- | []]]; reflexivity).
    rewrite Hact.
    apply (flag_traversal (module_action (Some true))).
    + now rewrite requires_grad__length, traverse_length.
    + intros m' b' Hin Him'. exfalso. now apply (Hpost m').
    + left. apply flag_requires_grad_in; [|exact Him].
      now rewrite traverse_length.
  - intros (m & Hm & Hk & Him). rewrite configure_model_traversal.
    apply flag_traversal; [exact Hlen | |]; cbn [module_action].
    + intros m' b' _ _. destruct (fst m'); intros [= <-]; reflexivity.
    + right. exists m. repeat split; try assumption.
      destruct Hk as [<- | []]. discriminate.
Qed.

(** X8.  [RMT.configure_model] makes every parameter that a module lists
    trainable, batch-norm or not, and leaves the values: it does to the
    flags what [Ours.configure_model] does with [bn=None]. *)
Theorem RMT_configure_model_trains_all (a : arch) (n : network) (i : nat) :
  (i < length n)%nat ->
  RMT_configure_model a n = configure_model a n None /\
  datas (RMT_configure_model a n) = datas n /\
  (listed_in [BatchNorm2d; BatchNorm1d; OtherModule] a i ->
   flag_at (RMT_configure_model a n) i = Some true) /\
  (~ listed_in [BatchNorm2d; BatchNorm1d; OtherModule] a i ->
   flag_at (RMT_configure_model a n) i = Some false).
Proof.
  intros Hi.
  assert (Heq : RMT_configure_model a n = configure_model a n None).
  { unfold RMT_configure_model, configure_model. apply fold_left_ext_in.
    intros x m _. destruct (fst m); reflexivity. }
  assert (Hlen : (i < length (map (set_requires_grad false) n))%nat)
    by now rewrite length_map.
  rewrite Heq. split; [reflexivity|]. split; [apply datas_configure_model|].
  rewrite configure_model_traversal. split.
  - intros (m & Hm & Hk & Him).
    apply flag_traversal; [exact Hlen | |]; cbn [module_action].
    + intros m' b' _ _. destruct (fst m'); intros [= <-]; reflexivity.
    + right. exists m. repeat split; try assumption.
      destruct (fst m); discriminate.
  - intros Hno.
    apply flag_traversal; [exact Hlen | |].
    + intros m' b' Hin Him _. exfalso. apply Hno. exists m'.
      repeat split; try assumption. destruct (fst m'); simpl; tauto.
    + left. now apply map_set_requires_grad_flag.
Qed.

(** ** The loop of [update_ema_variables] *)

Lemma update_ema_variables_length (e m : network) (alpha : Q) :
  length (update_ema_variables e m alpha) = length e.
Proof.
  revert m; induction e as [|p e IH]; intros [|q m]; simpl; auto.
Qed.

Lemma update_ema_variables_flags (e m : network) (alpha : Q) :
  map requires_grad (update_ema_variables e m alpha) = map requires_grad e /\
  map grad (update_ema_variables e m alpha) = map grad e.
Proof.
  revert m; induction e as [|p e IH]; intros [|q m]; simpl; auto.
  destruct (IH m) as [H1 H2]. now rewrite H1, H2.
Qed.

Lemma update_ema_variables_beyond (e m : network) (alpha : Q) (i : nat) :
  (length m <= i)%nat ->
  nth_error (update_ema_variables e m alpha) i = nth_error e i.
Proof.
  revert m i; induction e as [|p e IH]; intros [|q m] [|i] H; simpl in *;
    try reflexivity; try lia.
  apply IH. lia.
Qed.

Lemma ema_tensor_same (alpha : Q) (e s : tensor) :
  tensor_eq e s -> tensor_eq (ema_tensor alpha e s) e.
Proof.
  induction 1 as [|a b e s Hab _ IH]; simpl; constructor; [|exact IH].
  rewrite <- Hab. ring.
Qed.

(** X9.  [update_ema_variables] writes values only: the EMA network keeps
    its number of parameters, their [requires_grad] flags and their gradient
    buffers; [zip] leaves every EMA parameter beyond the parameters of the
    source as it was; and a teacher that already equals the source stays
    equal to it, whatever the momentum. *)
Theorem update_ema_variables_writes_values_only (e m : network) (alpha : Q) :
  length (update_ema_variables e m alpha) = length e /\
  map requires_grad (update_ema_variables e m alpha) = map requires_grad e /\
  map grad (update_ema_variables e m alpha) = map grad e /\
  (forall i, (length m <= i)%nat ->
             nth_error (update_ema_variables e m alpha) i = nth_error e i) /\
  (model_data_eq e m -> model_data_eq (update_ema_variables e m alpha) e).
Proof.
  split; [apply update_ema_variables_length|].
  split; [apply update_ema_variables_flags|].
  split; [apply update_ema_variables_flags|].
  split; [intros i; apply update_ema_variables_beyond|].
  induction 1 as [|p q e m Hpq _ IH]; simpl; constructor; [|exact IH].
  cbn [data set_data]. now apply ema_tensor_same.
Qed.

(** ** The entropy losses of rmt.py *)

Lemma entropy_mix (a b d f : list Q) :
  Forall2 Qeq
    (zip_with Qminus
       (zip_with Qminus
          (zip_with Qminus (map (Qmult (- (1 # 4))) a) (map (Qmult (1 # 4)) b))
          (map (Qmult (1 # 4)) d))
       (map (Qmult (1 # 4)) f))
    (zip_with Qplus
       (map (Qmult (1 # 2))
            (zip_with Qminus (map (Qmult (- (1 # 2))) a) (map (Qmult (1 # 2)) b)))
       (map (Qmult (1 # 2))
            (zip_with Qminus (map (Qmult (- (1 # 2))) d) (map (Qmult (1 # 2)) f)))).
Proof.
  revert b d f; induction a as [|x a IH]; intros [|y b] [|z d] [|w f]; simpl;
    try constructor; [ring | apply IH].
Qed.

Lemma entropy_swap (a b : list Q) :
  Forall2 Qeq
    (zip_with Qminus (map (Qmult (- (1 # 2))) a) (map (Qmult (1 # 2)) b))
    (zip_with Qminus (map (Qmult (- (1 # 2))) b) (map (Qmult (1 # 2)) a)).
Proof.
  revert b; induction a as [|x a IH]; intros [|y b]; simpl; try constructor;
    [ring | apply IH].
Qed.

Lemma half_twice (a : list Q) :
  Forall2 Qeq (zip_with Qplus (map (Qmult (1 # 2)) a) (map (Qmult (1 # 2)) a)) a.
Proof. induction a as [|x a IH]; simpl; constructor; [ring | exact IH]. Qed.

Lemma Forall2_Qeq_trans (a b d : list Q) :
  Forall2 Qeq a b -> Forall2 Qeq b d -> Forall2 Qeq a d.
Proof.
  intros H; revert d; induction H as [|x y a b Hxy _ IH]; intros d Hd;
    inversion Hd; subst; constructor.
  - now rewrite Hxy.
  - now apply IH.
Qed.

(** X10.  The two entropy losses of rmt.py, sample by sample:
    [softmax_entropy] is symmetric in its two arguments; and
    [symmetric_entropy(x, x_aug, x_ema)] is the mean of
    [softmax_entropy(x, x_ema)] and [softmax_entropy(x_aug, x_ema)], so on an
    augmentation that changes nothing the loss of the adaptation step is the
    loss of the warm-up. *)
Theorem symmetric_entropy_is_mean_of_softmax_entropies
    (log_softmax : list tensor -> list tensor) (x x_aug x_ema : list tensor) :
  Forall2 Qeq (softmax_entropy log_softmax x x_ema)
              (softmax_entropy log_softmax x_ema x) /\
  Forall2 Qeq (symmetric_entropy log_softmax x x_aug x_ema)
              (zip_with Qplus
                 (map (Qmult (1 # 2)) (softmax_entropy log_softmax x x_ema))
                 (map (Qmult (1 # 2)) (softmax_entropy log_softmax x_aug x_ema))) /\
  Forall2 Qeq (symmetric_entropy log_softmax x x x_ema)
              (softmax_entropy log_softmax x x_ema).
Proof.
  split; [apply entropy_swap|]. split; [apply entropy_mix|].
  eapply Forall2_Qeq_trans; [apply entropy_mix | apply half_twice].
Qed.

End Configuration.

Section MarginLoss.

Context {E : Collaborators}.

(** ** The margin loss of [contrastive_loss_proto] *)

Lemma fold_left_Qplus_Qsum (l : list Q) (a : Q) :
  fold_left Qplus l a == a + Qsum l.
Proof.
  revert a; induction l as [|v l IH]; intros a; simpl.
  - ring.
  - rewrite IH. unfold Qsum; simpl. ring.
Qed.

Lemma Qsum_nonneg (l : list Q) : Forall (fun v => 0 <= v) l -> 0 <= Qsum l.
Proof.
  induction 1 as [|v l Hv _ IH]; simpl; [apply Qle_refl|].
  change 0 with (0 + 0) at 1. now apply Qplus_le_compat.
Qed.

Lemma Qsum_zero (l : list Q) :
  Forall (fun v => 0 <= v) l -> (Qsum l == 0 <-> Forall (fun v => v == 0) l).
Proof.
  induction 1 as [|v l Hv Hl IH]; simpl.
  - split; [constructor | reflexivity].
  - pose proof (Qsum_nonneg l Hl) as Hs. split.
    + intros H0. assert (Hv0 : v == 0) by lra.
      constructor; [exact Hv0|]. apply IH. lra.
    + intros H0; inversion H0 as [|? ? Hv0 Hl0]; subst.
      apply IH in Hl0. lra.
Qed.

Lemma inject_nat_pos (n : nat) : (0 < n)%nat -> 0 < inject_Z (Z.of_nat n).
Proof.
  intros Hn. change 0 with (inject_Z 0). rewrite <- Zlt_Qlt. lia.
Qed.

Lemma Qdiv_nat_nonneg (a : Q) (n : nat) :
  0 <= a -> (0 < n)%nat -> 0 <= a / inject_Z (Z.of_nat n).
Proof.
  intros Ha Hn. apply Qle_shift_div_l; [now apply inject_nat_pos|]. lra.
Qed.

Lemma Qdiv_nat_zero (a : Q) (n : nat) :
  (0 < n)%nat -> (a / inject_Z (Z.of_nat n) == 0 <-> a == 0).
Proof.
  intros Hn. pose proof (inject_nat_pos n Hn) as Hp. split; intros H.
  - assert (Ha : a == (a / inject_Z (Z.of_nat n)) * inject_Z (Z.of_nat n))
      by (field; lra).
    rewrite Ha, H. ring.
  - rewrite H. field. lra.
Qed.

Lemma relu_nonneg (v : Q) : 0 <= relu v.
Proof. unfold relu. apply Q.le_max_l. Qed.

Lemma relu_zero (v : Q) : relu v == 0 <-> v <= 0.
Proof.
  unfold relu. split; intros H.
  - rewrite <- H. apply Q.le_max_r.
  - apply Q.max_l. exact H.
Qed.

Lemma drop_nth_length {A : Type} (i : nat) (l : list A) :
  (i < length l)%nat -> S (length (drop_nth i l)) = length l.
Proof.
  revert i; induction l as [|a l IH]; intros [|i] H; simpl in *; try lia.
  rewrite IH; lia.
Qed.

Lemma drop_nth_In {A : Type} (i : nat) (l : list A) (v : A) :
  In v (drop_nth i l) <-> exists j, j <> i /\ nth_error l j = Some v.
Proof.
  revert i; induction l as [|a l IH]; intros i.
  - destruct i; simpl; split; try tauto; intros (j & _ & H); now destruct j.
  - destruct i as [|i]; simpl.
    + split.
      * intros H. apply In_nth_error in H as [j Hj]. exists (S j). now split.
      * intros (j & Hne & Hj). destruct j as [|j]; [congruence|].
        simpl in Hj. now apply nth_error_In in Hj.
    + rewrite IH. split.
      * intros [<- | (j & Hne & Hj)].
        -- exists 0%nat. now split.
        -- exists (S j). split; [congruence | exact Hj].
      * intros (j & Hne & Hj). destruct j as [|j]; simpl in Hj.
        -- left. congruence.
        -- right. exists j. split; [congruence | exact Hj].
Qed.

Lemma margin_row_loss_nonneg (margin : Q) (row : tensor) (l : nat) :
  (l < length row)%nat -> (2 <= length row)%nat ->
  0 <= margin_row_loss margin row l.
Proof.
  intros Hl H2. unfold margin_row_loss, Qmean.
  pose proof (drop_nth_length l row Hl) as Hd.
  apply Qdiv_nat_nonneg; [|rewrite length_map; lia].
  apply Qsum_nonneg, Forall_forall. intros v Hv.
  apply in_map_iff in Hv as (n & <- & _). apply relu_nonneg.
Qed.

Lemma margin_row_loss_zero (margin : Q) (row : tensor) (l : nat) :
  (l < length row)%nat -> (2 <= length row)%nat ->
  (margin_row_loss margin row l == 0 <-> keeps_margin margin row l).
Proof.
  intros Hl H2. unfold margin_row_loss, Qmean, keeps_margin.
  pose proof (drop_nth_length l row Hl) as Hd.
  rewrite Qdiv_nat_zero by (rewrite length_map; lia).
  rewrite Qsum_zero.
  2:{ apply Forall_forall. intros v Hv.
      apply in_map_iff in Hv as (n & <- & _). apply relu_nonneg. }
  rewrite Forall_forall. split.
  - intros H j v Hj Hv.
    assert (Hz : relu (margin - nth l row 0 + v) == 0).
    { apply H. apply (in_map (fun n => relu (margin - nth l row 0 + n))).
      apply drop_nth_In. now exists j. }
    apply relu_zero in Hz. lra.
  - intros H v Hv. apply in_map_iff in Hv as (n & <- & Hn).
    apply drop_nth_In in Hn as (j & Hj & Hn).
    apply relu_zero. specialize (H j n Hj Hn). lra.
Qed.

Lemma proto_margin_loss_sign (margin : Q) (sims : list tensor) (labels : list nat) :
  sims <> [] -> length labels = length sims ->
  Forall2 (fun row l => (l < length row)%nat /\ (2 <= length row)%nat) sims labels ->
  0 <= proto_margin_loss sims labels margin /\
  (proto_margin_loss sims labels margin == 0
   <-> Forall2 (keeps_margin margin) sims labels).
Proof.
  intros Hne Hlen Hrows. unfold proto_margin_loss.
  assert (Hpos : (0 < length sims)%nat) by (destruct sims; simpl; [congruence | lia]).
  assert (Hall : Forall (fun v => 0 <= v)
                   (zip_with (margin_row_loss margin) sims labels)).
  { clear Hne Hlen Hpos. induction Hrows as [|row l sims labels [H1 H2] _ IH];
      simpl; constructor; [now apply margin_row_loss_nonneg | exact IH]. }
  split.
  - apply Qdiv_nat_nonneg; [|exact Hpos].
    rewrite fold_left_Qplus_Qsum. pose proof (Qsum_nonneg _ Hall). lra.
  - rewrite Qdiv_nat_zero by exact Hpos.
    rewrite fold_left_Qplus_Qsum.
    assert (Hz : 0 + Qsum (zip_with (margin_row_loss margin) sims labels) == 0
                 <-> Qsum (zip_with (margin_row_loss margin) sims labels) == 0)
      by (split; intros H; lra).
    rewrite Hz, (Qsum_zero _ Hall).
    clear Hne Hlen Hpos Hall Hz.
    induction Hrows as [|row l sims labels [H1 H2] _ IH]; simpl.
    + split; constructor.
    + split; intros H; inversion H; subst; constructor;
        try (now apply IH); now apply (margin_row_loss_zero margin row l H1 H2).
Qed.

(** X11.  [contrastive_loss_proto] is never negative, and it is zero
    exactly when every sample keeps the margin: the cosine similarity of its
    feature to the prototype of its label exceeds that to every other
    prototype by at least [margin].  (At least two prototypes, one label per
    feature row and every label a prototype index: otherwise the code takes
    the mean of no entry or indexes out of range.) *)
Theorem contrastive_loss_proto_zero_iff_margin
    (feature prototypes : list tensor) (labels : list nat) (margin : Q) :
  normalize feature <> [] ->
  length labels = length (normalize feature) ->
  (2 <= length (normalize prototypes))%nat ->
  Forall (fun l => (l < length (normalize prototypes))%nat) labels ->
  let cosine_sim :=
    map (fun f => map (dot f) (normalize prototypes)) (normalize feature) in
  0 <= contrastive_loss_proto feature prototypes labels margin /\
  (contrastive_loss_proto feature prototypes labels margin == 0
   <-> Forall2 (keeps_margin margin) cosine_sim labels).
Proof.
  intros Hne Hlen H2 Hlab cosine_sim.
  change (contrastive_loss_proto feature prototypes labels margin)
    with (proto_margin_loss cosine_sim labels margin).
  apply proto_margin_loss_sign.
  - subst cosine_sim. destruct (normalize feature); [congruence | discriminate].
  - subst cosine_sim. now rewrite length_map.
  - subst cosine_sim. clear Hne.
    revert labels Hlen Hlab. induction (normalize feature) as [|f fs IH];
      intros [|l labels] Hlen Hlab; simpl in *; try discriminate; constructor.
    + rewrite length_map. inversion Hlab; subst. now split.
    + apply IH; [lia | now inversion Hlab].
Qed.

End MarginLoss.

Section RMTProperties.

Context {E : Collaborators} {K : RMTKernels}.

(** ** The RMT engine at run time *)

Lemma rbind_run {A B : Type} (m : R A) (k : A -> R B) (st st' : RMTEngine) (a : A) :
  m st = (inr a, st') -> rbind m k st = k a st'.
Proof. intros H. unfold rbind. now rewrite H. Qed.

Lemma rbind_raise {A B : Type} (m : R A) (k : A -> R B) (st st' : RMTEngine)
    (e : rmt_exn) :
  m st = (inl e, st') -> rbind m k st = (inl e, st').
Proof. intros H. unfold rbind. now rewrite H. Qed.

Lemma rmt_step_lrs_app (a b : list rmt_event) :
  rmt_step_lrs (a ++ b) = rmt_step_lrs a ++ rmt_step_lrs b.
Proof. unfold rmt_step_lrs. apply flat_map_app. Qed.

Lemma rmt_ema_updates_app (a b : list rmt_event) :
  rmt_ema_updates (a ++ b) = (rmt_ema_updates a + rmt_ema_updates b)%nat.
Proof. unfold rmt_ema_updates. now rewrite filter_app, length_app. Qed.

(** Drawing a source batch, when the iterator or the next pass has one. *)
Lemma rmt_sample_source_batch_run (st : RMTEngine) :
  rmt_src_loader_iter st <> [] \/
  rmt_src_loader (rmt_cfg st) (rmt_src_passes st) <> [] ->
  exists b st' new,
    rmt_sample_source_batch st = (inr b, st') /\
    rmt_cfg st' = rmt_cfg st /\
    rmt_self st' = rmt_self st /\
    rmt_optimizer st' = rmt_optimizer st /\
    rmt_trace st' = rmt_trace st ++ new /\
    (new = [RmtNext] \/ new = [RmtIter; RmtNext]).
Proof.
  intros H. unfold rmt_sample_source_batch, rbind at 1, rget.
  destruct (rmt_src_loader_iter st) as [|b rest] eqn:Hit.
  - destruct H as [H | H]; [congruence|].
    destruct (rmt_src_loader (rmt_cfg st) (rmt_src_passes st)) as [|b rest] eqn:Hl;
      [congruence|].
    exists b. eexists. exists [RmtIter; RmtNext].
    unfold rbind, rmodify, rmt_next, rbind, rget, rmodify, rret.
    cbn [rmt_src_loader_iter set_rmt_src_loader_iter rmt_log rmt_cfg rmt_self
         rmt_optimizer rmt_trace rmt_src_passes].
    rewrite Hl.
    cbn [rmt_src_loader_iter set_rmt_src_loader_iter rmt_log rmt_cfg rmt_self
         rmt_optimizer rmt_trace rmt_src_passes].
    split; [reflexivity|].
    cbn [rmt_src_loader_iter set_rmt_src_loader_iter rmt_log rmt_cfg rmt_self
         rmt_optimizer rmt_trace rmt_src_passes].
    rewrite <- app_assoc. repeat split. now right.
  - exists b. eexists. exists [RmtNext].
    unfold rmt_next, rbind, rget, rmodify, rret. rewrite Hit.
    cbn [rmt_src_loader_iter set_rmt_src_loader_iter rmt_log rmt_cfg rmt_self
         rmt_optimizer rmt_trace rmt_src_passes].
    split; [reflexivity|].
    cbn [rmt_src_loader_iter set_rmt_src_loader_iter rmt_log rmt_cfg rmt_self
         rmt_optimizer rmt_trace rmt_src_passes].
    repeat split. now left.
Qed.

Lemma rmt_warmup_loop_run (range : list nat) (st : RMTEngine) :
  (forall n, rmt_src_loader (rmt_cfg st) n <> []) ->
  exists st' new,
    rmt_warmup_loop range st = (inr tt, st') /\
    rmt_cfg st' = rmt_cfg st /\
    map fst (rmt_param_groups (rmt_optimizer st'))
    = map fst (rmt_param_groups (rmt_optimizer st)) /\
    rmt_trace st' = rmt_trace st ++ new /\
    rmt_step_lrs new
    = map (fun i => map (fun _ => rmt_warmup_lr (rmt_cfg st) i)
                        (rmt_param_groups (rmt_optimizer st))) range /\
    rmt_ema_updates new = length range.
Proof.
  revert st; induction range as [|i range IH]; intros st Hl.
  - exists st, []. cbn. rewrite app_nil_r. repeat split.
  - cbn [rmt_warmup_loop]. unfold rbind at 1, rget.
    unfold rbind at 1, rmt_set_lr, rmodify.
    set (st1 := rmt_log _ _).
    destruct (rmt_sample_source_batch_run st1) as (b & st2 & new2 & Hrun & Hc2 & Hs2 & Ho2 & Ht2 & Hn2).
    { right. apply Hl. }
    rewrite (rbind_run _ _ _ _ _ Hrun). destruct b as [imgs_src labels_src].
    unfold rbind at 1, rget.
    unfold rbind at 1, rmt_backward, rmodify.
    unfold rbind at 1, rmt_step, rmodify.
    unfold rbind at 1, rmt_zero_grad, rmodify.
    unfold rbind at 1, rmodify.
    set (st3 := rmt_ema _).
    destruct (IH st3) as (st' & new & Hloop & Hc & Hg & Ht & Hlrs & Hema).
    { intros n. subst st3. cbn [rmt_ema rmt_cfg rmt_log set_rmt_self set_rmt_optimizer].
      rewrite Hc2. apply Hl. }
    assert (Hc3 : rmt_cfg st3 = rmt_cfg st) by (subst st3; cbn; now rewrite Hc2).
    assert (Hg3 : rmt_param_groups (rmt_optimizer st3)
                  = map (fun par => (fst par, rmt_warmup_lr (rmt_cfg st) i))
                        (rmt_param_groups (rmt_optimizer st))).
    { subst st3. cbn [rmt_ema rmt_cfg rmt_log set_rmt_self set_rmt_optimizer
                      rmt_optimizer rmt_param_groups].
      now rewrite Ho2. }
    assert (Ht3 : rmt_trace st3
                  = rmt_trace st ++ [RmtSetLr (rmt_warmup_lr (rmt_cfg st) i)] ++ new2
                    ++ [RmtBackward (LossWarmup imgs_src);
                        RmtStep (map (fun _ => rmt_warmup_lr (rmt_cfg st) i)
                                     (rmt_param_groups (rmt_optimizer st)));
                        RmtZeroGrad; RmtEma]).
    { subst st3. cbn [rmt_ema rmt_cfg rmt_log set_rmt_self set_rmt_optimizer
                      rmt_optimizer rmt_param_groups rmt_trace].
      rewrite Ht2, Ho2. subst st1.
      cbn [rmt_cfg rmt_log set_rmt_self set_rmt_optimizer
           rmt_optimizer rmt_param_groups rmt_trace].
      rewrite map_map. cbn [snd]. rewrite <- !app_assoc. reflexivity. }
    exists st'. eexists. split; [exact Hloop|].
    split; [congruence|]. split.
    { rewrite Hg, Hg3, map_map. cbn [fst]. reflexivity. }
    split.
    { rewrite Ht, Ht3, <- !app_assoc. reflexivity. }
    rewrite !rmt_step_lrs_app, !rmt_ema_updates_app, Hlrs, Hema, Hc3, Hg3.
    assert (Hn : rmt_step_lrs new2 = [] /\ rmt_ema_updates new2 = 0%nat)
      by (destruct Hn2 as [-> | ->]; now split).
    destruct Hn as [-> ->]. cbn. split; [|reflexivity].
    f_equal. apply map_ext. intros j. now rewrite map_map.
Qed.

(** X12.  [RMT.warmup], on a source loader whose passes are never empty,
    returns after [warmup_steps] optimizer steps and as many EMA updates;
    step [i] is taken with every parameter group at the learning rate
    [rmt_warmup_lr], the value of [final_lr * (i+1) / warmup_steps];
    afterwards every group is at [final_lr] and references the parameters it
    referenced before. *)
Theorem warmup_ramps_learning_rate (st : RMTEngine) :
  (forall n, rmt_src_loader (rmt_cfg st) n <> []) ->
  let cf := rmt_cfg st in
  let groups := rmt_param_groups (rmt_optimizer st) in
  exists st' new,
    rmt_warmup st = (inr tt, st') /\
    rmt_trace st' = rmt_trace st ++ new /\
    rmt_step_lrs new
    = map (fun i => map (fun _ => rmt_warmup_lr cf i) groups)
          (seq 0 (rmt_warmup_steps cf)) /\
    rmt_ema_updates new = rmt_warmup_steps cf /\
    rmt_param_groups (rmt_optimizer st')
    = map (fun par => (fst par, rmt_final_lr cf)) groups.
Proof.
  intros Hl cf groups.
  destruct (rmt_warmup_loop_run (seq 0 (rmt_warmup_steps cf)) st Hl)
    as (st1 & new & Hrun & Hc & Hg & Ht & Hlrs & Hema).
  unfold rmt_warmup. unfold rbind at 1, rget. fold cf.
  rewrite (rbind_run _ _ _ _ _ Hrun).
  unfold rbind at 1, rget, rmt_set_lr, rmodify.
  eexists. exists (new ++ [RmtSetLr (rmt_final_lr cf)]).
  split; [reflexivity|].
  cbn [rmt_trace rmt_log set_rmt_optimizer rmt_optimizer rmt_param_groups].
  rewrite rmt_step_lrs_app, rmt_ema_updates_app, Hlrs, Hema, Ht, Hc, length_seq.
  fold cf groups. cbn [rmt_step_lrs rmt_ema_updates flat_map filter length].
  rewrite !app_nil_r, Nat.add_0_r, <- app_assoc.
  repeat split.
  transitivity (map (fun r => (r, rmt_final_lr cf))
                    (map fst (rmt_param_groups (rmt_optimizer st1)))).
  - now rewrite map_map.
  - rewrite Hg, map_map. reflexivity.
Qed.

(** X13.  [RMT.warmup] on a source loader without a batch: the first step
    sets the learning rates, [next] raises [StopIteration], the [except]
    branch makes a new iterator and its [next] raises again.  The exception
    leaves [warmup] with no network written and every parameter group at
    the first ramp value [final_lr / warmup_steps], not at [final_lr]. *)
Theorem warmup_empty_loader_stops (st : RMTEngine) :
  rmt_src_loader_iter st = [] ->
  rmt_src_loader (rmt_cfg st) (rmt_src_passes st) = [] ->
  (0 < rmt_warmup_steps (rmt_cfg st))%nat ->
  let cf := rmt_cfg st in
  exists st',
    rmt_warmup st = (inl StopIteration, st') /\
    rmt_self st' = rmt_self st /\
    rmt_param_groups (rmt_optimizer st')
    = map (fun par => (fst par, rmt_warmup_lr cf 0))
          (rmt_param_groups (rmt_optimizer st)) /\
    rmt_warmup_lr cf 0 == rmt_final_lr cf / inject_Z (Z.of_nat (rmt_warmup_steps cf)) /\
    rmt_trace st' = rmt_trace st ++ [RmtSetLr (rmt_warmup_lr cf 0); RmtIter].
Proof.
  intros Hit Hl Hn cf. subst cf.
  unfold rmt_warmup. unfold rbind at 1, rget.
  destruct (rmt_warmup_steps (rmt_cfg st)) as [|n] eqn:En; [lia|].
  cbn [seq rmt_warmup_loop].
  eexists. split.
  - apply rbind_raise. unfold rbind at 1, rget.
    unfold rbind at 1, rmt_set_lr, rmodify.
    apply rbind_raise.
    unfold rmt_sample_source_batch, rbind at 1, rget.
    cbn [rmt_src_loader_iter rmt_log set_rmt_optimizer]. rewrite Hit.
    unfold rbind at 1, rmodify.
    cbn [rmt_src_loader_iter rmt_log set_rmt_optimizer set_rmt_src_loader_iter
         rmt_cfg rmt_src_passes].
    unfold rmt_next, rbind at 1, rget.
    cbn [rmt_src_loader_iter rmt_log set_rmt_optimizer set_rmt_src_loader_iter
         rmt_cfg rmt_src_passes].
    rewrite Hl. reflexivity.
  - cbn [rmt_self rmt_log set_rmt_optimizer set_rmt_src_loader_iter rmt_optimizer
         rmt_param_groups rmt_trace rmt_cfg].
    rewrite <- app_assoc. repeat split.
    unfold rmt_warmup_lr. rewrite En. cbn [Nat.add].
    change (inject_Z (Z.of_nat 1)) with 1. field.
    change 0 with (inject_Z 0). rewrite inject_Z_injective. lia.
Qed.

(** ** One adaptation step of RMT *)

Lemma rmt_update_ref_datas (f : param -> param) (r : rmt_ref) (s : RMT) (k : rmt_net) :
  (forall p, data (f p) = data p) ->
  datas (rmt_get k (rmt_update_ref f r s)) = datas (rmt_get k s).
Proof.
  intros Hf. destruct r as [k' i].
  destruct k, k'; cbn; try reflexivity; now apply datas_update_nth_keep.
Qed.

Lemma rmt_update_ref_mode (f : param -> param) (r : rmt_ref) (s : RMT) :
  rmt_contrast_mode (rmt_update_ref f r s) = rmt_contrast_mode s /\
  rmt_temperature (rmt_update_ref f r s) = rmt_temperature s.
Proof. destruct r as [[] i]; split; reflexivity. Qed.

Lemma rmt_update_refs_datas (f : param -> param) (refs : list rmt_ref) (s : RMT)
    (k : rmt_net) :
  (forall p, data (f p) = data p) ->
  datas (rmt_get k (fold_left (fun s r => rmt_update_ref f r s) refs s))
  = datas (rmt_get k s).
Proof.
  intros Hf; revert s; induction refs as [|r refs IH]; intros s; simpl;
    [reflexivity|].
  rewrite IH. now apply rmt_update_ref_datas.
Qed.

Lemma rmt_update_refs_mode (f : param -> param) (refs : list rmt_ref) (s : RMT) :
  rmt_contrast_mode (fold_left (fun s r => rmt_update_ref f r s) refs s)
  = rmt_contrast_mode s /\
  rmt_temperature (fold_left (fun s r => rmt_update_ref f r s) refs s)
  = rmt_temperature s.
Proof.
  revert s; induction refs as [|r refs IH]; intros s; simpl; [now split|].
  destruct (IH (rmt_update_ref f r s)) as [-> ->]. apply rmt_update_ref_mode.
Qed.

Lemma rmt_accumulate_data (g : rmt_ref -> option tensor) (r : rmt_ref) (p : param) :
  data (rmt_accumulate g r p) = data p.
Proof.
  unfold rmt_accumulate. destruct (requires_grad p); [|reflexivity].
  destruct (g r); reflexivity.
Qed.

Lemma rmt_map_datas (f : rmt_ref -> param -> param) (s : RMT) (k : rmt_net) :
  (forall r p, data (f r p) = data p) ->
  datas (rmt_get k (rmt_map f s)) = datas (rmt_get k s).
Proof.
  intros Hf. destruct k; cbn [rmt_get rmt_map rmt_model rmt_model_ema rmt_projector].
  - apply (datas_map_indexed (fun i => f (RmtModel, i))). intros; apply Hf.
  - apply (datas_map_indexed (fun i => f (RmtModelEma, i))). intros; apply Hf.
  - apply (datas_map_indexed (fun i => f (RmtProjector, i))). intros; apply Hf.
Qed.

Lemma rmt_apply_step_frame (o : rmt_optim) (s : RMT) :
  rmt_contrast_mode (rmt_apply_step o s) = rmt_contrast_mode s /\
  ((forall r, In r (rmt_refs_of o) -> fst r <> RmtModelEma) ->
   rmt_model_ema (rmt_apply_step o s) = rmt_model_ema s).
Proof.
  unfold rmt_apply_step, rmt_refs_of.
  generalize (rmt_ostate o). intros os.
  revert s; induction (rmt_param_groups o) as [|g gs IH]; intros s; simpl;
    [now split|].
  assert (Hin : forall refs s,
    rmt_contrast_mode
      (fold_left (fun s r => rmt_update_ref (rmt_step_param os (snd g) r) r s) refs s)
    = rmt_contrast_mode s /\
    ((forall r, In r refs -> fst r <> RmtModelEma) ->
     rmt_model_ema
       (fold_left (fun s r => rmt_update_ref (rmt_step_param os (snd g) r) r s) refs s)
     = rmt_model_ema s)).
  { induction refs as [|r refs IHr]; intros s0; simpl; [now split|].
    destruct (IHr (rmt_update_ref (rmt_step_param os (snd g) r) r s0)) as [Hm He].
    split.
    - rewrite Hm. destruct r as [[] i]; reflexivity.
    - intros Hr. rewrite He by (intros; apply Hr; now right).
      specialize (Hr r (or_introl eq_refl)).
      destruct r as [[] i]; cbn in *; congruence. }
  destruct (IH (fold_left
                  (fun s r => rmt_update_ref (rmt_step_param os (snd g) r) r s)
                  (fst g) s)) as [Hm He].
  destruct (Hin (fst g) s) as [Hm1 He1].
  split.
  - now rewrite Hm.
  - intros Hr. rewrite He, He1; try reflexivity.
    + intros r Hi. apply Hr, in_or_app. now left.
    + intros r Hi. apply Hr, in_or_app. now right.
Qed.

Lemma datas_update_ema_variables (e e' m m' : network) (alpha : Q) :
  datas e = datas e' -> datas m = datas m' ->
  datas (update_ema_variables e m alpha) = datas (update_ema_variables e' m' alpha).
Proof.
  revert e' m m'; induction e as [|p e IH]; intros [|p' e'] [|q m] [|q' m'];
    simpl; intros He Hm; try discriminate; try reflexivity; try assumption.
  injection He as Hp He. injection Hm as Hq Hm.
  cbn [data set_data]. rewrite Hp, Hq. f_equal. now apply IH.
Qed.

Lemma RMT_contrastive_loss_unlabelled (self : RMT) (features : list (list tensor)) :
  RMT_contrastive_loss self features None None
  = if String.eqb (rmt_contrast_mode self) "one"
       || String.eqb (rmt_contrast_mode self) "all"
    then inr (supcon (rmt_contrast_mode self) (rmt_temperature self)
                     (datas (rmt_projector self)) features (eye (length features)))
    else inl (ValueError ("Unknown mode: " ++ rmt_contrast_mode self)).
Proof. reflexivity. Qed.

(** The state after [self.optimizer.zero_grad()]. *)
Lemma rmt_zero_grad_run (st : RMTEngine) :
  exists st1,
    rmt_zero_grad st = (inr tt, st1) /\
    rmt_cfg st1 = rmt_cfg st /\
    rmt_optimizer st1 = rmt_optimizer st /\
    rmt_src_passes st1 = rmt_src_passes st /\
    rmt_src_loader_iter st1 = rmt_src_loader_iter st /\
    rmt_trace st1 = rmt_trace st ++ [RmtZeroGrad] /\
    rmt_contrast_mode (rmt_self st1) = rmt_contrast_mode (rmt_self st) /\
    (forall k, datas (rmt_get k (rmt_self st1)) = datas (rmt_get k (rmt_self st))).
Proof.
  eexists. split; [reflexivity|].
  cbn [rmt_cfg rmt_optimizer rmt_src_passes rmt_src_loader_iter rmt_trace rmt_self
       rmt_log set_rmt_self].
  repeat split.
  - apply rmt_update_refs_mode.
  - intros k. now apply rmt_update_refs_datas.
Qed.

(** The state after [loss.backward()]. *)
Lemma rmt_backward_run (l : rmt_loss) (graph st : RMTEngine) :
  exists st1,
    rmt_backward l graph st = (inr tt, st1) /\
    rmt_cfg st1 = rmt_cfg st /\
    rmt_optimizer st1 = rmt_optimizer st /\
    rmt_src_passes st1 = rmt_src_passes st /\
    rmt_src_loader_iter st1 = rmt_src_loader_iter st /\
    rmt_trace st1 = rmt_trace st ++ [RmtBackward l] /\
    rmt_contrast_mode (rmt_self st1) = rmt_contrast_mode (rmt_self st) /\
    (forall k, datas (rmt_get k (rmt_self st1)) = datas (rmt_get k (rmt_self st))).
Proof.
  eexists. split; [reflexivity|].
  cbn [rmt_cfg rmt_optimizer rmt_src_passes rmt_src_loader_iter rmt_trace rmt_self
       rmt_log set_rmt_self].
  repeat split.
  intros k. apply rmt_map_datas. intros; apply rmt_accumulate_data.
Qed.

(** The end of a step: [self.optimizer.step()], the EMA update and the
    return. *)
Lemma rmt_step_ema_run {A : Type} (v : A) (st : RMTEngine) :
  (forall r, In r (rmt_refs_of (rmt_optimizer st)) -> fst r <> RmtModelEma) ->
  exists st',
    rbind rmt_step (fun _ => rbind (rmodify rmt_ema) (fun _ => rret v)) st
    = (inr v, st') /\
    rmt_cfg st' = rmt_cfg st /\
    rmt_param_groups (rmt_optimizer st') = rmt_param_groups (rmt_optimizer st) /\
    rmt_src_passes st' = rmt_src_passes st /\
    rmt_src_loader_iter st' = rmt_src_loader_iter st /\
    rmt_trace st'
    = rmt_trace st ++ [RmtStep (map snd (rmt_param_groups (rmt_optimizer st))); RmtEma] /\
    rmt_model_ema (rmt_self st')
    = update_ema_variables (rmt_model_ema (rmt_self st)) (rmt_model (rmt_self st'))
                           (rmt_m_teacher_momentum (rmt_cfg st)).
Proof.
  intros Hema. eexists. split; [reflexivity|].
  cbn [rmt_cfg rmt_optimizer rmt_src_passes rmt_src_loader_iter rmt_trace rmt_self
       rmt_log set_rmt_self set_rmt_optimizer rmt_ema rmt_param_groups
       rmt_set rmt_model rmt_model_ema].
  rewrite <- app_assoc. repeat split.
  destruct (rmt_apply_step_frame (rmt_optimizer st) (rmt_self st)) as [_ He].
  now rewrite (He Hema).
Qed.

(** X14.  [RMT.forward_and_adapt] with a contrast mode of the code, a
    source batch to draw when [lambda_ce_src > 0] and an optimizer that does
    not reference the teacher: the call clears the gradients first, returns
    the sum of the student's and the teacher's logits as they were before
    the step, draws a source batch exactly when [lambda_ce_src > 0], takes
    one optimizer step at the learning rates of the groups and no
    [zero_grad] after it, and leaves as teacher the EMA of the teacher
    before the call with the student after the step. *)
Theorem rmt_adapt_returns_ensemble_before_step (x : inputs) (st : RMTEngine) :
  let cf := rmt_cfg st in
  (rmt_contrast_mode (rmt_self st) = "one"%string \/
   rmt_contrast_mode (rmt_self st) = "all"%string) ->
  (rmt_lambda_ce_src cf <= 0 \/ rmt_src_loader_iter st <> [] \/
   rmt_src_loader cf (rmt_src_passes st) <> []) ->
  (forall r, In r (rmt_refs_of (rmt_optimizer st)) -> fst r <> RmtModelEma) ->
  exists st' src,
    rmt_forward_and_adapt x st
    = (inr (tensor_add (forward (datas (rmt_model (rmt_self st))) (fst x))
                       (forward (datas (rmt_model_ema (rmt_self st))) (fst x))), st') /\
    datas (rmt_model_ema (rmt_self st'))
    = datas (update_ema_variables (rmt_model_ema (rmt_self st))
                                  (rmt_model (rmt_self st'))
                                  (rmt_m_teacher_momentum cf)) /\
    rmt_param_groups (rmt_optimizer st') = rmt_param_groups (rmt_optimizer st) /\
    rmt_trace st'
    = rmt_trace st ++ [RmtZeroGrad; RmtBackward (LossTrg (fst x))] ++ src
      ++ [RmtStep (map snd (rmt_param_groups (rmt_optimizer st))); RmtEma] /\
    (rmt_lambda_ce_src cf <= 0 -> src = [] /\
       rmt_src_loader_iter st' = rmt_src_loader_iter st) /\
    (0 < rmt_lambda_ce_src cf ->
     exists imgs_src labels_src,
       src = [RmtNext; RmtBackward (LossCeSrc imgs_src labels_src)] \/
       src = [RmtIter; RmtNext; RmtBackward (LossCeSrc imgs_src labels_src)]).
Proof.
  intros cf Hmode Hsrc Hema. subst cf.
  unfold rmt_forward_and_adapt.
  destruct (rmt_zero_grad_run st)
    as (st1 & Hrun1 & Hc1 & Ho1 & Hp1 & Hi1 & Ht1 & Hm1 & Hd1).
  rewrite (rbind_run _ _ _ _ _ Hrun1). unfold rbind at 1, rget.
  rewrite RMT_contrastive_loss_unlabelled, Hm1.
  assert (Hb : String.eqb (rmt_contrast_mode (rmt_self st)) "one"
               || String.eqb (rmt_contrast_mode (rmt_self st)) "all" = true).
  { destruct Hmode as [-> | ->]; reflexivity. }
  rewrite Hb. cbn [rmt_lift]. unfold rbind at 1, rret.
  destruct (rmt_backward_run (LossTrg (fst x)) st1 st1)
    as (st2 & Hrun2 & Hc2 & Ho2 & Hp2 & Hi2 & Ht2 & Hm2 & Hd2).
  rewrite (rbind_run _ _ _ _ _ Hrun2).
  pose proof (Hd1 RmtModel) as HdM. pose proof (Hd1 RmtModelEma) as HdE.
  cbn [rmt_get] in HdM, HdE. rewrite HdM, HdE.
  destruct (Qle_bool (rmt_lambda_ce_src (rmt_cfg st1)) 0) eqn:Hle; cbn [negb].
  - (* no source batch *)
    unfold rbind at 1, rret.
    destruct (rmt_step_ema_run
                (tensor_add (forward (datas (rmt_model (rmt_self st))) (fst x))
                            (forward (datas (rmt_model_ema (rmt_self st))) (fst x))) st2)
      as (st' & Hrun & Hc & Hg & Hp & Hi & Ht & He).
    { rewrite Ho2, Ho1. exact Hema. }
    exists st', []. split; [exact Hrun|].
    split.
    { rewrite He, Hc2, Hc1. apply datas_update_ema_variables; [|reflexivity].
      pose proof (Hd2 RmtModelEma) as H. cbn [rmt_get] in H. congruence. }
    split; [congruence|].
    split.
    { rewrite Ht, Ht2, Ht1, Ho2, Ho1, <- !app_assoc. reflexivity. }
    split.
    { intros _. split; [reflexivity | congruence]. }
    intros Hpos. exfalso. apply Qle_bool_iff in Hle. rewrite Hc1 in Hle.
    apply (Qlt_not_le _ _ Hpos Hle).
  - (* a source batch is drawn *)
    assert (Hpos : 0 < rmt_lambda_ce_src (rmt_cfg st)).
    { apply Qnot_le_lt. intros H. rewrite <- Hc1 in H.
      apply Qle_bool_iff in H. congruence. }
    destruct (rmt_sample_source_batch_run st2)
      as (b & st3 & new3 & Hrun3 & Hc3 & Hs3 & Ho3 & Ht3 & Hn3).
    { rewrite Hi2, Hi1, Hc2, Hc1, Hp2, Hp1.
      destruct Hsrc as [H | [H | H]]; [|now left | now right].
      exfalso. apply (Qlt_not_le _ _ Hpos H). }
    unfold rbind at 1. rewrite (rbind_run _ _ _ _ _ Hrun3).
    destruct b as [imgs_src labels_src]. unfold rbind at 1, rget.
    destruct (rmt_backward_run (LossCeSrc imgs_src labels_src) st3 st3)
      as (st4 & Hrun4 & Hc4 & Ho4 & Hp4 & Hi4 & Ht4 & Hm4 & Hd4).
    rewrite Hrun4.
    destruct (rmt_step_ema_run
                (tensor_add (forward (datas (rmt_model (rmt_self st))) (fst x))
                            (forward (datas (rmt_model_ema (rmt_self st))) (fst x))) st4)
      as (st' & Hrun & Hc & Hg & Hp & Hi & Ht & He).
    { rewrite Ho4, Ho3, Ho2, Ho1. exact Hema. }
    exists st', (new3 ++ [RmtBackward (LossCeSrc imgs_src labels_src)]).
    split; [exact Hrun|].
    split.
    { rewrite He, Hc4, Hc3, Hc2, Hc1.
      apply datas_update_ema_variables; [|reflexivity].
      pose proof (Hd4 RmtModelEma) as H4. pose proof (Hd2 RmtModelEma) as H2.
      cbn [rmt_get] in H4, H2. rewrite H4, Hs3, H2. exact HdE. }
    split; [congruence|].
    split.
    { rewrite Ht, Ht4, Ht3, Ht2, Ht1, Ho4, Ho3, Ho2, Ho1, <- !app_assoc. reflexivity. }
    split.
    { intros H. exfalso. apply (Qlt_not_le _ _ Hpos H). }
    intros _. exists imgs_src, labels_src.
    destruct Hn3 as [-> | ->]; [now left | now right].
Qed.

(** X15.  The two ways [RMT.forward_and_adapt] raises.  With a contrast
    mode other than 'one' and 'all', [contrastive_loss] raises its
    [ValueError] when only [zero_grad] has run.  With [lambda_ce_src > 0]
    and a source loader without a batch, [StopIteration] leaves the call
    after the backward pass of the target loss.  Either way no optimizer
    step is taken and no EMA update made: every network holds the values it
    held, and the optimizer is as it was. *)
Theorem rmt_adapt_raises_before_step (x : inputs) (st : RMTEngine) :
  let cf := rmt_cfg st in
  let mode := rmt_contrast_mode (rmt_self st) in
  (mode <> "one"%string -> mode <> "all"%string ->
   exists st',
     rmt_forward_and_adapt x st
     = (inl (Raised (ValueError ("Unknown mode: " ++ mode))), st') /\
     (forall k, datas (rmt_get k (rmt_self st')) = datas (rmt_get k (rmt_self st))) /\
     rmt_optimizer st' = rmt_optimizer st /\
     rmt_src_loader_iter st' = rmt_src_loader_iter st /\
     rmt_trace st' = rmt_trace st ++ [RmtZeroGrad]) /\
  (mode = "one"%string \/ mode = "all"%string ->
   0 < rmt_lambda_ce_src cf ->
   rmt_src_loader_iter st = [] ->
   rmt_src_loader cf (rmt_src_passes st) = [] ->
   exists st',
     rmt_forward_and_adapt x st = (inl StopIteration, st') /\
     (forall k, datas (rmt_get k (rmt_self st')) = datas (rmt_get k (rmt_self st))) /\
     rmt_optimizer st' = rmt_optimizer st /\
     rmt_trace st'
     = rmt_trace st ++ [RmtZeroGrad; RmtBackward (LossTrg (fst x)); RmtIter]).
Proof.
  intros cf mode. subst cf mode.
  destruct (rmt_zero_grad_run st)
    as (st1 & Hrun1 & Hc1 & Ho1 & Hp1 & Hi1 & Ht1 & Hm1 & Hd1).
  split.
  - intros Hone Hall.
    exists st1. split; [|repeat split; assumption].
    unfold rmt_forward_and_adapt.
    rewrite (rbind_run _ _ _ _ _ Hrun1). unfold rbind at 1, rget.
    rewrite RMT_contrastive_loss_unlabelled, Hm1.
    apply String.eqb_neq in Hone, Hall. rewrite Hone, Hall.
    cbn [orb rmt_lift]. reflexivity.
  - intros Hmode Hpos Hit Hl.
    destruct (rmt_backward_run (LossTrg (fst x)) st1 st1)
      as (st2 & Hrun2 & Hc2 & Ho2 & Hp2 & Hi2 & Ht2 & Hm2 & Hd2).
    exists (rmt_log RmtIter (set_rmt_src_loader_iter (S (rmt_src_passes st2)) [] st2)).
    split.
    + unfold rmt_forward_and_adapt.
      rewrite (rbind_run _ _ _ _ _ Hrun1). unfold rbind at 1, rget.
      rewrite RMT_contrastive_loss_unlabelled, Hm1.
      assert (Hb : String.eqb (rmt_contrast_mode (rmt_self st)) "one"
                   || String.eqb (rmt_contrast_mode (rmt_self st)) "all" = true).
      { destruct Hmode as [-> | ->]; reflexivity. }
      rewrite Hb. cbn [rmt_lift]. unfold rbind at 1, rret.
      rewrite (rbind_run _ _ _ _ _ Hrun2).
      assert (Hle : Qle_bool (rmt_lambda_ce_src (rmt_cfg st1)) 0 = false).
      { destruct (Qle_bool (rmt_lambda_ce_src (rmt_cfg st1)) 0) eqn:Hq; [|reflexivity].
        apply Qle_bool_iff in Hq. rewrite Hc1 in Hq.
        exfalso. apply (Qlt_not_le _ _ Hpos Hq). }
      rewrite Hle. cbn [negb].
      apply rbind_raise. apply rbind_raise.
      unfold rmt_sample_source_batch, rbind at 1, rget.
      rewrite Hi2, Hi1, Hit.
      unfold rbind at 1, rmodify. unfold rmt_next, rbind at 1, rget.
      cbn [rmt_src_loader_iter rmt_log set_rmt_src_loader_iter].
      rewrite Hc2, Hc1, Hp2, Hp1, Hl. reflexivity.
    + cbn [rmt_self rmt_optimizer rmt_trace rmt_log set_rmt_src_loader_iter].
      repeat split.
      * intros k. now rewrite Hd2.
      * congruence.
      * rewrite Ht2, Ht1, <- !app_assoc. reflexivity.
Qed.

End RMTProperties.

Section ContrastiveMask.

Context {E : Collaborators}.

Local Abbreviation engine := (Ours opt_state).

(** ** The mask of the contrastive loss *)

Lemma eq_mask_eye (labels : list nat) :
  NoDup labels -> eq_mask labels = eye (length labels).
Proof.
  intros Hnd. unfold eq_mask, eye.
  apply (nth_ext _ _
           ((fun a => map (fun b => if (a =? b)%nat then 1 else 0) labels) 0%nat)
           ((fun i => map (fun j => if (i =? j)%nat then 1 else 0)
                          (seq 0 (length labels))) 0%nat)).
  - now rewrite !length_map, length_seq.
  - intros i Hi. rewrite length_map in Hi.
    rewrite (map_nth (fun a => map (fun b => if (a =? b)%nat then 1 else 0) labels)).
    rewrite (map_nth (fun i => map (fun j => if (i =? j)%nat then 1 else 0)
                                   (seq 0 (length labels)))).
    rewrite seq_nth by exact Hi. cbn [Nat.add].
    apply (nth_ext _ _
             ((fun b => if (nth i labels 0 =? b)%nat then 1 else 0) 0%nat)
             ((fun j => if (i =? j)%nat then 1 else 0) 0%nat)).
    + now rewrite !length_map, length_seq.
    + intros j Hj. rewrite length_map in Hj.
      rewrite (map_nth (fun b => if (nth i labels 0 =? b)%nat then 1 else 0)).
      rewrite (map_nth (fun j => if (i =? j)%nat then 1 else 0)).
      rewrite seq_nth by exact Hj. cbn [Nat.add].
      destruct (Nat.eqb_spec i j) as [-> | Hne].
      * now rewrite Nat.eqb_refl.
      * destruct (Nat.eqb_spec (nth i labels 0%nat) (nth j labels 0%nat)) as [Heq | _];
          [|reflexivity].
        exfalso. apply Hne.
        apply (proj1 (NoDup_nth labels 0%nat) Hnd i j Hi Hj Heq).
Qed.

(** X16.  Labels that are all different say what no labels say: with one
    label per feature row and no label twice, [contrastive_loss] of ours.py
    and of rmt.py build from [torch.eq(labels, labels.T)] the identity mask
    they take when neither labels nor a mask is given, so they return, or
    raise, as without labels. *)
Theorem distinct_labels_give_identity_mask
    (features prototypes features_aug : list tensor) (triplets : list (list tensor))
    (labels : list nat) (st : engine) (self : RMT) :
  NoDup labels ->
  (length labels = length features ->
   contrastive_loss features prototypes features_aug (Some labels) None st
   = contrastive_loss features prototypes features_aug None None st) /\
  (length labels = length triplets ->
   RMT_contrastive_loss self triplets (Some labels) None
   = RMT_contrastive_loss self triplets None None) /\
  eq_mask labels = eye (length labels).
Proof.
  intros Hnd. split; [|split].
  - intros Hlen. unfold contrastive_loss, bind, get, ret, raise.
    rewrite Hlen, Nat.eqb_refl. cbn [negb].
    now rewrite (eq_mask_eye labels Hnd), Hlen.
  - intros Hlen. unfold RMT_contrastive_loss.
    rewrite Hlen, Nat.eqb_refl. cbn [negb].
    now rewrite (eq_mask_eye labels Hnd), Hlen.
  - now apply eq_mask_eye.
Qed.

End ContrastiveMask.

(** ** The concrete engine: instances and divergences *)

#[local] Existing Instance sample_collaborators.

Lemma sample_engine_built : sample_engine = inr sample_state.
Proof. vm_compute; reflexivity. Qed.

Lemma queues_within_capacity_witness :
  Forall (fun q => (length q <= 10)%nat)
         (queues (priority_queues (run [Adapt sample_x; Adapt sample_x] sample_state))).
Proof.
  refine (proj2 (proj2 (queues_within_capacity 2 10 []
           sample_config (1 # 4) (1 # 2) sample_arch "cifar10_c" sample_model
           [0; 1]%nat 1 sample_projector sample_state
           [Adapt sample_x; Adapt sample_x]) _)).
  vm_compute; reflexivity.
Defined.

Lemma adapt_returns_teacher_ensemble_witness :
  fst (forward_and_adapt (E := sample_collaborators) sample_x sample_state)
  = inr (softmax (tensor_add (forward (datas (model_t1 (nets sample_state))) (fst sample_x))
                             (forward (datas (model_t2 (nets sample_state))) (fst sample_x)))).
Proof.
  refine (proj1 (adapt_returns_teacher_ensemble (E := sample_collaborators)
           sample_x sample_state _ _)).
  - vm_compute; reflexivity.
  - right. vm_compute; discriminate.
Defined.

Lemma t1_changes_only_by_ema_witness :
  detached
    (model_t1 (nets (run [Adapt sample_x; SlidingWindow sample_x; Adapt sample_x]
                         sample_state))).
Proof.
  refine (proj1 (proj2 (proj2 (t1_changes_only_by_ema
           sample_config (1 # 4) (1 # 2) sample_arch "cifar10_c" sample_model
           [0; 1]%nat 1 sample_projector sample_state
           [Adapt sample_x; SlidingWindow sample_x; Adapt sample_x] _)))).
  vm_compute; reflexivity.
Defined.

Lemma full_precision_step_protocol_witness :
  events_of (forward_and_adapt sample_x) sample_state
  = plot_events (c sample_state)
      ++ [EvBackward LossStu; EvStep OptimizerBn; EvZeroGrad OptimizerBn;
          EvBackward LossT2; EvStep OptimizerBackboneT2;
          EvZeroGrad OptimizerBackboneT2; EvEmaUpdate].
Proof.
  refine (proj1 (full_precision_step_protocol sample_x sample_state _ _ _)).
  - vm_compute; reflexivity.
  - vm_compute; reflexivity.
  - vm_compute; discriminate.
Defined.

(** The step below returns, and its events do not follow the stated
    protocol, because [optimizer_classifier_t2] does not step. *)
Lemma stated_protocol_fails :
  fst (forward_and_adapt sample_x sample_state)
  = inr (teacher_ensemble sample_state sample_x) /\
  stated_protocol (events_of (forward_and_adapt sample_x) sample_state) = false.
Proof. split; vm_compute; reflexivity. Qed.

(** C6.  One adaptation step of the engine built on
    [shared_graph_collaborators], where the student loss reaches T2 (as in
    ours.py, line 204).  The step returns, and its calls are those of the
    full-precision protocol: [optimizer_classifier_t2], built by the
    constructor over the classifier's parameter, does not step.  Between the
    student's step and T2's backward pass only [optimizer_bn.zero_grad()]
    runs, which clears the student's buffers: the buffer of T2's batch-norm
    parameter still holds the gradient [1] of the student loss.  T2's
    backward pass adds its own gradient [1] to it, and
    [optimizer_backbone_t2] steps on the sum: the parameter moves from 0 to
    -0.02, not to the -0.01 of T2's loss alone. *)
Theorem t2_steps_on_student_gradient :
  let st := shared_graph_state in
  let x := shared_graph_x in
  let r := forward_and_adapt (E := shared_graph_collaborators) x st in
  let evs := events_of (forward_and_adapt (E := shared_graph_collaborators) x) st in
  let mid := snd (until_t2_backward (E := shared_graph_collaborators) x st) in
  fst r = inr (teacher_ensemble (E := shared_graph_collaborators) st x) /\
  evs = full_precision_protocol /\
  stated_protocol evs = false /\
  refs_of (optimizer_classifier_t2 (opts st)) = [(ModelT2, 2%nat)] /\
  map grad (model_s (nets mid)) = [None; None; None] /\
  map grad (model_t2 (nets mid)) = [None; Some [1]; None] /\
  map data (model_t2 (nets st)) = [[1]; [0]; [0]] /\
  nth 0 (nth 1 (datas (model_t2 (nets (snd r)))) []) 0 == 0 - (1 # 100) * (1 + 1).
Proof.
  repeat split; vm_compute; reflexivity.
Qed.

(** C8.  After one adaptation step the student differs from the network
    handed to the constructor.  [forward_sliding_window] of ours.py leaves
    the engine as it is, but it adds T1's logits to those of [self.model],
    not to the student's: entry (0, 0) of its result is 1.7 where the sum of
    the student's and T1's logits has 0.7. *)
Theorem sliding_window_uses_constructor_model :
  let st := snd (forward_and_adapt sample_x sample_state) in
  let r := forward_sliding_window sample_x st in
  let student_plus_t1 :=
    tensor_add (forward (datas (model_s (nets st))) (fst sample_x))
               (forward (datas (model_t1 (nets st))) (fst sample_x)) in
  snd r = st /\
  fst r = inr (tensor_add (forward (datas (model (nets st))) (fst sample_x))
                          (forward (datas (model_t1 (nets st))) (fst sample_x))) /\
  nth 0 (nth 0 (or_default [] (fst r)) []) 0 == 17 # 10 /\
  nth 0 (nth 0 student_plus_t1 []) 0 == 7 # 10.
Proof.
  intros st r student_plus_t1.
  split; [apply forward_sliding_window_state|].
  split; [apply (f_equal fst (forward_sliding_window_run sample_x st))|].
  split; vm_compute; reflexivity.
Qed.



Lemma lambda_ce_trg_overwritten_witness :
  forward_and_adapt sample_x (set_lambda_ce_trg (7 # 3) sample_state)
  = forward_and_adapt sample_x sample_state.
Proof.
  exact (proj1 (proj2 (lambda_ce_trg_overwritten (7 # 3) sample_x sample_state))).
Defined.

(** ** The further properties on the concrete engines *)

Lemma unreferenced_parameter_never_written_witness :
  data_at (Projector, 0%nat) (nets (run [Adapt sample_x; Adapt sample_x] sample_state))
  = data_at (Projector, 0%nat) (nets sample_state).
Proof.
  refine (proj1 (unreferenced_parameter_never_written (Projector, 0%nat)
           [Adapt sample_x; Adapt sample_x] sample_state _ _)).
  - discriminate.
  - intros o v Ho Hv Hin. vm_compute in Ho.
    destruct Ho as [<- | [<- | []]]; vm_compute in Hv; injection Hv as <-;
      vm_compute in Hin; intuition discriminate.
Defined.

Lemma projector_never_trained_witness :
  datas (projector (nets (run [Adapt sample_x; SlidingWindow sample_x] sample_state)))
  = datas sample_projector.
Proof.
  refine (proj1 (projector_never_trained
           sample_config (1 # 4) (1 # 2) sample_arch "cifar10_c" sample_model
           [0; 1]%nat 1 sample_projector sample_state
           [Adapt sample_x; SlidingWindow sample_x] _)).
  vm_compute; reflexivity.
Defined.

Lemma mixed_precision_trains_nothing_witness :
  datas (model_s (nets (run [Adapt sample_x; Adapt sample_x] sample_mixed_state)))
  = datas sample_model.
Proof.
  refine (proj1 (mixed_precision_trains_nothing
           sample_mixed_config (1 # 4) (1 # 2) sample_arch "cifar10_c" sample_model
           [0; 1]%nat 1 sample_projector sample_mixed_state
           [Adapt sample_x; Adapt sample_x] _ _)).
  - vm_compute; reflexivity.
  - vm_compute; reflexivity.
Defined.

Lemma missing_optimizer_bn_raises_witness :
  fst (forward_and_adapt sample_x sample_state_without_bn)
  = inl (AttributeError "optimizer_bn").
Proof.
  refine (proj1 (missing_optimizer_bn_raises sample_x sample_state_without_bn _ _ _)).
  - vm_compute; reflexivity.
  - vm_compute; reflexivity.
  - vm_compute; reflexivity.
Defined.

Lemma constructor_outcome_witness :
  Ours_init sample_config (1 # 4) (1 # 2) sample_arch "imagenet_c" sample_model
            [0; 1]%nat 1 sample_projector
  = inl (UnboundLocalError "num_channels").
Proof.
  refine (proj1 (constructor_outcome
           sample_config (1 # 4) (1 # 2) sample_arch "imagenet_c" sample_model
           [0; 1]%nat 1 sample_projector) _ _).
  - discriminate.
  - discriminate.
Defined.

Lemma configure_model_flags_witness :
  datas (configure_model sample_arch sample_model (Some true)) = datas sample_model.
Proof.
  refine (proj1 (proj1 (configure_model_flags sample_arch sample_model 0 _) (Some true))).
  simpl; lia.
Defined.

Lemma RMT_configure_model_trains_all_witness :
  datas (RMT_configure_model sample_arch sample_model) = datas sample_model.
Proof.
  refine (proj1 (proj2 (RMT_configure_model_trains_all sample_arch sample_model 0 _))).
  simpl; lia.
Defined.

Lemma update_ema_variables_writes_values_only_witness :
  model_data_eq (update_ema_variables sample_model sample_model (1 # 2)) sample_model.
Proof.
  refine (proj2 (proj2 (proj2 (proj2
           (update_ema_variables_writes_values_only sample_model sample_model (1 # 2)))))
           _).
  repeat constructor.
Defined.

Lemma contrastive_loss_proto_zero_iff_margin_witness :
  0 <= contrastive_loss_proto (E := sample_collaborators)
         [[1; 0]] [[1; 0]; [0; 1]] [0%nat] (1 # 2).
Proof.
  refine (proj1 (contrastive_loss_proto_zero_iff_margin (E := sample_collaborators)
           [[1; 0]] [[1; 0]; [0; 1]] [0%nat] (1 # 2) _ _ _ _)).
  - discriminate.
  - reflexivity.
  - vm_compute; lia.
  - repeat constructor.
Defined.

Lemma warmup_ramps_learning_rate_witness :
  fst (rmt_warmup (K := sample_rmt_kernels) sample_rmt) = inr tt.
Proof.
  destruct (warmup_ramps_learning_rate (K := sample_rmt_kernels) sample_rmt)
    as (st' & new & H & _).
  - intros n. discriminate.
  - rewrite H. reflexivity.
Defined.

Lemma warmup_empty_loader_stops_witness :
  fst (rmt_warmup (K := sample_rmt_kernels) sample_rmt_without_source)
  = inl StopIteration.
Proof.
  destruct (warmup_empty_loader_stops (K := sample_rmt_kernels)
              sample_rmt_without_source)
    as (st' & H & _).
  - reflexivity.
  - reflexivity.
  - vm_compute; lia.
  - rewrite H. reflexivity.
Defined.

Lemma rmt_adapt_returns_ensemble_before_step_witness :
  fst (rmt_forward_and_adapt (K := sample_rmt_kernels) sample_x sample_rmt)
  = inr (tensor_add
           (forward (datas (rmt_model (rmt_self sample_rmt))) (fst sample_x))
           (forward (datas (rmt_model_ema (rmt_self sample_rmt))) (fst sample_x))).
Proof.
  destruct (rmt_adapt_returns_ensemble_before_step (K := sample_rmt_kernels)
              sample_x sample_rmt)
    as (st' & src & H & _).
  - right. reflexivity.
  - right. right. discriminate.
  - intros r Hin. vm_compute in Hin.
    destruct Hin as [<- | [<- | [<- | []]]]; discriminate.
  - rewrite H. reflexivity.
Defined.

Lemma rmt_adapt_raises_before_step_witness :
  fst (rmt_forward_and_adapt (K := sample_rmt_kernels) sample_x
         sample_rmt_without_source)
  = inl StopIteration.
Proof.
  destruct (proj2 (rmt_adapt_raises_before_step (K := sample_rmt_kernels)
                     sample_x sample_rmt_without_source))
    as (st' & H & _).
  - right. reflexivity.
  - reflexivity.
  - reflexivity.
  - reflexivity.
  - rewrite H. reflexivity.
Defined.


Lemma distinct_labels_give_identity_mask_witness :
  eq_mask [0; 1]%nat = eye 2.
Proof.
  refine (proj2 (proj2 (distinct_labels_give_identity_mask (E := sample_collaborators)
           [] [] [] [] [0; 1]%nat sample_state (mkRMT [] [] [] "one" 1) _))).
  constructor; [simpl; intuition discriminate|].
  constructor; [simpl; tauto | constructor].
Defined.
